(** * GPT-2 byte-pair-encoding tokenizer (Targets/GPT2/BPE.hpp)

    A shallow embedding of the [BPE] class: the byte/codepoint alphabet,
    the UTF-8 codec, the two table loaders, the regex pretokenizer, the
    pair merger and the [encode]/[decode] entry points, followed by the
    properties established about them. *)

From Stdlib Require Import ZArith Lia List Bool String Ascii.
From stdpp Require Import base gmap sets list strings.

Local Open Scope Z_scope.

(** ** Data model *)

(** [char] values are kept as unsigned byte values [0..255], [wchar_t],
    [size_t] and [ssize_t] values as integers; a [std::string] and a
    [std::wstring] are both lists of such integers. *)

Definition SSIZE_MAX : Z := 2 ^ 63 - 1.
Definition INT_MIN : Z := - 2 ^ 31.
Definition INT_MAX : Z := 2 ^ 31 - 1.

(** Literal helper: the bytes of an ASCII string constant. *)
Fixpoint str (s : string) : list Z :=
  match s with
  | EmptyString => []
  | String a s' => Z.of_nat (nat_of_ascii a) :: str s'
  end.

(** The member tables of the class ([m_re] is a constant pattern and is
    embedded as the matcher [regex_match_here] below). *)
Record BPE := mkBPE {
  m_bpeRanks : gmap (list Z * list Z) Z;
  m_b2u : gmap Z Z;
  m_u2b : gmap Z Z;
  m_t2i : gmap (list Z) Z;
  m_i2t : gmap Z (list Z)
}.

(** Exceptions the code can raise, and the outcome of a call. *)
Inductive exn :=
  | RuntimeError        (* "Invalid UTF-8 sequence." *)
  | OutOfRange          (* unordered_map::at on an absent key, stoi overflow *)
  | InvalidArgument     (* stoi without digits *)
  | UndefinedRead       (* operator[] past the terminating NUL *)
  | FilesystemError.    (* std::filesystem::filesystem_error *)

Inductive res (A : Type) :=
  | Ret (a : A)
  | Exc (e : exn)
  | Fuel.               (* the loop did not finish within the step budget *)
Arguments Ret {A} a.
Arguments Exc {A} e.
Arguments Fuel {A}.

Definition rbind {A B} (r : res A) (k : A -> res B) : res B :=
  match r with
  | Ret a => k a
  | Exc e => Exc e
  | Fuel => Fuel
  end.

(** Member functions run over the object: they receive it and hand it back
    together with their outcome. *)
Definition M (A : Type) : Type := BPE -> res A * BPE.

Definition ret {A} (a : A) : M A := fun st => (Ret a, st).
Definition throw {A} (e : exn) : M A := fun st => (Exc e, st).
Definition out_of_fuel {A} : M A := fun st => (Fuel, st).
Definition lift {A} (r : res A) : M A := fun st => (r, st).
Definition bind {A B} (m : M A) (k : A -> M B) : M B :=
  fun st =>
    match m st with
    | (Ret a, st') => k a st'
    | (Exc e, st') => (Exc e, st')
    | (Fuel, st') => (Fuel, st')
    end.

Notation "'let*' x ':=' m 'in' k" := (bind m (fun x => k))
  (at level 10, x name, m at level 100, k at level 200).

Definition gets {A} (f : BPE -> A) : M A := fun st => (Ret (f st), st).
Definition modify (f : BPE -> BPE) : M unit := fun st => (Ret tt, f st).

(** [std::unordered_map::at]: throws [std::out_of_range] on an absent key. *)
Definition umap_at `{Countable K} {V} (tbl : BPE -> gmap K V) (k : K) : M V :=
  let* m := gets tbl in
  match m !! k with
  | Some v => ret v
  | None => throw OutOfRange
  end.

(** A computation that hands the object back as it received it. *)
Definition readonly {A} (m : M A) : Prop := forall st, snd (m st) = st.

(** The outcome of a computation on a given object. *)
Definition eval {A} (m : M A) (st : BPE) : res A := fst (m st).

(** [std::unordered_map::insert]: the element is inserted only when the key
    is not present yet. *)
Definition umap_insert `{Countable K} {V} (k : K) (v : V) (m : gmap K V) : gmap K V :=
  match m !! k with
  | Some _ => m
  | None => <[k := v]> m
  end.

(** ** The byte/codepoint alphabet: [bytesToUnicode] *)

Definition to_uint8 (c : Z) : Z := c mod 256.

(** The lambda [insertRange]: a counted loop from [start] to [end]. *)
Fixpoint insertRange_loop (n : nat) (c : Z) (b2u : gmap Z Z) : gmap Z Z :=
  match n with
  | O => b2u
  | S n' => insertRange_loop n' (c + 1) (umap_insert (to_uint8 c) c b2u)
  end.

Definition insertRange (start end_ : Z) (b2u : gmap Z Z) : gmap Z Z :=
  insertRange_loop (Z.to_nat (end_ - start + 1)) start b2u.

Fixpoint fill_loop (k : nat) (b n : Z) (b2u : gmap Z Z) : gmap Z Z :=
  match k with
  | O => b2u
  | S k' =>
      match b2u !! to_uint8 b with
      | Some _ => fill_loop k' (b + 1) n b2u
      | None => fill_loop k' (b + 1) (n + 1) (umap_insert (to_uint8 b) (256 + n) b2u)
      end
  end.

(** The second loop walks the entries of [m_b2u]. *)
Definition invert_entries (es : list (Z * Z)) : gmap Z Z :=
  foldl (fun u2b e => umap_insert (snd e) (fst e) u2b) ∅ es.

Definition bytesToUnicode (st : BPE) : BPE :=
  let b2u := insertRange 33 126 ∅ in          (* L'!' .. L'~' *)
  let b2u := insertRange 161 172 b2u in       (* L'¡' .. L'¬' *)
  let b2u := insertRange 174 255 b2u in       (* L'®' .. L'ÿ' *)
  let b2u := fill_loop 256 0 0 b2u in
  let u2b := invert_entries (map_to_list b2u) in
  mkBPE (m_bpeRanks st) b2u u2b (m_t2i st) (m_i2t st).

Definition printable (b : Z) : bool :=
  ((33 <=? b) && (b <=? 126)) || ((161 <=? b) && (b <=? 172)) || ((174 <=? b) && (b <=? 255)).

Definition byte_table : gmap Z Z := Eval vm_compute in m_b2u (bytesToUnicode (mkBPE ∅ ∅ ∅ ∅ ∅)).
Definition codepoint_table : gmap Z Z := Eval vm_compute in m_u2b (bytesToUnicode (mkBPE ∅ ∅ ∅ ∅ ∅)).

(** ** The UTF-8 codec: [utf8ToWString] and [wstringToUTF8] *)

(** [str[i + k]] at [i + k = size()] reads the terminating NUL; an index past
    it is outside the object and is reported as [UndefinedRead]. *)
Fixpoint utf8ToWString (s : list Z) : res (list Z) :=
  match s with
  | [] => Ret []
  | ch :: rest =>
      if ch <=? 0x7f then
        rbind (utf8ToWString rest) (fun w => Ret (ch :: w))
      else if ch <=? 0xdf then
        let wc := Z.shiftl (Z.land ch 0x1f) 6 in
        match rest with
        | b1 :: rest' =>
            rbind (utf8ToWString rest') (fun w => Ret (Z.lor wc (Z.land b1 0x3f) :: w))
        | [] => Ret [Z.lor wc (Z.land 0 0x3f)]
        end
      else if ch <=? 0xef then
        let wc := Z.shiftl (Z.land ch 0x0f) 12 in
        match rest with
        | b1 :: b2 :: rest' =>
            rbind (utf8ToWString rest')
              (fun w => Ret (Z.lor (Z.lor wc (Z.shiftl (Z.land b1 0x3f) 6)) (Z.land b2 0x3f) :: w))
        | [b1] => Ret [Z.lor (Z.lor wc (Z.shiftl (Z.land b1 0x3f) 6)) (Z.land 0 0x3f)]
        | [] => Exc UndefinedRead
        end
      else if ch <=? 0xf7 then
        let wc := Z.shiftl (Z.land ch 0x07) 18 in
        match rest with
        | b1 :: b2 :: b3 :: rest' =>
            rbind (utf8ToWString rest')
              (fun w => Ret (Z.lor (Z.lor (Z.lor wc (Z.shiftl (Z.land b1 0x3f) 12))
                                      (Z.shiftl (Z.land b2 0x3f) 6)) (Z.land b3 0x3f) :: w))
        | [b1; b2] =>
            Ret [Z.lor (Z.lor (Z.lor wc (Z.shiftl (Z.land b1 0x3f) 12))
                          (Z.shiftl (Z.land b2 0x3f) 6)) (Z.land 0 0x3f)]
        | _ => Exc UndefinedRead
        end
      else Exc RuntimeError
  end.

(** [static_cast<char>]: the low eight bits. *)
Definition to_char (x : Z) : Z := x mod 256.

Definition utf8_of_wchar (wc : Z) : list Z :=
  if wc <=? 0x7f then [to_char wc]
  else if wc <=? 0x7ff then
    [to_char (Z.lor 0xc0 (Z.land (Z.shiftr wc 6) 0x1f));
     to_char (Z.lor 0x80 (Z.land wc 0x3f))]
  else if wc <=? 0xffff then
    [to_char (Z.lor 0xe0 (Z.land (Z.shiftr wc 12) 0x0f));
     to_char (Z.lor 0x80 (Z.land (Z.shiftr wc 6) 0x3f));
     to_char (Z.lor 0x80 (Z.land wc 0x3f))]
  else if wc <=? 0x10ffff then
    [to_char (Z.lor 0xf0 (Z.land (Z.shiftr wc 18) 0x07));
     to_char (Z.lor 0x80 (Z.land (Z.shiftr wc 12) 0x3f));
     to_char (Z.lor 0x80 (Z.land (Z.shiftr wc 6) 0x3f));
     to_char (Z.lor 0x80 (Z.land wc 0x3f))]
  else [].

Fixpoint wstringToUTF8 (wstr : list Z) : list Z :=
  match wstr with
  | [] => []
  | wc :: wstr' => utf8_of_wchar wc ++ wstringToUTF8 wstr'
  end.

(** [byteEncodeToken]: every byte of the token through [m_b2u.at]. *)
Fixpoint byteEncodeToken (token : list Z) : M (list Z) :=
  match token with
  | [] => ret []
  | c :: token' =>
      let* wc := umap_at m_b2u (to_uint8 c) in
      let* encodedToken := byteEncodeToken token' in
      ret (wc :: encodedToken)
  end.

(** ** [std::string] operations used by the class *)

Fixpoint starts_with (pat text : list Z) : bool :=
  match pat, text with
  | [], _ => true
  | p :: pat', c :: text' => (p =? c) && starts_with pat' text'
  | _ :: _, [] => false
  end.

(** [find_from pat text i]: [text] is the part of the string from index [i]. *)
Fixpoint find_from (pat text : list Z) (i : nat) : option nat :=
  if starts_with pat text then Some i
  else match text with
       | [] => None
       | _ :: text' => find_from pat text' (S i)
       end.

(** [text.find(pat, pos)]; [None] is [npos]. *)
Definition string_find (text pat : list Z) (pos : nat) : option nat :=
  if (pos <=? length text)%nat then find_from pat (drop pos text) pos else None.

(** [text.substr(pos, count)] and [text.substr(pos)] ([count = None]). *)
Definition substr (text : list Z) (pos : nat) (count : option nat) : res (list Z) :=
  if (length text <? pos)%nat then Exc OutOfRange
  else match count with
       | Some n => Ret (take n (drop pos text))
       | None => Ret (drop pos text)
       end.

(** The lines [std::getline] delivers until the stream fails. *)
Fixpoint getlines_from (cur : list Z) (s : list Z) : list (list Z) :=
  match s with
  | [] => match cur with [] => [] | _ => [rev cur] end
  | c :: s' =>
      if c =? 10 then rev cur :: getlines_from [] s'
      else getlines_from (c :: cur) s'
  end.

(** A file as [std::fstream] sees it: [None] when it cannot be opened, in
    which case every [getline] fails. *)
Definition getlines (file : option (list Z)) : list (list Z) :=
  match file with
  | None => []
  | Some content => getlines_from [] content
  end.

Definition isspace (c : Z) : bool := (c =? 32) || ((9 <=? c) && (c <=? 13)).
Definition isdigit (c : Z) : bool := (48 <=? c) && (c <=? 57).

Fixpoint skip_spaces (s : list Z) : list Z :=
  match s with
  | c :: s' => if isspace c then skip_spaces s' else s
  | [] => []
  end.

Fixpoint digits_value (s : list Z) (acc : Z) : Z :=
  match s with
  | c :: s' => if isdigit c then digits_value s' (10 * acc + (c - 48)) else acc
  | [] => acc
  end.

(** [std::stoi(line)]: leading blanks, an optional sign, decimal digits. *)
Definition stoi (line : list Z) : res Z :=
  let s := skip_spaces line in
  let '(neg, s) := match s with
                   | c :: s' => if c =? 45 then (true, s')
                                else if c =? 43 then (false, s') else (false, s)
                   | [] => (false, s)
                   end in
  match s with
  | c :: _ =>
      if isdigit c then
        let v := if (neg : bool) then - digits_value s 0 else digits_value s 0 in
        if (INT_MIN <=? v) && (v <=? INT_MAX) then Ret v else Exc OutOfRange
      else Exc InvalidArgument
  | [] => Exc InvalidArgument
  end.

(** ** The table loaders *)

Definition set_bpeRanks (f : gmap (list Z * list Z) Z -> gmap (list Z * list Z) Z) (st : BPE) : BPE :=
  mkBPE (f (m_bpeRanks st)) (m_b2u st) (m_u2b st) (m_t2i st) (m_i2t st).
Definition set_t2i (f : gmap (list Z) Z -> gmap (list Z) Z) (st : BPE) : BPE :=
  mkBPE (m_bpeRanks st) (m_b2u st) (m_u2b st) (f (m_t2i st)) (m_i2t st).
Definition set_i2t (f : gmap Z (list Z) -> gmap Z (list Z)) (st : BPE) : BPE :=
  mkBPE (m_bpeRanks st) (m_b2u st) (m_u2b st) (m_t2i st) (f (m_i2t st)).
Definition set_b2u (f : gmap Z Z -> gmap Z Z) (st : BPE) : BPE :=
  mkBPE (m_bpeRanks st) (f (m_b2u st)) (m_u2b st) (m_t2i st) (m_i2t st).
Definition set_u2b (f : gmap Z Z -> gmap Z Z) (st : BPE) : BPE :=
  mkBPE (m_bpeRanks st) (m_b2u st) (f (m_u2b st)) (m_t2i st) (m_i2t st).

(** One rule line: [line.substr(0, d)] and [line.substr(d + 1)]; when the line
    has no space, [d] is [npos] and [d + 1] wraps to [0], so both halves are
    the whole line. *)
Definition split_rule (line : list Z) : list Z * list Z :=
  match string_find line [32] 0 with
  | Some d => (take d line, drop (d + 1) line)
  | None => (line, line)
  end.

Fixpoint loadMergeRules_loop (lines : list (list Z)) (n : Z) : M unit :=
  match lines with
  | [] => ret tt
  | line :: lines' =>
      if 0 <? n then                      (* n++ > 0: skip the version comment *)
        let n := n + 1 in
        let* l := lift (utf8ToWString (fst (split_rule line))) in
        let* r := lift (utf8ToWString (snd (split_rule line))) in
        let* _ := modify (set_bpeRanks (umap_insert (l, r) (n - 1))) in
        loadMergeRules_loop lines' n
      else loadMergeRules_loop lines' (n + 1)
  end.

Definition loadMergeRules (file : option (list Z)) : M unit :=
  let* _ := modify (set_bpeRanks (fun _ => ∅)) in
  loadMergeRules_loop (getlines file) 0.

Fixpoint loadVocab_loop (lines : list (list Z)) (token : list Z) (n : Z) : M unit :=
  match lines with
  | [] => ret tt
  | line :: lines' =>
      if n mod 2 =? 0 then loadVocab_loop lines' line (n + 1)
      else
        let* id := lift (stoi line) in
        let* _ := modify (set_t2i (umap_insert token id)) in
        let* id' := lift (stoi line) in
        let* _ := modify (set_i2t (umap_insert id' token)) in
        loadVocab_loop lines' token (n + 1)
  end.

Definition loadVocab (file : option (list Z)) : M unit :=
  let* _ := modify (set_t2i (fun _ => ∅)) in
  let* _ := modify (set_i2t (fun _ => ∅)) in
  loadVocab_loop (getlines file) [] 0.

(** The two-file constructor. *)
Definition BPE_ctor (mergesFile vocabsFile : option (list Z)) : M unit :=
  let* _ := modify (fun _ => mkBPE ∅ ∅ ∅ ∅ ∅) in
  let* _ := loadMergeRules mergesFile in
  let* _ := loadVocab vocabsFile in
  modify bytesToUnicode.

(** The object a successful construction leaves. *)
Definition BPE_new (mergesFile vocabsFile : option (list Z)) : res BPE :=
  match BPE_ctor mergesFile vocabsFile (mkBPE ∅ ∅ ∅ ∅ ∅) with
  | (Ret _, st) => Ret st
  | (Exc e, _) => Exc e
  | (Fuel, _) => Fuel
  end.

(** ** The pair merger: [getPairs] and [bpe] *)

Fixpoint getPairs_loop (previous : Z) (word : list Z) : list (list Z * list Z) :=
  match word with
  | [] => []
  | c :: word' => ([previous], [c]) :: getPairs_loop c word'
  end.

Definition getPairs (word : list Z) : list (list Z * list Z) :=
  if (length word <? 2)%nat then []
  else match word with
       | previous :: word' => getPairs_loop previous word'
       | [] => []
       end.

(** The lambdas [left] and [right] of [bpe]. *)
Fixpoint left_scan (n : nat) (j : Z) (merged : gset Z) : Z :=
  match n with
  | O => -1
  | S n' => if decide (j ∈ merged) then left_scan n' (j - 1) merged else j
  end.

Definition left (i : Z) (merged : gset Z) : Z :=
  left_scan (Z.to_nat (i + 1)) (i - 1) merged.

Fixpoint right_scan (n : nat) (j cap : Z) (merged : gset Z) : Z :=
  match n with
  | O => cap
  | S n' => if decide (j ∈ merged) then right_scan n' (j + 1) cap merged else j
  end.

Definition right (i cap : Z) (merged : gset Z) : Z :=
  right_scan (Z.to_nat (cap - (i + 1))) (i + 1) cap merged.

(** The selection loop; [ps] are the slots from index [i] on. *)
Fixpoint select_loop (ps : list (list Z * list Z)) (i : Z) (merged : gset Z)
    (minScore toMerge : Z) : M (Z * Z) :=
  match ps with
  | [] => ret (minScore, toMerge)
  | p :: ps' =>
      if decide (i ∈ merged) then select_loop ps' (i + 1) merged minScore toMerge
      else
        let* ranks := gets m_bpeRanks in
        let score := match ranks !! p with Some r => r | None => SSIZE_MAX end in
        if score <? minScore then select_loop ps' (i + 1) merged score i
        else select_loop ps' (i + 1) merged minScore toMerge
  end.

Definition vector_at {A} (v : list A) (i : Z) : M A :=
  match (if 0 <=? i then v !! Z.to_nat i else None) with
  | Some x => ret x
  | None => throw UndefinedRead
  end.

Fixpoint merge_loop (fuel : nat) (pairs : list (list Z * list Z)) (merged : gset Z)
    : M (list (list Z * list Z) * gset Z) :=
  match fuel with
  | O => out_of_fuel
  | S fuel' =>
      let* sel := select_loop pairs 0 merged SSIZE_MAX (-1) in
      let toMerge := snd sel in
      if toMerge =? -1 then ret (pairs, merged)
      else
        let merged := {[toMerge]} ∪ merged in
        let* p := vector_at pairs toMerge in
        let mergeInto := fst p ++ snd p in
        let l := left toMerge merged in
        let pairs := if 0 <=? l
                     then alter (fun q => (fst q, mergeInto)) (Z.to_nat l) pairs
                     else pairs in
        let r := right toMerge (Z.of_nat (length pairs)) merged in
        let pairs := if r <? Z.of_nat (length pairs)
                     then alter (fun q => (mergeInto, snd q)) (Z.to_nat r) pairs
                     else pairs in
        merge_loop fuel' pairs merged
  end.

(** The output walk over the slots from index [i] on. *)
Fixpoint emit_loop (ps : list (list Z * list Z)) (i : Z) (merged : gset Z)
    (result : list (list Z)) : list (list Z) :=
  match ps with
  | [] => result
  | p :: ps' =>
      if decide (i ∈ merged) then emit_loop ps' (i + 1) merged result
      else
        let result := if left i merged <? 0 then result ++ [fst p] else result in
        emit_loop ps' (i + 1) merged (result ++ [snd p])
  end.

(** [bpe(token, result)]; every pass of the [while (true)] loop that does not
    leave it marks one more slot, so one pass per slot and a last one are
    budgeted. *)
Definition bpe (token : list Z) (result : list (list Z)) : M (list (list Z)) :=
  let pairs := getPairs token in
  let* final := merge_loop (S (length pairs)) pairs ∅ in
  let pairs := fst final in
  let merged := snd final in
  if (size merged =? length pairs)%nat then ret (result ++ [token])
  else ret (emit_loop pairs 0 merged result).

(** ** The pretokenizer: [m_re] and [tokenize] *)

(** Character classes of the pattern, as the classic locale classifies the
    characters: [\s], [\d], [[a-zA-Z]], [\w] (alphanumeric or underscore) and
    [[^\s\w]]. *)
Definition re_space (c : Z) : bool := isspace c.
Definition re_digit (c : Z) : bool := isdigit c.
Definition re_letter (c : Z) : bool :=
  ((97 <=? c) && (c <=? 122)) || ((65 <=? c) && (c <=? 90)).
Definition re_word (c : Z) : bool := re_letter c || re_digit c || (c =? 95).
Definition re_other (c : Z) : bool := negb (re_space c) && negb (re_word c).

Fixpoint take_while (cls : Z -> bool) (w : list Z) : list Z :=
  match w with
  | c :: w' => if cls c then c :: take_while cls w' else []
  | [] => []
  end.

Fixpoint drop_while (cls : Z -> bool) (w : list Z) : list Z :=
  match w with
  | c :: w' => if cls c then drop_while cls w' else w
  | [] => []
  end.

(** A match is the matched text ([match.str()]) and what follows it
    ([match.suffix()]). *)
Definition re_literal (lit w : list Z) : option (list Z * list Z) :=
  if starts_with lit w then Some (lit, drop (length lit) w) else None.

(** [cls+], greedy. *)
Definition re_plus (cls : Z -> bool) (w : list Z) : option (list Z * list Z) :=
  match take_while cls w with
  | [] => None
  | m => Some (m, drop_while cls w)
  end.

(** [ ?cls+]: the space is taken first, and given back when no [cls+] follows. *)
Definition re_opt_space_plus (cls : Z -> bool) (w : list Z) : option (list Z * list Z) :=
  match w with
  | c :: w' =>
      if c =? 32 then
        match re_plus cls w' with
        | Some (m, suffix) => Some (32 :: m, suffix)
        | None => re_plus cls w
        end
      else re_plus cls w
  | [] => None
  end.

(** Ordered alternation: the first alternative that matches wins. *)
Fixpoint re_alt (alts : list (list Z -> option (list Z * list Z))) (w : list Z)
    : option (list Z * list Z) :=
  match alts with
  | [] => None
  | a :: alts' => match a w with Some r => Some r | None => re_alt alts' w end
  end.

(** ['s|'t|'re|'ve|'m|'ll|'d| ?[a-zA-Z]+| ?\d+| ?[^\s\w]+|\s+] at the head of [w]. *)
Definition regex_match_here : list Z -> option (list Z * list Z) :=
  re_alt [ re_literal (str "'s"); re_literal (str "'t"); re_literal (str "'re");
           re_literal (str "'ve"); re_literal (str "'m"); re_literal (str "'ll");
           re_literal (str "'d");
           re_opt_space_plus re_letter; re_opt_space_plus re_digit;
           re_opt_space_plus re_other; re_plus re_space ].

(** [std::regex_search]: the leftmost position with a match. *)
Fixpoint regex_search (w : list Z) : option (list Z * list Z) :=
  match regex_match_here w with
  | Some r => Some r
  | None => match w with
            | [] => None
            | _ :: w' => regex_search w'
            end
  end.

(** The [while (std::regex_search(...))] loop over what remains of [wtext];
    every match is at least one character long, so one pass per character
    is budgeted. *)
Fixpoint tokenize_loop (fuel : nat) (w : list Z) (result : list (list Z))
    : M (list (list Z)) :=
  match regex_search w with
  | None => ret result
  | Some (wtoken, suffix) =>
      match fuel with
      | O => out_of_fuel
      | S fuel' =>
          let* encodedToken := byteEncodeToken (wstringToUTF8 wtoken) in
          let* bpeTokens := bpe encodedToken [] in
          tokenize_loop fuel' suffix (result ++ map wstringToUTF8 bpeTokens)
      end
  end.

Definition tokenize (text : list Z) (result : list (list Z)) : M (list (list Z)) :=
  let* wtext := lift (utf8ToWString text) in
  tokenize_loop (length wtext) wtext result.

(** ** [encode] and [decode] *)

(** The marker-splitting loop; it yields the tokens so far and the position
    [s] behind the last marker. *)
Fixpoint encode_loop (fuel : nat) (text eot : list Z) (s : nat) (i : option nat)
    (tokens : list (list Z)) : M (list (list Z) * nat) :=
  match i with
  | None => ret (tokens, s)
  | Some i =>
      match fuel with
      | O => out_of_fuel
      | S fuel' =>
          let* segment := lift (substr text s (Some (i - s)%nat)) in
          let* tokens := tokenize segment tokens in
          let tokens := tokens ++ [eot] in
          let s := (i + length eot)%nat in
          encode_loop fuel' text eot s (string_find text eot s) tokens
      end
  end.

Fixpoint lookup_ids (tokens : list (list Z)) : M (list Z) :=
  match tokens with
  | [] => ret []
  | token :: tokens' =>
      let* id := umap_at m_t2i token in
      let* tokenIds := lookup_ids tokens' in
      ret (id :: tokenIds)
  end.

(** [encode(text, eot)], with a budget of [fuel] passes for the marker loop. *)
Definition encode (fuel : nat) (text eot : list Z) : M (list Z) :=
  let* split := encode_loop fuel text eot 0 (string_find text eot 0) [] in
  let* rest := lift (substr text (snd split) None) in
  let* tokens := tokenize rest (fst split) in
  lookup_ids tokens.

Fixpoint decode_concat (tokenIds : list Z) (str : list Z) : M (list Z) :=
  match tokenIds with
  | [] => ret str
  | id :: tokenIds' =>
      let* token := umap_at m_i2t id in
      decode_concat tokenIds' (str ++ token)
  end.

Fixpoint decode_bytes (wstr : list Z) (text : list Z) : M (list Z) :=
  match wstr with
  | [] => ret text
  | c :: wstr' =>
      let* b := umap_at m_u2b c in
      decode_bytes wstr' (text ++ [to_char b])
  end.

Definition decode (tokenIds : list Z) : M (list Z) :=
  let* s := decode_concat tokenIds [] in
  let* wstr := lift (utf8ToWString s) in
  decode_bytes wstr [].

(** The codepoint the alphabet should give byte [b]: [b] itself in the
    printable ranges, otherwise [256] plus the number of smaller bytes outside
    them. *)
Definition expected_codepoint (b : Z) : Z :=
  if printable b then b
  else 256 + Z.of_nat (length (filter (fun x => negb (printable x)) (seqZ 0 b))).

Definition check_byte (b2u u2b : gmap Z Z) (b : Z) : bool :=
  match b2u !! b with
  | Some c => (c =? expected_codepoint b) &&
              match u2b !! c with Some b' => b' =? b | None => false end
  | None => false
  end.

Definition check_codepoint (b2u u2b : gmap Z Z) (e : Z * Z) : bool :=
  (0 <=? snd e) && (snd e <? 256) &&
  match b2u !! snd e with Some c => c =? fst e | None => false end.

(** The entries of a vocabulary file as the format describes them: lines
    alternate a token and its id in decimal; [pending] is the token line
    still waiting for its id line. *)
Fixpoint entries_from (lines : list (list Z)) (pending : option (list Z))
    : res (list (list Z * Z)) :=
  match lines with
  | [] => Ret []
  | line :: lines' =>
      match pending with
      | None => entries_from lines' (Some line)
      | Some token =>
          rbind (stoi line) (fun id =>
          rbind (entries_from lines' None) (fun es => Ret ((token, id) :: es)))
      end
  end.

Definition vocab_entries (file : option (list Z)) : res (list (list Z * Z)) :=
  entries_from (getlines file) None.

(** The value of the first entry with key [k]. *)
Fixpoint first_with `{EqDecision K} {V} (k : K) (es : list (K * V)) : option V :=
  match es with
  | [] => None
  | (k', v) :: es' => if decide (k' = k) then Some v else first_with k es'
  end.

Definition swap {A B} (p : A * B) : B * A := (snd p, fst p).

(** The lines of a text file given as string literals. *)
Definition file_of_lines (ls : list string) : list Z :=
  concat (map (fun l => str l ++ [10]) ls).

(** ** Reference algorithm: greedy pair merging that rebuilds the pair list *)

(** The adjacent pairs of a symbol sequence. *)
Fixpoint adjacent (l : list (list Z)) : list (list Z * list Z) :=
  match l with
  | a :: l' => match l' with
               | b :: _ => (a, b) :: adjacent l'
               | [] => []
               end
  | [] => []
  end.

(** Position and rank of the leftmost pair of least rank; pairs without a
    rule are never chosen. *)
Fixpoint best_pair (ranks : gmap (list Z * list Z) Z) (ps : list (list Z * list Z))
    : option (nat * Z) :=
  match ps with
  | [] => None
  | p :: ps' =>
      match ranks !! p, best_pair ranks ps' with
      | Some r, Some (k, r') => if r <=? r' then Some (O, r) else Some (S k, r')
      | Some r, None => Some (O, r)
      | None, Some (k, r') => Some (S k, r')
      | None, None => None
      end
  end.

(** Replace the symbols at positions [k] and [k + 1] by their concatenation. *)
Fixpoint merge_at (k : nat) (l : list (list Z)) : list (list Z) :=
  match k, l with
  | O, a :: b :: l' => (a ++ b) :: l'
  | S k', a :: l' => a :: merge_at k' l'
  | _, _ => l
  end.

Fixpoint naive_loop (fuel : nat) (ranks : gmap (list Z * list Z) Z) (l : list (list Z))
    : list (list Z) :=
  match fuel with
  | O => l
  | S fuel' =>
      match best_pair ranks (adjacent l) with
      | None => l
      | Some (k, _) => naive_loop fuel' ranks (merge_at k l)
      end
  end.

(** Every merge shortens the sequence by one, so [length l] rounds are enough
    (see [naive_bpe_final]). *)
Definition naive_bpe (ranks : gmap (list Z * list Z) Z) (l : list (list Z)) : list (list Z) :=
  naive_loop (length l) ranks l.

(** One symbol per codepoint. *)
Definition symbols_of (token : list Z) : list (list Z) := map (fun c => [c]) token.

(** Every rank of the table is below the sentinel of the selection loop. *)
Definition ranks_below_sentinel (ranks : gmap (list Z * list Z) Z) : Prop :=
  forall p r, ranks !! p = Some r -> r < SSIZE_MAX.

(** ** The state of the merge loop, seen abstractly *)

Definition score (ranks : gmap (list Z * list Z) Z) (p : list Z * list Z) : Z :=
  match ranks !! p with Some r => r | None => SSIZE_MAX end.

(** The slots not merged yet, with their indices; [ps] are the slots from
    index [i] on. *)
Fixpoint slots (ps : list (list Z * list Z)) (i : Z) (merged : gset Z)
    : list (Z * (list Z * list Z)) :=
  match ps with
  | [] => []
  | p :: ps' =>
      if decide (i ∈ merged) then slots ps' (i + 1) merged
      else (i, p) :: slots ps' (i + 1) merged
  end.

Definition view (ps : list (list Z * list Z)) (merged : gset Z) : list (list Z * list Z) :=
  map snd (slots ps 0 merged).

(** The symbol sequence a list of live slots stands for. *)
Definition syms_of (v : list (list Z * list Z)) : list (list Z) :=
  match v with
  | [] => []
  | p :: _ => fst p :: map snd v
  end.

(** Neighbouring live slots share the symbol between them. *)
Fixpoint chain (v : list (list Z * list Z)) : Prop :=
  match v with
  | p :: v' => match v' with
               | q :: _ => snd p = fst q /\ chain v'
               | [] => True
               end
  | [] => True
  end.

(** The selection loop only looks at the live slots. *)
Fixpoint select_list (ranks : gmap (list Z * list Z) Z) (v : list (Z * (list Z * list Z)))
    (minScore toMerge : Z) : Z * Z :=
  match v with
  | [] => (minScore, toMerge)
  | (i, p) :: v' =>
      if score ranks p <? minScore then select_list ranks v' (score ranks p) i
      else select_list ranks v' minScore toMerge
  end.

Definition alter_first {A} (f : A -> A) (v : list A) : list A :=
  match v with
  | [] => []
  | q :: v' => f q :: v'
  end.

Fixpoint alter_last {A} (f : A -> A) (v : list A) : list A :=
  match v with
  | [] => []
  | q :: v' => match v' with
               | [] => [f q]
               | _ :: _ => q :: alter_last f v'
               end
  end.

(** The symbol sequence the state of the merge loop stands for: the symbols
    of the live slots, or the whole token once every slot is merged. *)
Definition abs_syms (token : list Z) (pairs : list (list Z * list Z)) (merged : gset Z)
    : list (list Z) :=
  match view pairs merged with
  | [] => [token]
  | v => syms_of v
  end.

(** No two live slots share the least rank: for live slots [i] and [j] whose
    pairs both have rank [r], with [r] the least score of a live slot,
    [i = j]. *)
Definition no_ties (ranks : gmap (list Z * list Z) Z) (pairs : list (list Z * list Z))
    (merged : gset Z) : Prop :=
  forall (i j : nat) p q r,
    pairs !! i = Some p -> pairs !! j = Some q ->
    Z.of_nat i ∉ merged -> Z.of_nat j ∉ merged ->
    ranks !! p = Some r -> ranks !! q = Some r ->
    (forall (k : nat) x, pairs !! k = Some x -> Z.of_nat k ∉ merged -> r <= score ranks x) ->
    i = j.

(** A small tokenizer used to instantiate the statements: four merge rules
    and a vocabulary that covers the examples. *)
Definition demo_merges : list Z :=
  file_of_lines ["#version: 0.2"; "l l"; "H e"; "ll o"; "o r"; "a b"]%string.
Definition demo_vocab : list Z :=
  file_of_lines ["He"; "1"; "llo"; "2"; "<|endoftext|>"; "3"; "W"; "4"; "or"; "5";
                 "l"; "6"; "d"; "7"; "a"; "8"; "b"; "9"; "_"; "10"; "ab"; "11"]%string.
Definition demo : BPE :=
  match BPE_new (Some demo_merges) (Some demo_vocab) with
  | Ret st => st
  | _ => mkBPE ∅ ∅ ∅ ∅ ∅
  end.

(** What the merge loop maintains: merged indices are slot indices,
    neighbouring live slots agree on the symbol between them, and the symbols
    spell the token. *)
Definition merge_inv (token : list Z) (pairs : list (list Z * list Z)) (merged : gset Z)
    : Prop :=
  (forall x, x ∈ merged -> 0 <= x < Z.of_nat (length pairs)) /\
  chain (view pairs merged) /\
  (view pairs merged <> [] -> concat (syms_of (view pairs merged)) = token).

(** A matcher that, when it matches, splits a non-empty match off the front. *)
Definition splits_front (a : list Z -> option (list Z * list Z)) : Prop :=
  forall w m suffix, a w = Some (m, suffix) -> m <> [] /\ w = m ++ suffix.

(** ** Reference description of the pretokenizer and of [encode] *)

(** The pretokens of a text: the successive matches of the pattern. *)
Fixpoint pretokens_fuel (fuel : nat) (w : list Z) : list (list Z) :=
  match regex_search w with
  | None => []
  | Some (wtoken, suffix) =>
      match fuel with
      | O => []
      | S fuel' => wtoken :: pretokens_fuel fuel' suffix
      end
  end.

Definition pretokens (w : list Z) : list (list Z) := pretokens_fuel (length w) w.

(** The token strings of one pretoken: byte-mapped, merged, re-encoded. *)
Definition piece (st : BPE) (wtoken : list Z) : res (list (list Z)) :=
  eval (let* encodedToken := byteEncodeToken (wstringToUTF8 wtoken) in
        let* bpeTokens := bpe encodedToken [] in
        ret (map wstringToUTF8 bpeTokens)) st.

Fixpoint pieces (st : BPE) (wtokens : list (list Z)) : res (list (list Z)) :=
  match wtokens with
  | [] => Ret []
  | wtoken :: wtokens' =>
      rbind (piece st wtoken) (fun a =>
      rbind (pieces st wtokens') (fun b => Ret (a ++ b)))
  end.

(** Splitting a text on every occurrence of a marker, found left to right
    and not overlapping. *)
Fixpoint split_fuel (fuel : nat) (eot text : list Z) : list (list Z) :=
  match fuel with
  | O => [text]
  | S fuel' =>
      match find_from eot text 0 with
      | None => [text]
      | Some i => take i text :: split_fuel fuel' eot (drop (i + length eot) text)
      end
  end.

Definition split_on (eot text : list Z) : list (list Z) := split_fuel (length text) eot text.

(** Each segment tokenized on its own, the marker itself between them. *)
Fixpoint segment_tokens (st : BPE) (eot : list Z) (segments : list (list Z))
    : res (list (list Z)) :=
  match segments with
  | [] => Ret []
  | segment :: segments' =>
      rbind (eval (tokenize segment []) st) (fun a =>
        match segments' with
        | [] => Ret a
        | _ :: _ => rbind (segment_tokens st eot segments') (fun b => Ret (a ++ eot :: b))
        end)
  end.

Definition encode_spec (st : BPE) (text eot : list Z) : res (list Z) :=
  rbind (segment_tokens st eot (split_on eot text)) (fun tokens => eval (lookup_ids tokens) st).

(** The segments put back together around the marker. *)
Fixpoint join (eot : list Z) (segments : list (list Z)) : list Z :=
  match segments with
  | [] => []
  | segment :: segments' =>
      match segments' with
      | [] => segment
      | _ :: _ => segment ++ eot ++ join eot segments'
      end
  end.

(** ** Conditions of the round trip *)

(** The alphabet maps are the ones [bytesToUnicode] builds. *)
Definition alphabet_built (st : BPE) : Prop :=
  m_b2u st = m_b2u (bytesToUnicode st) /\ m_u2b st = m_u2b (bytesToUnicode st).

(** The two vocabulary maps agree: an id given to a token leads back to it. *)
Definition vocab_consistent (st : BPE) : Prop :=
  forall token id, m_t2i st !! token = Some id -> m_i2t st !! id = Some token.

(** The marker consists of printable ASCII characters, which the byte
    alphabet maps to themselves. *)
Definition marker_printable (eot : list Z) : Prop :=
  Forall (fun c => 33 <= c <= 126) eot.

(** The segment is UTF-8 that the codec reads and writes back unchanged, and
    the pretokenizer leaves none of its characters out. *)
Definition segment_covered (segment : list Z) : Prop :=
  exists w, utf8ToWString segment = Ret w /\
            wstringToUTF8 (concat (pretokens w)) = segment.

(** The token strings [tokens] are the UTF-8 form of a codepoint string that
    [m_u2b] maps back to the bytes [text]. *)
Definition decodes (tokens : list (list Z)) (text : list Z) : Prop :=
  exists W, concat tokens = wstringToUTF8 W /\
            Forall (fun c => 0 <= c < 2048) W /\
            Forall2 (fun c b => codepoint_table !! c = Some b /\ 0 <= b < 256) W text.

(** The check behind the two-byte case of the codec. *)
Definition check_utf8_small (c : Z) : bool :=
  if c <=? 0x7f then to_char c =? c
  else
    let b0 := to_char (Z.lor 0xc0 (Z.land (Z.shiftr c 6) 0x1f)) in
    let b1 := to_char (Z.lor 0x80 (Z.land c 0x3f)) in
    negb (b0 <=? 0x7f) && (b0 <=? 0xdf) &&
    (Z.lor (Z.shiftl (Z.land b0 0x1f) 6) (Z.land b1 0x3f) =? c).

Definition check_vocab (st : BPE) : bool :=
  forallb (fun e : list Z * Z =>
             match m_i2t st !! snd e with
             | Some token => bool_decide (token = fst e)
             | None => false
             end) (map_to_list (m_t2i st)).

(** ASCII text without the underscore. *)
Definition plain_ascii (text : list Z) : Prop :=
  Forall (fun c => 0 <= c <= 127 /\ c <> 95) text.

(** A matcher whose matches never contain the underscore. *)
Definition avoids_underscore (a : list Z -> option (list Z * list Z)) : Prop :=
  forall w m suffix, a w = Some (m, suffix) -> Forall (fun c => c <> 95) m.

(** The five loaded tables of two objects agree. *)
Definition same_tables (st st' : BPE) : Prop :=
  m_bpeRanks st' = m_bpeRanks st /\ m_b2u st' = m_b2u st /\ m_u2b st' = m_u2b st /\
  m_t2i st' = m_t2i st /\ m_i2t st' = m_i2t st.

(** ** Reference description of the merges file *)

(** The rule a line states: the two halves of [split_rule], each read by
    [utf8ToWString], the left one first. *)
Definition parse_rule (line : list Z) : res (list Z * list Z) :=
  rbind (utf8ToWString (fst (split_rule line))) (fun l =>
  rbind (utf8ToWString (snd (split_rule line))) (fun r => Ret (l, r))).

Fixpoint parse_rules (lines : list (list Z)) : res (list (list Z * list Z)) :=
  match lines with
  | [] => Ret []
  | line :: lines' =>
      rbind (parse_rule line) (fun p =>
      rbind (parse_rules lines') (fun ps => Ret (p :: ps)))
  end.

(** The rules with their ranks: consecutive numbers from [n] on. *)
Definition ranked (ps : list (list Z * list Z)) (n : Z) : list ((list Z * list Z) * Z) :=
  zip ps (seqZ n (Z.of_nat (length ps))).

(** ** [pairWStringHasher] *)

(** The functor over [std::hash<std::wstring>], which is the library's and is
    left open here; [size_t] values are integers. *)
Definition pairWStringHasher (hash : list Z -> Z) (p : list Z * list Z) : Z :=
  let hash1 := hash (fst p) in
  let hash2 := hash (snd p) in
  if negb (hash1 =? hash2) then Z.lxor hash1 hash2 else hash1.

(** ** [main]: the command line and the generation loop (main.cpp) *)

Inductive ModelConfigType :=
  | OPENAI_124M
  | OPENAI_355M
  | OPENAI_774M
  | OPENAI_1558M.

(** [static_cast<size_t>(modelType)]. *)
Definition model_index (t : ModelConfigType) : nat :=
  match t with
  | OPENAI_124M => 0
  | OPENAI_355M => 1
  | OPENAI_774M => 2
  | OPENAI_1558M => 3
  end.

Record CmdLineOptions := mkCmdLineOptions {
  prompt : list Z;
  modelType : ModelConfigType
}.

(** [processCommandLineArguments] from the point where [docopt] has handed
    over the values of [--prompt] and [--model]; both exceptions thrown in
    the [try] block end in [exit(-1)], which is [None] here. *)
Definition processCommandLineArguments (promptArg modelArg : list Z) : option CmdLineOptions :=
  if bool_decide (promptArg = []) then None
  else if bool_decide (modelArg = str "124M") then Some (mkCmdLineOptions promptArg OPENAI_124M)
  else if bool_decide (modelArg = str "355M") then Some (mkCmdLineOptions promptArg OPENAI_355M)
  else if bool_decide (modelArg = str "774M") then Some (mkCmdLineOptions promptArg OPENAI_774M)
  else if bool_decide (modelArg = str "1558M") then Some (mkCmdLineOptions promptArg OPENAI_1558M)
  else None.

Record HParams := mkHParams {
  nVocab : Z;
  nCtx : Z;
  nEmbd : Z;
  nHeads : Z;
  nLayers : Z
}.

Definition modelParams : list HParams :=
  [ mkHParams 50257 1024 768 12 12;        (* 124M *)
    mkHParams 50257 1024 1024 16 24;       (* 355M *)
    mkHParams 50257 1024 1280 20 36;       (* 774M *)
    mkHParams 50257 1024 1600 25 48 ].     (* 1558M *)

Definition modelWeightsFilenames : list (list Z) :=
  [ str "Resources/GPT2/oaiWeights124M.bin";
    str "Resources/GPT2/oaiWeights355M.bin";
    str "Resources/GPT2/oaiWeights774M.bin";
    str "Resources/GPT2/oaiWeights1558M.bin" ].

(** The auto-regressive loop of [main].  The model ([model.forward] followed
    by [aix::argmax] on the last row) belongs to the tensor library and is
    left open: [predict] gives the next id for the ids so far, or the
    exception the library raises.  [n] counts the passes the [for] loop still
    has; [printed] is what has been written to [std::cout]. *)
Fixpoint generate_loop (predict : list Z -> res Z) (nCtx : nat) (n : nat)
    (inputTokenIds printed : list Z) : M (list Z * list Z) :=
  match n with
  | O => ret (inputTokenIds, printed)
  | S n' =>
      if (nCtx <=? length inputTokenIds)%nat then ret (inputTokenIds, printed)
      else
        let* nextTokenId := lift (predict inputTokenIds) in
        let* text := decode [nextTokenId] in
        generate_loop predict nCtx n' (inputTokenIds ++ [nextTokenId]) (printed ++ text)
  end.

Definition generate (predict : list Z -> res Z) (nCtx : nat) (inputTokenIds : list Z)
    : M (list Z * list Z) :=
  generate_loop predict nCtx nCtx inputTokenIds [].

(** A vocabulary for the two token strings of the byte-mapped [é]: the
    bytes [C3] and [A9] are mapped to U+00C3 and U+00A9, whose UTF-8 forms
    are [C3 83] and [C2 A9]. *)
Definition accent_vocab : list Z := [0xC3; 0x83; 10; 49; 10; 0xC2; 0xA9; 10; 50; 10].
Definition accent_tokenizer : BPE :=
  match BPE_new None (Some accent_vocab) with
  | Ret st => st
  | _ => mkBPE ∅ ∅ ∅ ∅ ∅
  end.

(** ** [main]: start-up, from the command line to the tokenizer (main.cpp:127-149) *)

(** A path as [main] finds it: absent; present but impossible to open for
    reading; present and readable; or of a status that cannot be determined,
    in which case [std::filesystem::exists] throws
    [std::filesystem::filesystem_error]. *)
Inductive file_state :=
  | Missing
  | Unreadable
  | Readable (content : list Z)
  | Undetermined.

(** [std::filesystem::exists(path)]; [None] when it throws. *)
Definition exists_file (f : file_state) : option bool :=
  match f with
  | Missing => Some false
  | Unreadable => Some true
  | Readable _ => Some true
  | Undetermined => None
  end.

(** What a [std::fstream] opened on the path delivers. *)
Definition open_in (f : file_state) : option (list Z) :=
  match f with Readable c => Some c | _ => None end.

(** How the start-up ends: in [exit(code)], in an exception that leaves
    [main] before the tokenizer is constructed, or in the construction, with
    its outcome. *)
Inductive startup_result :=
  | Exited (code : Z)
  | Uncaught (e : exn)
  | Constructed (r : res BPE).

(** [validateFileExistence(filePath)], followed by the rest [k] of [main]. *)
Definition validateFileExistence (f : file_state) (k : startup_result) : startup_result :=
  match exists_file f with
  | None => Uncaught FilesystemError
  | Some false => Exited (-1)
  | Some true => k
  end.

Definition bpeMergeFile : list Z := str "Resources/GPT2/oaiBPEMergeRules.txt".
Definition bpeVocabFile : list Z := str "Resources/GPT2/oaiBPEVocabs.txt".

(** [main] up to [BPE bpe(bpeMergeFile, bpeVocabFile)], over the values
    [docopt] has delivered and the file system [fs]: the command line, the
    two table accesses by model type ([operator[]], undefined outside the
    vector), the three existence tests, the construction. *)
Definition startup (promptArg modelArg : list Z) (fs : list Z -> file_state) : startup_result :=
  match processCommandLineArguments promptArg modelArg with
  | None => Exited (-1)
  | Some cmdLineOptions =>
      let modelType := model_index (modelType cmdLineOptions) in
      match modelParams !! modelType, modelWeightsFilenames !! modelType with
      | Some hParams, Some modelFile =>
          validateFileExistence (fs bpeMergeFile) (
          validateFileExistence (fs bpeVocabFile) (
          validateFileExistence (fs modelFile) (
          Constructed (BPE_new (open_in (fs bpeMergeFile)) (open_in (fs bpeVocabFile))))))
      | _, _ => Uncaught UndefinedRead
      end
  end.

(** * Properties *)

(** ** The monad *)

Lemma readonly_ret {A} (a : A) : readonly (ret a).
Proof. by intros st. Qed.

Lemma readonly_throw {A} e : readonly (@throw A e).
Proof. by intros st. Qed.

Lemma readonly_out_of_fuel {A} : readonly (@out_of_fuel A).
Proof. by intros st. Qed.

Lemma readonly_lift {A} (r : res A) : readonly (lift r).
Proof. by intros st. Qed.

Lemma readonly_gets {A} (f : BPE -> A) : readonly (gets f).
Proof. by intros st. Qed.

Lemma readonly_bind {A B} (m : M A) (k : A -> M B) :
  readonly m -> (forall a, readonly (k a)) -> readonly (bind m k).
Proof.
  intros Hm Hk st. unfold bind. specialize (Hm st).
  destruct (m st) as [[a|e|] st']; simpl in *; subst; auto. apply Hk.
Qed.

Lemma readonly_umap_at `{Countable K} {V} (tbl : BPE -> gmap K V) k :
  readonly (umap_at tbl k).
Proof.
  intros st. unfold umap_at, bind, gets. simpl. by destruct (tbl st !! k).
Qed.

Lemma readonly_run {A} (m : M A) st : readonly m -> m st = (eval m st, st).
Proof. intros Hm. unfold eval. specialize (Hm st). by destruct (m st); simpl in *; subst. Qed.

Lemma eval_bind {A B} (m : M A) (k : A -> M B) st :
  readonly m -> eval (bind m k) st = rbind (eval m st) (fun a => eval (k a) st).
Proof.
  intros Hm. unfold eval at 1, bind. rewrite (readonly_run m st Hm).
  by destruct (eval m st).
Qed.

Lemma eval_ret {A} (a : A) st : eval (ret a) st = Ret a.
Proof. done. Qed.

Lemma eval_lift {A} (r : res A) st : eval (lift r) st = r.
Proof. done. Qed.

Lemma eval_umap_at `{Countable K} {V} (tbl : BPE -> gmap K V) k st :
  eval (umap_at tbl k) st = match tbl st !! k with Some v => Ret v | None => Exc OutOfRange end.
Proof. unfold eval, umap_at, bind, gets. simpl. by destruct (tbl st !! k). Qed.

Create HintDb ro discriminated.
#[local] Hint Resolve readonly_ret readonly_throw readonly_out_of_fuel readonly_lift
  readonly_gets readonly_umap_at : ro.

Ltac ro_step :=
  match goal with
  | |- readonly (bind _ _) => apply readonly_bind; [ | intros ? ]
  | |- readonly (if ?b then _ else _) => destruct b
  | |- readonly (match ?x with _ => _ end) => destruct x
  | |- readonly _ => solve [ eauto with ro ]
  end.
Ltac ro := repeat ro_step.

(** ** Read-only member functions *)

Lemma readonly_byteEncodeToken token : readonly (byteEncodeToken token).
Proof. induction token; simpl; ro. Qed.

Lemma readonly_select_loop ps : forall i merged minScore toMerge,
  readonly (select_loop ps i merged minScore toMerge).
Proof. induction ps; intros; simpl; ro. Qed.

Lemma readonly_vector_at {A} (v : list A) i : readonly (vector_at v i).
Proof. unfold vector_at. ro. Qed.

#[local] Hint Resolve readonly_byteEncodeToken readonly_select_loop readonly_vector_at : ro.

Lemma readonly_merge_loop fuel : forall pairs merged, readonly (merge_loop fuel pairs merged).
Proof. induction fuel; intros; simpl; ro. Qed.
#[local] Hint Resolve readonly_merge_loop : ro.

Lemma readonly_bpe token result : readonly (bpe token result).
Proof. unfold bpe. ro. Qed.
#[local] Hint Resolve readonly_bpe : ro.

Lemma readonly_tokenize_loop fuel : forall w result, readonly (tokenize_loop fuel w result).
Proof.
  induction fuel; intros; simpl; ro.
Qed.
#[local] Hint Resolve readonly_tokenize_loop : ro.

Lemma readonly_tokenize text result : readonly (tokenize text result).
Proof. unfold tokenize. ro. Qed.
#[local] Hint Resolve readonly_tokenize : ro.

Lemma readonly_encode_loop fuel text eot : forall s i tokens,
  readonly (encode_loop fuel text eot s i tokens).
Proof. induction fuel; intros; simpl; ro. Qed.

Lemma readonly_lookup_ids tokens : readonly (lookup_ids tokens).
Proof. induction tokens; simpl; ro. Qed.
#[local] Hint Resolve readonly_encode_loop readonly_lookup_ids : ro.

Lemma readonly_encode fuel text eot : readonly (encode fuel text eot).
Proof. unfold encode. ro. Qed.

Lemma readonly_decode_concat ids : forall s, readonly (decode_concat ids s).
Proof. induction ids; intros; simpl; ro. Qed.

Lemma readonly_decode_bytes w : forall text, readonly (decode_bytes w text).
Proof. induction w; intros; simpl; ro. Qed.
#[local] Hint Resolve readonly_decode_concat readonly_decode_bytes : ro.

Lemma readonly_decode ids : readonly (decode ids).
Proof. unfold decode. ro. Qed.
#[local] Hint Resolve readonly_encode readonly_decode : ro.

(** C9: [encode] and [decode] leave the merge-rank table, both byte maps and
    both vocabulary maps as they found them, whatever the outcome of the
    call (a result, an exception, or an exhausted budget). *)
Theorem encode_decode_frame (st : BPE) (fuel : nat) (text eot : list Z) (tokenIds : list Z) :
  same_tables st (snd (encode fuel text eot st)) /\
  same_tables st (snd (decode tokenIds st)).
Proof.
  rewrite (readonly_encode fuel text eot st), (readonly_decode tokenIds st).
  by unfold same_tables.
Qed.

(** ** [unordered_map::insert] *)

Lemma umap_insert_lookup `{Countable K} {V} (k k' : K) (v : V) (m : gmap K V) :
  umap_insert k v m !! k' =
  match m !! k' with Some x => Some x | None => if decide (k = k') then Some v else None end.
Proof.
  unfold umap_insert. destruct (m !! k) as [x|] eqn:Hk.
  - destruct (m !! k') eqn:Hk'; [done|]. case_decide; [congruence|done].
  - rewrite lookup_insert. case_decide; subst.
    + by rewrite Hk.
    + by destruct (m !! k').
Qed.

Lemma umap_insert_fold_lookup `{Countable K} {V} (es : list (K * V)) : forall (m : gmap K V) k,
  foldl (fun m e => umap_insert (fst e) (snd e) m) m es !! k =
  match m !! k with Some x => Some x | None => first_with k es end.
Proof.
  induction es as [|[k0 v0] es IH]; intros m k; simpl.
  - by destruct (m !! k).
  - rewrite IH, umap_insert_lookup. destruct (m !! k); [done|]. by case_decide.
Qed.

(** ** The byte/codepoint alphabet *)

Lemma bytesToUnicode_b2u st : m_b2u (bytesToUnicode st) = byte_table.
Proof. vm_compute. reflexivity. Qed.

Lemma bytesToUnicode_u2b st : m_u2b (bytesToUnicode st) = codepoint_table.
Proof. vm_compute. reflexivity. Qed.

Lemma byte_table_checked :
  forallb (check_byte byte_table codepoint_table) (seqZ 0 256) = true.
Proof. vm_compute. reflexivity. Qed.

Lemma codepoint_table_checked :
  forallb (check_codepoint byte_table codepoint_table) (map_to_list codepoint_table) = true.
Proof. vm_compute. reflexivity. Qed.

Lemma byte_table_dom_checked :
  forallb (fun e : Z * Z => (0 <=? fst e) && (fst e <? 256)) (map_to_list byte_table) = true.
Proof. vm_compute. reflexivity. Qed.

Lemma byte_table_lookup b :
  0 <= b < 256 ->
  exists c, byte_table !! b = Some c /\ codepoint_table !! c = Some b /\
            c = expected_codepoint b.
Proof.
  intros Hb.
  assert (Hin : In b (seqZ 0 256)).
  { apply list_elem_of_In, elem_of_seqZ. lia. }
  pose proof (proj1 (forallb_forall _ _) byte_table_checked b Hin) as Hc.
  unfold check_byte in Hc.
  destruct (byte_table !! b) as [c|]; [|done].
  apply andb_true_iff in Hc as [Hc1 Hc2].
  destruct (codepoint_table !! c) as [b'|] eqn:Hu; [|done].
  apply Z.eqb_eq in Hc1, Hc2. subst. eauto.
Qed.

Lemma codepoint_table_lookup c b :
  codepoint_table !! c = Some b -> 0 <= b < 256 /\ byte_table !! b = Some c.
Proof.
  intros Hc.
  assert (Hin : In (c, b) (map_to_list codepoint_table)).
  { apply list_elem_of_In. by apply elem_of_map_to_list. }
  pose proof (proj1 (forallb_forall _ _) codepoint_table_checked _ Hin) as Hk.
  unfold check_codepoint in Hk. simpl in Hk.
  apply andb_true_iff in Hk as [Hk1 Hk2]. apply andb_true_iff in Hk1 as [Hk0 Hk1].
  destruct (byte_table !! b) as [c'|]; [|done].
  apply Z.eqb_eq in Hk2. subst. split; [lia|done].
Qed.

Lemma byte_table_dom b c : byte_table !! b = Some c -> 0 <= b < 256.
Proof.
  intros Hb.
  assert (Hin : In (b, c) (map_to_list byte_table)).
  { apply list_elem_of_In. by apply elem_of_map_to_list. }
  pose proof (proj1 (forallb_forall _ _) byte_table_dom_checked _ Hin) as Hk.
  simpl in Hk. lia.
Qed.

Lemma first_with_elem `{EqDecision K} {V} (k : K) (v : V) (l : list (K * V)) :
  NoDup (map fst l) -> first_with k l = Some v <-> (k, v) ∈ l.
Proof.
  induction l as [|[k0 v0] l IH]; simpl; intros Hnd.
  - split; [done|]. intros Hin. by apply elem_of_nil in Hin.
  - apply NoDup_cons in Hnd as [Hk0 Hnd]. rewrite elem_of_cons. case_decide as Hk.
    + subst k0. split.
      * intros [= ->]. by left.
      * intros [[= ->]|Hin]; [done|]. exfalso. apply Hk0.
        apply list_elem_of_fmap. by exists (k, v).
    + rewrite (IH Hnd). split; [by right|]. intros [[= -> _]|Hin]; done.
Qed.

Lemma invert_entries_lookup es c :
  invert_entries es !! c = first_with c (map swap es).
Proof.
  unfold invert_entries.
  assert (Hgen : forall u : gmap Z Z,
            foldl (fun u e => umap_insert (snd e) (fst e) u) u es =
            foldl (fun u e => umap_insert (fst e) (snd e) u) u (map swap es)).
  { induction es as [|e es IH]; intros u; simpl; [done|]. apply IH. }
  by rewrite Hgen, umap_insert_fold_lookup, lookup_empty.
Qed.

Lemma byte_table_values_distinct : NoDup (map snd (map_to_list byte_table)).
Proof. apply (bool_decide_unpack _). vm_compute. exact I. Qed.

(** The walk over [m_b2u] may visit the entries in any order. *)
Lemma invert_entries_any_order es :
  es ≡ₚ map_to_list byte_table -> invert_entries es = codepoint_table.
Proof.
  intros Hperm. apply map_eq. intros c.
  assert (Hswap : forall l : list (Z * Z), map fst (map swap l) = map snd l).
  { intros l. rewrite map_map. by apply map_ext. }
  assert (Hnd : NoDup (map fst (map swap es))).
  { rewrite Hswap, Hperm. apply byte_table_values_distinct. }
  assert (Hnd' : NoDup (map fst (map swap (map_to_list byte_table)))).
  { rewrite Hswap. apply byte_table_values_distinct. }
  transitivity (invert_entries (map_to_list byte_table) !! c); [|by vm_compute].
  rewrite !invert_entries_lookup.
  destruct (first_with c (map swap es)) as [b|] eqn:H1.
  - apply (first_with_elem _ _ _ Hnd) in H1. symmetry.
    apply (first_with_elem _ _ _ Hnd'). by rewrite <- Hperm.
  - destruct (first_with c (map swap (map_to_list byte_table))) as [b|] eqn:H2; [|done].
    apply (first_with_elem _ _ _ Hnd') in H2. rewrite <- Hperm in H2.
    apply (first_with_elem _ _ _ Hnd) in H2. congruence.
Qed.

(** C7: after [bytesToUnicode], [m_b2u] is defined on exactly the 256 byte
    values and [m_u2b] on exactly their 256 images; [m_u2b] undoes [m_b2u]
    and conversely; distinct bytes get distinct codepoints; a byte of the
    printable ranges is mapped to itself and the others, in ascending order,
    to 256, 257, ...; and [m_u2b] does not depend on the order in which the
    entries of [m_b2u] are walked. *)
Theorem bytesToUnicode_bijection (st : BPE) :
  let b2u := m_b2u (bytesToUnicode st) in
  let u2b := m_u2b (bytesToUnicode st) in
  (forall b, 0 <= b < 256 ->
     exists c, b2u !! b = Some c /\ u2b !! c = Some b /\ c = expected_codepoint b) /\
  (forall c b, u2b !! c = Some b -> 0 <= b < 256 /\ b2u !! b = Some c) /\
  (forall b c, b2u !! b = Some c -> 0 <= b < 256) /\
  (forall b1 b2 c, b2u !! b1 = Some c -> b2u !! b2 = Some c -> b1 = b2) /\
  size b2u = 256%nat /\ size u2b = 256%nat /\
  (forall es, es ≡ₚ map_to_list b2u -> invert_entries es = u2b).
Proof.
  cbv zeta. rewrite bytesToUnicode_b2u, bytesToUnicode_u2b.
  split; [exact byte_table_lookup|].
  split; [exact codepoint_table_lookup|].
  split; [exact byte_table_dom|].
  split; [|split; [|split]]; [|vm_compute; reflexivity..|exact invert_entries_any_order].
  intros b1 b2 c H1 H2.
  destruct (byte_table_lookup b1 (byte_table_dom _ _ H1)) as (c1 & E1 & U1 & _).
  destruct (byte_table_lookup b2 (byte_table_dom _ _ H2)) as (c2 & E2 & U2 & _).
  congruence.
Qed.

Lemma bytesToUnicode_bijection_witness :
  exists c, m_b2u (bytesToUnicode (mkBPE ∅ ∅ ∅ ∅ ∅)) !! 10 = Some c /\
            m_u2b (bytesToUnicode (mkBPE ∅ ∅ ∅ ∅ ∅)) !! c = Some 10 /\
            c = expected_codepoint 10.
Proof.
  apply (proj1 (bytesToUnicode_bijection (mkBPE ∅ ∅ ∅ ∅ ∅)) 10). lia.
Defined.

(** ** The table loaders *)

Lemma parity_succ n : ((n + 1) mod 2 =? 0) = negb (n mod 2 =? 0).
Proof.
  destruct (Z.eqb_spec (n mod 2) 0), (Z.eqb_spec ((n + 1) mod 2) 0); simpl; auto;
    exfalso; Z.div_mod_to_equations; lia.
Qed.

Lemma loadVocab_loop_spec lines : forall token n st,
  let pending := if n mod 2 =? 0 then None else Some token in
  fst (loadVocab_loop lines token n st) = rbind (entries_from lines pending) (fun _ => Ret tt) /\
  forall es, entries_from lines pending = Ret es ->
    snd (loadVocab_loop lines token n st) =
      mkBPE (m_bpeRanks st) (m_b2u st) (m_u2b st)
        (foldl (fun m e => umap_insert (fst e) (snd e) m) (m_t2i st) es)
        (foldl (fun m e => umap_insert (fst e) (snd e) m) (m_i2t st) (map swap es)).
Proof.
  induction lines as [|line lines IH]; intros token n st; simpl.
  - split; [done|]. intros es [= <-]. by destruct st.
  - pose proof (parity_succ n) as Hpar.
    destruct (n mod 2 =? 0) eqn:Hn.
    + specialize (IH line (n + 1) st). rewrite Hpar in IH. exact IH.
    + unfold bind at 1 3, lift. destruct (stoi line) as [id|e|] eqn:Hs; simpl; [|done..].
      unfold bind, modify; simpl.
      specialize (IH token (n + 1) (set_i2t (umap_insert id token) (set_t2i (umap_insert token id) st))).
      rewrite Hpar in IH. simpl in IH. destruct IH as [IH1 IH2]. rewrite IH1.
      destruct (entries_from lines None) as [es|e|]; simpl; split; try done.
      intros es' [= <-]. by rewrite (IH2 es).
Qed.

(** C3, as the code has it: [loadVocab] fills each table with
    [unordered_map::insert], which leaves an existing key alone; so when a
    token string occurs more than once the token-to-id table keeps the id of
    its first occurrence, and when an id occurs more than once the
    id-to-token table keeps the token of its first occurrence. *)
Theorem loadVocab_keeps_first (file : option (list Z)) (st st' : BPE) :
  loadVocab file st = (Ret tt, st') ->
  exists es, vocab_entries file = Ret es /\
    (forall token, m_t2i st' !! token = first_with token es) /\
    (forall id, m_i2t st' !! id = first_with id (map swap es)).
Proof.
  unfold loadVocab, vocab_entries. unfold bind at 1, modify; simpl.
  unfold bind at 1; simpl. intros Hload.
  destruct (loadVocab_loop_spec (getlines file) [] 0
              (set_i2t (fun _ => ∅) (set_t2i (fun _ => ∅) st))) as [H1 H2].
  simpl in H1, H2. rewrite Hload in H1, H2. simpl in H1, H2.
  destruct (entries_from (getlines file) None) as [es|e|]; try done.
  exists es. split; [done|]. rewrite (H2 es eq_refl). simpl.
  split; intros k; by rewrite umap_insert_fold_lookup, lookup_empty.
Qed.

Lemma loadVocab_keeps_first_witness :
  exists es, vocab_entries (Some (file_of_lines ["a"; "1"; "a"; "2"; "b"; "1"]%string)) = Ret es /\
    (forall token, m_t2i (snd (loadVocab (Some (file_of_lines ["a"; "1"; "a"; "2"; "b"; "1"]%string))
                                 (mkBPE ∅ ∅ ∅ ∅ ∅))) !! token = first_with token es) /\
    (forall id, m_i2t (snd (loadVocab (Some (file_of_lines ["a"; "1"; "a"; "2"; "b"; "1"]%string))
                              (mkBPE ∅ ∅ ∅ ∅ ∅))) !! id = first_with id (map swap es)).
Proof.
  apply (loadVocab_keeps_first _ (mkBPE ∅ ∅ ∅ ∅ ∅)). vm_compute. reflexivity.
Defined.

(** C3, as it is worded, fails: in a file with the lines [a 1 a 2 b 1] the
    later [a 2] does not replace [a 1] in the token-to-id table, and the later
    [b 1] does not replace [a 1] in the id-to-token table. *)
Lemma loadVocab_later_does_not_overwrite :
  let st' := snd (loadVocab (Some (file_of_lines ["a"; "1"; "a"; "2"; "b"; "1"]%string))
                    (mkBPE ∅ ∅ ∅ ∅ ∅)) in
  vocab_entries (Some (file_of_lines ["a"; "1"; "a"; "2"; "b"; "1"]%string))
    = Ret [(str "a", 1); (str "a", 2); (str "b", 1)] /\
  m_t2i st' !! str "a" = Some 1 /\ m_t2i st' !! str "a" <> Some 2 /\
  m_i2t st' !! 1 = Some (str "a") /\ m_i2t st' !! 1 <> Some (str "b").
Proof. vm_compute. repeat split; congruence. Qed.

Lemma loadMergeRules_unopened st :
  loadMergeRules None st = (Ret tt, set_bpeRanks (fun _ => ∅) st).
Proof. reflexivity. Qed.

Lemma loadVocab_unopened st :
  loadVocab None st = (Ret tt, set_i2t (fun _ => ∅) (set_t2i (fun _ => ∅) st)).
Proof. reflexivity. Qed.

Lemma accepted_model_file promptArg modelArg o :
  processCommandLineArguments promptArg modelArg = Some o ->
  exists hParams modelFile,
    modelParams !! model_index (modelType o) = Some hParams /\
    modelWeightsFilenames !! model_index (modelType o) = Some modelFile.
Proof.
  unfold processCommandLineArguments.
  repeat case_bool_decide; intros [= <-]; do 2 eexists; split; reflexivity.
Qed.

(** C4, as the code has it: neither loader tests whether its stream was
    opened.  A file that cannot be opened delivers no line, so the loader
    returns normally with its table empty, exactly as for an empty file, and
    the construction goes on; with both files unopened it succeeds with an
    empty merge-rank table and empty vocabulary maps.  What stops the
    program before the construction is in [main]: a refused command line,
    and the existence tests on the merges file, the vocabulary file and the
    weights file of the chosen model, each ending in [exit(-1)] for an
    absent file (and in an uncaught exception when the status of the path
    cannot be determined).  A file that exists and cannot be read passes its
    test: with the command line accepted, the three paths present and the
    two table files unreadable, the tokenizer is constructed with empty
    tables. *)
Theorem unopened_file_loads_as_empty :
  (forall st, loadMergeRules None st = (Ret tt, set_bpeRanks (fun _ => ∅) st)) /\
  (forall st, loadVocab None st = (Ret tt, set_i2t (fun _ => ∅) (set_t2i (fun _ => ∅) st))) /\
  (forall vocabsFile, BPE_new None vocabsFile = BPE_new (Some []) vocabsFile) /\
  (forall mergesFile, BPE_new mergesFile None = BPE_new mergesFile (Some [])) /\
  (exists st, BPE_new None None = Ret st /\
              m_bpeRanks st = ∅ /\ m_t2i st = ∅ /\ m_i2t st = ∅) /\
  (forall promptArg modelArg fs,
     processCommandLineArguments promptArg modelArg = None ->
     startup promptArg modelArg fs = Exited (-1)) /\
  (forall promptArg modelArg fs o modelFile,
     processCommandLineArguments promptArg modelArg = Some o ->
     modelWeightsFilenames !! model_index (modelType o) = Some modelFile ->
     (fs bpeMergeFile = Missing -> startup promptArg modelArg fs = Exited (-1)) /\
     (exists_file (fs bpeMergeFile) = Some true -> fs bpeVocabFile = Missing ->
      startup promptArg modelArg fs = Exited (-1)) /\
     (exists_file (fs bpeMergeFile) = Some true -> exists_file (fs bpeVocabFile) = Some true ->
      fs modelFile = Missing ->
      startup promptArg modelArg fs = Exited (-1)) /\
     (fs bpeMergeFile = Undetermined \/
      exists_file (fs bpeMergeFile) = Some true /\
        (fs bpeVocabFile = Undetermined \/
         exists_file (fs bpeVocabFile) = Some true /\ fs modelFile = Undetermined) ->
      startup promptArg modelArg fs = Uncaught FilesystemError) /\
     (exists_file (fs bpeMergeFile) = Some true -> exists_file (fs bpeVocabFile) = Some true ->
      exists_file (fs modelFile) = Some true ->
      startup promptArg modelArg fs =
        Constructed (BPE_new (open_in (fs bpeMergeFile)) (open_in (fs bpeVocabFile)))) /\
     (fs bpeMergeFile = Unreadable -> fs bpeVocabFile = Unreadable ->
      exists_file (fs modelFile) = Some true ->
      exists st, startup promptArg modelArg fs = Constructed (Ret st) /\
                 m_bpeRanks st = ∅ /\ m_t2i st = ∅ /\ m_i2t st = ∅)).
Proof.
  split; [exact loadMergeRules_unopened|].
  split; [exact loadVocab_unopened|].
  split; [done|]. split; [done|].
  split; [by eexists|].
  split.
  { intros promptArg modelArg fs Hcmd. unfold startup. by rewrite Hcmd. }
  intros promptArg modelArg fs o modelFile Hcmd Hfile.
  destruct (accepted_model_file _ _ _ Hcmd) as (hParams & modelFile' & Hparams & Hfile').
  assert (Hrun : startup promptArg modelArg fs =
            validateFileExistence (fs bpeMergeFile) (
            validateFileExistence (fs bpeVocabFile) (
            validateFileExistence (fs modelFile) (
            Constructed (BPE_new (open_in (fs bpeMergeFile)) (open_in (fs bpeVocabFile))))))).
  { unfold startup. rewrite Hcmd. cbv zeta. by rewrite Hparams, Hfile. }
  rewrite Hrun. unfold validateFileExistence. repeat split.
  - by intros ->.
  - by intros -> ->.
  - by intros -> -> ->.
  - intros [->|[-> [->|[-> ->]]]]; done.
  - by intros -> -> ->.
  - intros -> -> ->. cbn [exists_file open_in]. by eexists.
Qed.

Lemma unopened_file_loads_as_empty_witness :
  let fs := fun path : list Z =>
              if bool_decide (path = bpeMergeFile) then Unreadable
              else if bool_decide (path = bpeVocabFile) then Unreadable
              else Readable [] in
  exists st, startup (str "Hi") (str "124M") fs = Constructed (Ret st) /\
             m_bpeRanks st = ∅ /\ m_t2i st = ∅ /\ m_i2t st = ∅.
Proof.
  intros fs.
  apply (proj2 (proj2 (proj2 (proj2 (proj2 (proj2 unopened_file_loads_as_empty)))))
           (str "Hi") (str "124M") fs (mkCmdLineOptions (str "Hi") OPENAI_124M)
           (str "Resources/GPT2/oaiWeights124M.bin")).
  - vm_compute. reflexivity.
  - vm_compute. reflexivity.
  - vm_compute. reflexivity.
  - vm_compute. reflexivity.
  - vm_compute. reflexivity.
Defined.

(** C4, as it is worded, fails: with both files impossible to open the
    construction raises nothing and hands back an object whose merge-rank
    table is empty. *)
Lemma construction_without_files_succeeds :
  ~ (exists e, BPE_new None None = Exc e) /\
  (exists st, BPE_new None None = Ret st /\ m_bpeRanks st = ∅ /\ m_t2i st = ∅).
Proof.
  split.
  - intros [e He]. discriminate He.
  - by eexists.
Qed.

(** ** The pair merger *)

Section Scans.
Variable merged : gset Z.

Lemma left_scan_spec n : forall j,
  Z.of_nat n = j + 1 -> (-1) ∉ merged ->
  let l := left_scan (S n) j merged in
  -1 <= l <= j /\ (l ∉ merged) /\ (forall x, l < x <= j -> x ∈ merged).
Proof.
  induction n as [|n IH]; intros j Hn Hm1; simpl.
  - assert (j = -1) by lia. subst. rewrite decide_False by done.
    repeat split; try lia; try done; intros; lia.
  - destruct (decide (j ∈ merged)) as [Hj|Hj].
    + destruct (IH (j - 1)) as (H1 & H2 & H3); [lia|done|]. simpl in *.
      repeat split; try lia; try done.
      intros x Hx. destruct (decide (x = j)); [by subst|]. apply H3. lia.
    + repeat split; try lia; try done; intros; lia.
Qed.

Lemma left_spec i :
  0 <= i -> (-1) ∉ merged ->
  -1 <= left i merged < i /\ (left i merged ∉ merged) /\
  (forall x, left i merged < x < i -> x ∈ merged).
Proof.
  intros Hi Hm1. unfold left.
  replace (Z.to_nat (i + 1)) with (S (Z.to_nat i)) by lia.
  destruct (left_scan_spec (Z.to_nat i) (i - 1)) as (H1 & H2 & H3); [lia|done|].
  simpl in *. repeat split; try lia; try done. intros x Hx. apply H3. lia.
Qed.

Lemma right_scan_spec n : forall j cap,
  Z.of_nat n = cap - j ->
  let r := right_scan n j cap merged in
  j <= r <= cap /\ (r < cap -> r ∉ merged) /\ (forall x, j <= x < r -> x ∈ merged).
Proof.
  induction n as [|n IH]; intros j cap Hn; simpl.
  - repeat split; try lia; intros; lia.
  - destruct (decide (j ∈ merged)) as [Hj|Hj].
    + destruct (IH (j + 1) cap) as (H1 & H2 & H3); [lia|]. simpl in *.
      repeat split; try lia; try done.
      intros x Hx. destruct (decide (x = j)); [by subst|]. apply H3. lia.
    + repeat split; try lia; try done; intros; lia.
Qed.

Lemma right_spec i cap :
  i < cap ->
  i < right i cap merged <= cap /\ (right i cap merged < cap -> right i cap merged ∉ merged) /\
  (forall x, i < x < right i cap merged -> x ∈ merged).
Proof.
  intros Hi. unfold right.
  destruct (right_scan_spec (Z.to_nat (cap - (i + 1))) (i + 1) cap) as (H1 & H2 & H3); [lia|].
  simpl in *. repeat split; try lia; try done. intros x Hx. apply H3. lia.
Qed.
End Scans.

Lemma slots_app A : forall B i merged,
  slots (A ++ B) i merged = slots A i merged ++ slots B (i + Z.of_nat (length A)) merged.
Proof.
  induction A as [|a A IH]; intros B i merged; simpl.
  - by rewrite Z.add_0_r.
  - rewrite IH. replace (i + 1 + Z.of_nat (length A)) with (i + Z.pos (Pos.of_succ_nat (length A))) by lia.
    by case_decide.
Qed.

Lemma slots_nil A : forall i merged,
  (forall j, i <= j < i + Z.of_nat (length A) -> j ∈ merged) -> slots A i merged = [].
Proof.
  induction A as [|a A IH]; intros i merged Hall; simpl; [done|].
  rewrite decide_True by (apply Hall; simpl; lia).
  apply IH. intros j Hj. apply Hall. simpl. lia.
Qed.

Lemma slots_nil_inv A : forall i merged,
  slots A i merged = [] -> forall j, i <= j < i + Z.of_nat (length A) -> j ∈ merged.
Proof.
  induction A as [|a A IH]; intros i merged Hnil j Hj; simpl in *; [lia|].
  case_decide; [|done].
  destruct (decide (j = i)); [by subst|]. apply (IH (i + 1)); [done|lia].
Qed.

Lemma slots_insert_outside A : forall i t merged,
  t < i \/ i + Z.of_nat (length A) <= t ->
  slots A i ({[t]} ∪ merged) = slots A i merged.
Proof.
  induction A as [|a A IH]; intros i t merged Ht; simpl; [done|].
  simpl length in Ht. rewrite IH by lia.
  destruct (decide (i ∈ merged)).
  - rewrite decide_True; [done|]. apply elem_of_union. by right.
  - rewrite decide_False; [done|].
    rewrite elem_of_union, elem_of_singleton. intros [?|?]; [lia|done].
Qed.

Lemma slots_lookup_decomp ps : forall i merged k t p,
  slots ps i merged !! k = Some (t, p) ->
  exists A B, ps = A ++ p :: B /\ t = i + Z.of_nat (length A) /\ (t ∉ merged) /\
              length (slots A i merged) = k.
Proof.
  induction ps as [|q ps IH]; intros i merged k t p Hk; simpl in *; [done|].
  destruct (decide (i ∈ merged)) as [Hi|Hi].
  - destruct (IH _ _ _ _ _ Hk) as (A & B & -> & -> & Ht & Hlen).
    exists (q :: A), B. simpl. rewrite decide_True by done.
    repeat split; try done. lia.
  - destruct k as [|k]; simpl in Hk.
    + injection Hk as <- <-. exists [], ps. simpl. repeat split; try done. lia.
    + destruct (IH _ _ _ _ _ Hk) as (A & B & -> & -> & Ht & Hlen).
      exists (q :: A), B. simpl. rewrite decide_False by done.
      repeat split; try done; simpl; lia.
Qed.

Lemma select_loop_slots st ps : forall i merged minScore toMerge,
  eval (select_loop ps i merged minScore toMerge) st =
  Ret (select_list (m_bpeRanks st) (slots ps i merged) minScore toMerge).
Proof.
  induction ps as [|p ps IH]; intros i merged m0 t0; simpl; [done|].
  destruct (decide (i ∈ merged)); [apply IH|].
  rewrite eval_bind by auto with ro. simpl. fold (score (m_bpeRanks st) p).
  destruct (score (m_bpeRanks st) p <? m0); apply IH.
Qed.

Lemma select_list_best ranks v : forall m0 t0,
  ranks_below_sentinel ranks -> m0 <= SSIZE_MAX ->
  match best_pair ranks (map snd v) with
  | Some (k, r) =>
      if r <? m0
      then exists t p, v !! k = Some (t, p) /\ select_list ranks v m0 t0 = (r, t)
      else select_list ranks v m0 t0 = (m0, t0)
  | None => select_list ranks v m0 t0 = (m0, t0)
  end.
Proof.
  induction v as [|[i p] v IH]; intros m0 t0 Hr Hm0; simpl; [done|].
  unfold score. destruct (ranks !! p) as [r|] eqn:Hp.
  - pose proof (Hr _ _ Hp) as Hrlt.
    destruct (Z.ltb_spec r m0) as [Hlt|Hge].
    + specialize (IH r i Hr ltac:(lia)).
      destruct (best_pair ranks (map snd v)) as [[k r']|].
      * destruct (Z.leb_spec r r') as [Hle|Hgt].
        -- rewrite (proj2 (Z.ltb_lt r m0)) by done.
           rewrite (proj2 (Z.ltb_ge r' r)) in IH by done. eauto.
        -- rewrite (proj2 (Z.ltb_lt r' r)) in IH by done.
           rewrite (proj2 (Z.ltb_lt r' m0)) by lia.
           destruct IH as (t & q & Hk & Hs). eauto.
      * rewrite (proj2 (Z.ltb_lt r m0)) by done. eauto.
    + specialize (IH m0 t0 Hr Hm0).
      destruct (best_pair ranks (map snd v)) as [[k r']|].
      * destruct (Z.leb_spec r r') as [Hle|Hgt].
        -- rewrite (proj2 (Z.ltb_ge r m0)) by done.
           rewrite (proj2 (Z.ltb_ge r' m0)) in IH by lia. done.
        -- destruct (r' <? m0); [|done].
           destruct IH as (t & q & Hk & Hs). eauto.
      * rewrite (proj2 (Z.ltb_ge r m0)) by done. done.
  - rewrite (proj2 (Z.ltb_ge SSIZE_MAX m0)) by done.
    specialize (IH m0 t0 Hr Hm0).
    destruct (best_pair ranks (map snd v)) as [[k r']|]; [|done].
    destruct (r' <? m0); [|done].
    destruct IH as (t & q & Hk & Hs). eauto.
Qed.

Lemma best_pair_below ranks v k r :
  ranks_below_sentinel ranks -> best_pair ranks v = Some (k, r) -> r < SSIZE_MAX.
Proof.
  intros Hr. revert k r. induction v as [|p v IH]; intros k r; simpl; [done|].
  destruct (ranks !! p) as [r0|] eqn:Hp, (best_pair ranks v) as [[k' r']|]; try done.
  - destruct (r0 <=? r'); intros [= <- <-]; eauto.
  - intros [= <- <-]; eauto.
  - intros [= <- <-]; eauto.
Qed.

(** What the selection loop returns, in terms of the live slots. *)
Lemma select_loop_spec st pairs merged :
  ranks_below_sentinel (m_bpeRanks st) ->
  match best_pair (m_bpeRanks st) (view pairs merged) with
  | Some (k, r) =>
      exists A p B, pairs = A ++ p :: B /\
        (Z.of_nat (length A) ∉ merged) /\ length (slots A 0 merged) = k /\
        eval (select_loop pairs 0 merged SSIZE_MAX (-1)) st = Ret (r, Z.of_nat (length A))
  | None => eval (select_loop pairs 0 merged SSIZE_MAX (-1)) st = Ret (SSIZE_MAX, -1)
  end.
Proof.
  intros Hr. rewrite select_loop_slots. unfold view.
  pose proof (select_list_best (m_bpeRanks st) (slots pairs 0 merged) SSIZE_MAX (-1) Hr ltac:(lia)) as Hs.
  destruct (best_pair (m_bpeRanks st) (map snd (slots pairs 0 merged))) as [[k r]|] eqn:Hb.
  - rewrite (proj2 (Z.ltb_lt r SSIZE_MAX)) in Hs by eauto using best_pair_below.
    destruct Hs as (t & p & Hk & ->).
    destruct (slots_lookup_decomp _ _ _ _ _ _ Hk) as (A & B & -> & -> & Ht & Hlen).
    exists A, p, B. rewrite Z.add_0_l in *. done.
  - by rewrite Hs.
Qed.

Lemma alter_last_snoc {A} (f : A -> A) (v : list A) q : alter_last f (v ++ [q]) = v ++ [f q].
Proof.
  induction v as [|a v IH]; simpl; [done|].
  rewrite IH. destruct v; simpl; done.
Qed.

Lemma split_at {A} (l : list A) (k : nat) :
  (k < length l)%nat -> exists l1 q l2, l = l1 ++ q :: l2 /\ length l1 = k.
Proof.
  intros Hlt. destruct (lookup_lt_is_Some_2 l _ Hlt) as [q Hq].
  exists (take k l), q, (drop (S k) l). split.
  - by rewrite take_drop_middle.
  - rewrite length_take. lia.
Qed.

Lemma left_patch A merged (f : list Z * list Z -> list Z * list Z) :
  (-1) ∉ merged ->
  let l := left (Z.of_nat (length A)) merged in
  map snd (slots (if 0 <=? l then alter f (Z.to_nat l) A else A) 0 merged) =
  alter_last f (map snd (slots A 0 merged)).
Proof.
  intros Hm1 l.
  destruct (left_spec merged (Z.of_nat (length A)) ltac:(lia) Hm1) as (Hl1 & Hl2 & Hl3).
  fold l in Hl1, Hl2, Hl3. clearbody l.
  destruct (Z.leb_spec 0 l) as [Hl0|Hl0].
  - destruct (split_at A (Z.to_nat l) ltac:(lia)) as (A1 & q & A2 & -> & Hlen).
    replace (Z.to_nat l) with (length A1 + 0)%nat by lia.
    rewrite (alter_app_r f A1 (q :: A2) 0). simpl.
    rewrite !slots_app. simpl.
    replace (0 + Z.of_nat (length A1)) with l by lia.
    rewrite !decide_False by done.
    rewrite (slots_nil A2).
    + rewrite !map_app. simpl. by rewrite alter_last_snoc.
    + intros j Hj. apply Hl3. rewrite length_app in *. simpl in *. lia.
  - rewrite slots_nil; [done|]. intros j Hj. apply Hl3. lia.
Qed.

Lemma right_patch B i merged (f : list Z * list Z -> list Z * list Z) :
  let cap := i + 1 + Z.of_nat (length B) in
  let r := right i cap merged in
  map snd (slots (if r <? cap then alter f (Z.to_nat (r - (i + 1))) B else B) (i + 1) merged) =
  alter_first f (map snd (slots B (i + 1) merged)).
Proof.
  intros cap r.
  destruct (right_spec merged i cap ltac:(unfold cap; lia)) as (Hr1 & Hr2 & Hr3).
  fold r in Hr1, Hr2, Hr3. clearbody r.
  destruct (Z.ltb_spec r cap) as [Hrc|Hrc].
  - destruct (split_at B (Z.to_nat (r - (i + 1))) ltac:(unfold cap in *; lia))
      as (B1 & q & B2 & -> & Hlen).
    replace (Z.to_nat (r - (i + 1))) with (length B1 + 0)%nat by lia.
    rewrite (alter_app_r f B1 (q :: B2) 0). simpl.
    rewrite !slots_app. simpl.
    replace (i + 1 + Z.of_nat (length B1)) with r by lia.
    rewrite !decide_False by auto.
    rewrite (slots_nil B1); [done|].
    intros j Hj. apply Hr3. lia.
  - rewrite slots_nil; [done|]. intros j Hj. apply Hr3. unfold cap in *. lia.
Qed.

(** One pass of the merge loop, on the live slots: the chosen slot goes, the
    live slot before it gets a new right half and the one after it a new left
    half. *)
Lemma merge_step_view A p B merged (fL fR : list Z * list Z -> list Z * list Z) :
  (-1) ∉ merged ->
  let t := Z.of_nat (length A) in
  let merged' := {[t]} ∪ merged in
  let pairs := A ++ p :: B in
  let l := left t merged' in
  let pairs1 := if 0 <=? l then alter fL (Z.to_nat l) pairs else pairs in
  let r := right t (Z.of_nat (length pairs1)) merged' in
  let pairs2 := if r <? Z.of_nat (length pairs1) then alter fR (Z.to_nat r) pairs1 else pairs1 in
  view pairs2 merged' =
    alter_last fL (map snd (slots A 0 merged)) ++ alter_first fR (map snd (slots B (t + 1) merged))
  /\ length pairs2 = length pairs.
Proof.
  intros Hm1 t merged' pairs l pairs1 r pairs2.
  assert (Hm1' : (-1) ∉ merged').
  { unfold merged'. rewrite elem_of_union, elem_of_singleton. intros [?|?]; [lia|done]. }
  destruct (left_spec merged' t ltac:(lia) Hm1') as (Hl1 & _).
  fold l in Hl1.
  set (A' := if 0 <=? l then alter fL (Z.to_nat l) A else A).
  assert (HlenA : length A' = length A).
  { unfold A'. destruct (0 <=? l); [apply length_alter|done]. }
  assert (Hp1 : pairs1 = A' ++ p :: B).
  { unfold pairs1, A', pairs. destruct (Z.leb_spec 0 l); [|done].
    rewrite alter_app_l; [done|lia]. }
  assert (Hlen1 : length pairs1 = length pairs).
  { rewrite Hp1. unfold pairs. rewrite !length_app. simpl. lia. }
  assert (Hcap : Z.of_nat (length pairs1) = t + 1 + Z.of_nat (length B)).
  { rewrite Hlen1. unfold pairs. rewrite length_app. simpl. lia. }
  destruct (right_spec merged' t (Z.of_nat (length pairs1)) ltac:(lia)) as (Hr1 & _).
  fold r in Hr1.
  set (B' := if r <? Z.of_nat (length pairs1) then alter fR (Z.to_nat (r - (t + 1))) B else B).
  assert (Hp2 : pairs2 = A' ++ p :: B').
  { unfold pairs2, B'. destruct (Z.ltb_spec r (Z.of_nat (length pairs1))); [|done].
    rewrite Hp1.
    replace (Z.to_nat r) with (length A' + S (Z.to_nat (r - (t + 1))))%nat by lia.
    by rewrite alter_app_r. }
  split.
  - unfold view. rewrite Hp2, slots_app. simpl. rewrite HlenA. fold t.
    rewrite Z.add_0_l.
    rewrite decide_True by (apply elem_of_union; left; by apply elem_of_singleton).
    rewrite map_app. f_equal.
    + rewrite <- (slots_insert_outside A 0 t merged) by lia.
      exact (left_patch A merged' fL Hm1').
    + rewrite <- (slots_insert_outside B (t + 1) t merged) by lia.
      unfold B', r. rewrite Hcap.
      exact (right_patch B t merged' fR).
  - rewrite Hp2. unfold pairs. rewrite !length_app. simpl.
    rewrite HlenA. f_equal. f_equal. unfold B'.
    destruct (r <? Z.of_nat (length pairs1)); [apply length_alter|done].
Qed.

(** *** Live slots and symbol sequences *)

Lemma adjacent_syms_of v : chain v -> adjacent (syms_of v) = v.
Proof.
  destruct v as [|p v]; [done|]. simpl. revert p.
  induction v as [|q v IH]; intros [a b] Hc; simpl in *; [done|].
  destruct Hc as [-> Hc]. f_equal. destruct q as [c d]. simpl in *.
  apply (IH (c, d) Hc).
Qed.

Lemma concat_merge_at k : forall l, concat (merge_at k l) = concat l.
Proof.
  induction k as [|k IH]; intros [|a l]; simpl; try done.
  - destruct l as [|b l]; simpl; [done|]. by rewrite app_assoc.
  - f_equal. apply IH.
Qed.

Lemma alter_last_head (fL : list Z * list Z -> list Z * list Z) q X :
  (forall x, fst (fL x) = fst x) ->
  exists q' X', alter_last fL (q :: X) = q' :: X' /\ fst q' = fst q.
Proof.
  intros Hf. destruct X as [|x X]; simpl; eauto.
Qed.

Section MergeView.
Variable p : list Z * list Z.
Local Abbreviation fL := (fun q : list Z * list Z => (fst q, fst p ++ snd p)).
Local Abbreviation fR := (fun q : list Z * list Z => (fst p ++ snd p, snd q)).

Lemma map_snd_alter_first Y : map snd (alter_first fR Y) = map snd Y.
Proof. by destruct Y. Qed.

Lemma merge_view_tail Y X : forall q,
  chain ((q :: X) ++ p :: Y) ->
  map snd (alter_last fL (q :: X) ++ alter_first fR Y) =
  merge_at (length X) (map snd ((q :: X) ++ p :: Y)).
Proof.
  induction X as [|x X IH]; intros q Hc.
  - simpl in *. destruct Hc as [Hq _]. rewrite map_snd_alter_first.
    by rewrite Hq.
  - change (alter_last fL (q :: x :: X)) with (q :: alter_last fL (x :: X)).
    simpl map at 1. simpl length. simpl map at 2.
    change (merge_at (S (length X)) (snd q :: snd x :: map snd (X ++ p :: Y)))
      with (snd q :: merge_at (length X) (map snd ((x :: X) ++ p :: Y))).
    f_equal. apply IH. simpl in Hc. simpl. tauto.
Qed.

Lemma merge_view_syms X Y :
  chain (X ++ p :: Y) -> X ++ Y <> [] ->
  syms_of (alter_last fL X ++ alter_first fR Y) =
  merge_at (length X) (syms_of (X ++ p :: Y)).
Proof.
  intros Hc Hne. destruct X as [|q X].
  - destruct Y as [|q' Y]; [done|]. simpl. done.
  - destruct (alter_last_head fL q X ltac:(done)) as (q' & X' & HX & Hq').
    pose proof (merge_view_tail Y X q Hc) as Ht.
    rewrite HX in *. simpl in *. rewrite Hq'. f_equal. exact Ht.
Qed.

Lemma merge_view_chain X Y :
  chain (X ++ p :: Y) -> chain (alter_last fL X ++ alter_first fR Y).
Proof.
  induction X as [|q X IH]; intros Hc.
  - destruct Y as [|q' Y]; [done|]. simpl in *. destruct Hc as [_ Hc].
    destruct Y; [done|]. simpl in *. tauto.
  - destruct X as [|x X].
    + simpl in *. destruct Y as [|q' Y]; [done|]. simpl in *.
      destruct Hc as [_ [_ Hc]]. split; [done|].
      destruct Y; [done|]. simpl in *. tauto.
    + change (alter_last fL (q :: x :: X)) with (q :: alter_last fL (x :: X)).
      destruct (alter_last_head fL x X ltac:(done)) as (x' & X' & HX & Hx').
      simpl in Hc. destruct Hc as [Hq Hc]. specialize (IH Hc).
      rewrite HX in *. simpl. split; [congruence|exact IH].
Qed.

Lemma merge_view_length X Y :
  length (alter_last fL X ++ alter_first fR Y) = length (X ++ Y).
Proof.
  rewrite !length_app. f_equal.
  - induction X as [|q [|x X] IH]; simpl in *; auto.
  - by destruct Y.
Qed.
End MergeView.

(** *** The output walk *)

Lemma left_succ_merged i merged : 0 <= i -> i ∈ merged -> left (i + 1) merged = left i merged.
Proof.
  intros Hi Hm. unfold left.
  replace (Z.to_nat (i + 1 + 1)) with (S (Z.to_nat (i + 1))) by lia. simpl.
  replace (i + 1 - 1) with i by lia. by rewrite decide_True.
Qed.

Lemma left_succ_live i merged : 0 <= i -> i ∉ merged -> left (i + 1) merged = i.
Proof.
  intros Hi Hm. unfold left.
  replace (Z.to_nat (i + 1 + 1)) with (S (Z.to_nat (i + 1))) by lia. simpl.
  replace (i + 1 - 1) with i by lia. by rewrite decide_False.
Qed.

Lemma emit_loop_spec merged ps : forall i result,
  0 <= i -> (-1) ∉ merged ->
  emit_loop ps i merged result =
  result ++ (if left i merged <? 0 then syms_of (map snd (slots ps i merged))
             else map snd (map snd (slots ps i merged))).
Proof.
  induction ps as [|p ps IH]; intros i result Hi Hm1; simpl.
  - destruct (left i merged <? 0); by rewrite app_nil_r.
  - destruct (decide (i ∈ merged)) as [Hin|Hin].
    + rewrite IH by (done || lia). by rewrite left_succ_merged.
    + rewrite IH by (done || lia). rewrite left_succ_live by done.
      rewrite (proj2 (Z.ltb_ge i 0)) by lia.
      destruct (left i merged <? 0); simpl; by rewrite <- !app_assoc.
Qed.

Lemma emit_loop_view merged pairs result :
  (-1) ∉ merged ->
  emit_loop pairs 0 merged result = result ++ syms_of (view pairs merged).
Proof.
  intros Hm1. rewrite emit_loop_spec by done.
  unfold left. simpl. by rewrite decide_False.
Qed.

Lemma size_merged_view pairs (merged : gset Z) :
  (forall x, x ∈ merged -> 0 <= x < Z.of_nat (length pairs)) ->
  size merged = length pairs <-> view pairs merged = [].
Proof.
  intros Hrange.
  set (R := list_to_set (seqZ 0 (Z.of_nat (length pairs))) : gset Z).
  assert (HR : size R = length pairs).
  { unfold R. rewrite size_list_to_set by apply NoDup_seqZ. rewrite length_seqZ. lia. }
  assert (Hsub : merged ⊆ R).
  { intros x Hx. apply elem_of_list_to_set, elem_of_seqZ. apply Hrange in Hx. lia. }
  unfold view. split.
  - intros Hsize.
    assert (Heq : merged = R) by (apply set_subseteq_size_eq; [done|lia]).
    rewrite slots_nil; [done|]. intros j Hj. rewrite Heq.
    apply elem_of_list_to_set, elem_of_seqZ. lia.
  - intros Hnil. apply (f_equal length) in Hnil. rewrite length_map in Hnil.
    apply nil_length_inv in Hnil.
    assert (Heq : merged = R).
    { apply set_eq. intros x. split; [apply Hsub|].
      intros Hx. apply elem_of_list_to_set, elem_of_seqZ in Hx.
      apply (slots_nil_inv _ _ _ Hnil). lia. }
    by rewrite Heq.
Qed.

(** *** The merge loop follows the reference algorithm *)

Lemma adjacent_abs_syms token pairs merged :
  chain (view pairs merged) -> adjacent (abs_syms token pairs merged) = view pairs merged.
Proof.
  intros Hc. unfold abs_syms. destruct (view pairs merged) eqn:Hv; [done|].
  by apply adjacent_syms_of.
Qed.

Lemma abs_syms_live token pairs merged :
  view pairs merged <> [] -> abs_syms token pairs merged = syms_of (view pairs merged).
Proof. unfold abs_syms. by destruct (view pairs merged). Qed.

Lemma vector_at_middle {A} (l1 : list A) x l2 st :
  eval (vector_at (l1 ++ x :: l2) (Z.of_nat (length l1))) st = Ret x.
Proof.
  unfold vector_at. rewrite (proj2 (Z.leb_le 0 _)) by lia.
  rewrite Nat2Z.id, list_lookup_middle; done.
Qed.

(** *** The selection loop and ties *)

Lemma select_loop_leftmost st ps : forall i merged m0 t0 ms t,
  eval (select_loop ps i merged m0 t0) st = Ret (ms, t) ->
  (ms = m0 /\ t = t0 /\
   forall (k : nat) p, ps !! k = Some p -> i + Z.of_nat k ∉ merged ->
                       m0 <= score (m_bpeRanks st) p) \/
  (ms < m0 /\
   exists (k : nat) p, t = i + Z.of_nat k /\ ps !! k = Some p /\ (t ∉ merged) /\
     score (m_bpeRanks st) p = ms /\
     forall (k' : nat) p', ps !! k' = Some p' -> i + Z.of_nat k' ∉ merged ->
       ms <= score (m_bpeRanks st) p' /\
       (score (m_bpeRanks st) p' = ms -> (k <= k')%nat)).
Proof.
  induction ps as [|p ps IH]; intros i merged m0 t0 ms t; simpl.
  - intros [= <- <-]. left. repeat split; done.
  - destruct (decide (i ∈ merged)) as [Hin|Hin].
    + intros Hrun. destruct (IH _ _ _ _ _ _ Hrun) as [(-> & -> & Hall)|(Hlt & k & q & -> & Hk & Ht & Hs & Hall)].
      * left. repeat split; try done. intros [|k] q Hq Hlive; simpl in Hq.
        -- exfalso. apply Hlive. by rewrite Z.add_0_r.
        -- apply (Hall k q Hq). by replace (i + 1 + Z.of_nat k) with (i + Z.of_nat (S k)) by lia.
      * right. split; [done|]. exists (S k), q.
        replace (i + Z.of_nat (S k)) with (i + 1 + Z.of_nat k) by lia.
        repeat split; try done.
        -- destruct k' as [|k']; simpl in H.
           ++ exfalso. apply H0. by rewrite Z.add_0_r.
           ++ apply (Hall k' p' H). by replace (i + 1 + Z.of_nat k') with (i + Z.of_nat (S k')) by lia.
        -- destruct k' as [|k']; simpl in H.
           ++ exfalso. apply H0. by rewrite Z.add_0_r.
           ++ intros Heq. apply le_n_S.
              apply (Hall k' p' H); [|done].
              by replace (i + 1 + Z.of_nat k') with (i + Z.of_nat (S k')) by lia.
    + rewrite eval_bind by auto with ro. simpl rbind.
      fold (score (m_bpeRanks st) p).
      destruct (Z.ltb_spec (score (m_bpeRanks st) p) m0) as [Hsc|Hsc]; intros Hrun.
      * destruct (IH _ _ _ _ _ _ Hrun) as [(-> & -> & Hall)|(Hlt & k & q & -> & Hk & Ht & Hs & Hall)].
        -- right. split; [done|]. exists O, p. rewrite Z.add_0_r.
           repeat split; try done.
           ++ destruct k' as [|k']; simpl in H; [injection H as <-; lia|].
              apply (Hall k' p' H). by replace (i + 1 + Z.of_nat k') with (i + Z.of_nat (S k')) by lia.
           ++ lia.
        -- right. split; [lia|]. exists (S k), q.
           replace (i + Z.of_nat (S k)) with (i + 1 + Z.of_nat k) by lia.
           repeat split; try done.
           ++ destruct k' as [|k']; simpl in H; [injection H as <-; lia|].
              apply (Hall k' p' H). by replace (i + 1 + Z.of_nat k') with (i + Z.of_nat (S k')) by lia.
           ++ destruct k' as [|k']; simpl in H; [injection H as <-; lia|].
              intros Heq. apply le_n_S. apply (Hall k' p' H); [|done].
              by replace (i + 1 + Z.of_nat k') with (i + Z.of_nat (S k')) by lia.
      * destruct (IH _ _ _ _ _ _ Hrun) as [(-> & -> & Hall)|(Hlt & k & q & -> & Hk & Ht & Hs & Hall)].
        -- left. repeat split; try done. intros [|k] q Hq Hlive; simpl in Hq.
           ++ by injection Hq as <-.
           ++ apply (Hall k q Hq). by replace (i + 1 + Z.of_nat k) with (i + Z.of_nat (S k)) by lia.
        -- right. split; [done|]. exists (S k), q.
           replace (i + Z.of_nat (S k)) with (i + 1 + Z.of_nat k) by lia.
           repeat split; try done.
           ++ destruct k' as [|k']; simpl in H; [injection H as <-; lia|].
              apply (Hall k' p' H). by replace (i + 1 + Z.of_nat k') with (i + Z.of_nat (S k')) by lia.
           ++ destruct k' as [|k']; simpl in H; [injection H as <-; lia|].
              intros Heq. apply le_n_S. apply (Hall k' p' H); [|done].
              by replace (i + 1 + Z.of_nat k') with (i + Z.of_nat (S k')) by lia.
Qed.

Section Simulation.
Variable st : BPE.
Variable token : list Z.

Lemma merge_inv_concat pairs merged :
  merge_inv token pairs merged -> concat (abs_syms token pairs merged) = token.
Proof.
  intros (_ & _ & Hcat). unfold abs_syms.
  destruct (view pairs merged) eqn:Hv; [simpl; by rewrite app_nil_r|].
  by apply Hcat.
Qed.

(** One pass that merges the live slot at index [length A]. *)
Lemma merge_step_abs A p B merged :
  merge_inv token (A ++ p :: B) merged ->
  Z.of_nat (length A) ∉ merged ->
  let t := Z.of_nat (length A) in
  let merged' := {[t]} ∪ merged in
  let pairs := A ++ p :: B in
  let mergeInto := fst p ++ snd p in
  let l := left t merged' in
  let pairs1 := if 0 <=? l then alter (fun q => (fst q, mergeInto)) (Z.to_nat l) pairs
                else pairs in
  let r := right t (Z.of_nat (length pairs1)) merged' in
  let pairs2 := if r <? Z.of_nat (length pairs1)
                then alter (fun q => (mergeInto, snd q)) (Z.to_nat r) pairs1 else pairs1 in
  merge_inv token pairs2 merged' /\
  length pairs2 = length pairs /\
  S (length (view pairs2 merged')) = length (view pairs merged) /\
  abs_syms token pairs2 merged' =
    merge_at (length (slots A 0 merged)) (abs_syms token pairs merged).
Proof.
  intros (Hrange & Hchain & Hconcat) Ht. cbv zeta.
  assert (Hm1 : (-1) ∉ merged) by (intros Hin; apply Hrange in Hin; lia).
  destruct (merge_step_view A p B merged
              (fun q => (fst q, fst p ++ snd p)) (fun q => (fst p ++ snd p, snd q)) Hm1)
    as [Hview Hlen].
  cbv zeta in Hview, Hlen.
  match goal with |- merge_inv _ ?ps ?m /\ _ => set (pairs2 := ps) in *; set (merged' := m) in * end.
  set (pairs := A ++ p :: B) in *.
  set (t := Z.of_nat (length A)) in *.
  set (X := map snd (slots A 0 merged)) in *.
  set (Y := map snd (slots B (t + 1) merged)) in *.
  assert (Hv : view pairs merged = X ++ p :: Y).
  { unfold view, pairs. rewrite slots_app. simpl. rewrite Z.add_0_l.
    rewrite decide_False by done. by rewrite map_app. }
  rewrite Hv in *.
  pose proof (merge_view_length p X Y) as HlenV. rewrite <- Hview in HlenV.
  assert (HX : length (slots A 0 merged) = length X) by (unfold X; by rewrite length_map).
  split; [split; [|split]|split; [|split]].
  - intros x Hx. rewrite Hlen. unfold merged' in Hx.
    apply elem_of_union in Hx as [Hx|Hx].
    + apply elem_of_singleton in Hx. subst. unfold pairs, t. rewrite length_app. simpl. lia.
    + by apply Hrange.
  - rewrite Hview. by apply merge_view_chain.
  - intros Hne. rewrite Hview.
    rewrite merge_view_syms; [|done|].
    + rewrite concat_merge_at. apply Hconcat. by destruct X.
    + intros Hnil. apply Hne. apply nil_length_inv. rewrite HlenV, Hnil. done.
  - done.
  - rewrite HlenV, !length_app. simpl. lia.
  - rewrite (abs_syms_live token pairs merged) by (rewrite Hv; by destruct X).
    rewrite Hv, HX.
    destruct (decide (X ++ Y = [])) as [Hnil|Hne].
    + apply app_eq_nil in Hnil as [HX0 HY0]. rewrite HX0, HY0 in *.
      unfold abs_syms. rewrite Hview. simpl.
      specialize (Hconcat ltac:(done)). simpl in Hconcat.
      rewrite app_nil_r in Hconcat. by rewrite Hconcat.
    + rewrite abs_syms_live.
      * rewrite Hview. by apply merge_view_syms.
      * intros Hnil. apply Hne. apply nil_length_inv. rewrite <- HlenV, Hnil. done.
Qed.

(** The loop ends within its budget, keeps [merge_inv], and (for a table
    with ranks below the sentinel) does what the reference loop does. *)
Lemma merge_loop_sim fuel : forall pairs merged,
  merge_inv token pairs merged ->
  (length (view pairs merged) < fuel)%nat ->
  exists pairs' merged',
    eval (merge_loop fuel pairs merged) st = Ret (pairs', merged') /\
    merge_inv token pairs' merged' /\
    (ranks_below_sentinel (m_bpeRanks st) ->
     abs_syms token pairs' merged' =
       naive_loop fuel (m_bpeRanks st) (abs_syms token pairs merged)).
Proof.
  induction fuel as [|fuel IH]; intros pairs merged Hinv Hfuel; [lia|].
  simpl merge_loop. rewrite eval_bind by auto with ro.
  destruct (eval (select_loop pairs 0 merged SSIZE_MAX (-1)) st) as [[ms t]| |] eqn:Hsel;
    [|by rewrite select_loop_slots in Hsel..].
  simpl rbind. simpl snd.
  destruct (select_loop_leftmost _ _ _ _ _ _ _ _ Hsel)
    as [(_ & -> & _)|(_ & k & p & -> & Hk & Ht & _)].
  - simpl. exists pairs, merged. split; [done|]. split; [done|].
    intros Hranks. rewrite adjacent_abs_syms by apply Hinv.
    pose proof (select_loop_spec st pairs merged Hranks) as Hspec.
    destruct (best_pair (m_bpeRanks st) (view pairs merged)) as [[k r]|]; [|done].
    destruct Hspec as (A & p & B & _ & _ & _ & Hrun). rewrite Hrun in Hsel.
    injection Hsel as _ Hneg. lia.
  - rewrite Z.add_0_l in *.
    rewrite (proj2 (Z.eqb_neq _ (-1))) by lia.
    rewrite eval_bind by auto with ro.
    destruct (split_at pairs k (lookup_lt_Some _ _ _ Hk)) as (A & p' & B & -> & HlenA).
    assert (p' = p) as ->.
    { rewrite <- HlenA in Hk. rewrite list_lookup_middle in Hk by done. congruence. }
    rewrite <- HlenA in *. clear HlenA k.
    rewrite vector_at_middle. simpl rbind.
    destruct (merge_step_abs A p B merged Hinv Ht) as (Hinv' & Hlen & HlenV & Habs).
    cbv zeta in Hinv', Hlen, HlenV, Habs.
    destruct (IH _ _ Hinv' ltac:(lia)) as (pairs' & merged'' & Hrun & Hinv'' & Hnaive).
    exists pairs', merged''. split; [exact Hrun|]. split; [done|].
    intros Hranks. rewrite (Hnaive Hranks), Habs.
    simpl naive_loop. rewrite adjacent_abs_syms by apply Hinv.
    pose proof (select_loop_spec st (A ++ p :: B) merged Hranks) as Hspec.
    destruct (best_pair (m_bpeRanks st) (view (A ++ p :: B) merged)) as [[k r]|].
    + destruct Hspec as (A' & q & B' & Heq & _ & Hk' & Hrun'). rewrite Hrun' in Hsel.
      injection Hsel as _ HlenA'.
      apply app_inj_1 in Heq as [<- _]; [|lia]. by rewrite Hk'.
    + rewrite Hspec in Hsel. injection Hsel as _ Hneg. lia.
Qed.
End Simulation.

Lemma slots_empty ps : forall i, map snd (slots ps i ∅) = ps.
Proof.
  induction ps as [|p ps IH]; intros i; simpl; [done|].
  rewrite decide_False by apply not_elem_of_empty. simpl. by rewrite IH.
Qed.

Lemma getPairs_loop_syms word : forall previous,
  map snd (getPairs_loop previous word) = symbols_of word /\
  chain (getPairs_loop previous word) /\
  length (getPairs_loop previous word) = length word /\
  match getPairs_loop previous word with q :: _ => fst q = [previous] | [] => True end.
Proof.
  induction word as [|c word IH]; intros previous; simpl; [done|].
  destruct (IH c) as (H1 & H2 & H3 & H4). rewrite H1, H3.
  repeat split; try done.
  destruct (getPairs_loop c word) as [|q ?]; [done|]. by rewrite H4.
Qed.

Lemma getPairs_inv token : merge_inv token (getPairs token) ∅.
Proof.
  assert (Hcat : forall w : list Z, concat (symbols_of w) = w).
  { induction w as [|c w IHw]; simpl; [done|]. by rewrite IHw. }
  unfold merge_inv, view. rewrite slots_empty.
  split; [intros x Hx; by apply not_elem_of_empty in Hx|].
  destruct token as [|a [|b token]]; [done|done|].
  assert (HgP : getPairs (a :: b :: token) = getPairs_loop a (b :: token)) by done.
  rewrite HgP.
  destruct (getPairs_loop_syms (b :: token) a) as (H1 & H2 & H3 & H4).
  destruct (getPairs_loop a (b :: token)) as [|q v] eqn:Hq; [done|].
  split; [done|]. intros _. unfold syms_of. rewrite H1, H4.
  change (concat (symbols_of (a :: b :: token)) = a :: b :: token). apply Hcat.
Qed.

Lemma getPairs_spec token :
  token <> [] ->
  abs_syms token (getPairs token) ∅ = symbols_of token /\
  S (length (getPairs token)) = length token.
Proof.
  intros Hne. unfold abs_syms, view. rewrite slots_empty.
  destruct token as [|a [|b token]]; [done|done|].
  assert (HgP : getPairs (a :: b :: token) = getPairs_loop a (b :: token)) by done.
  rewrite HgP.
  destruct (getPairs_loop_syms (b :: token) a) as (H1 & H2 & H3 & H4).
  destruct (getPairs_loop a (b :: token)) as [|q v] eqn:Hq; [done|].
  unfold syms_of. rewrite H1, H4, H3. done.
Qed.

Lemma best_pair_lt ranks v : forall k r, best_pair ranks v = Some (k, r) -> (k < length v)%nat.
Proof.
  induction v as [|p v IH]; intros k r; simpl; [done|].
  destruct (ranks !! p) as [r0|], (best_pair ranks v) as [[k' r']|] eqn:Hb; try done.
  - destruct (r0 <=? r'); intros [= <- <-]; [lia|]. specialize (IH _ _ eq_refl). lia.
  - intros [= <- <-]. lia.
  - intros [= <- <-]. specialize (IH _ _ eq_refl). lia.
Qed.

Lemma length_adjacent l : length (adjacent l) = (length l - 1)%nat.
Proof.
  induction l as [|a l IH]; simpl; [done|].
  destruct l as [|b l]; [done|]. simpl in *. lia.
Qed.

Lemma length_merge_at k : forall l, (k + 1 < length l)%nat -> S (length (merge_at k l)) = length l.
Proof.
  induction k as [|k IH]; intros [|a l] Hk; simpl in *; try lia.
  - destruct l as [|b l]; simpl in *; lia.
  - rewrite IH; lia.
Qed.

(** The reference algorithm stops only when no adjacent pair has a rule. *)
Lemma naive_loop_final ranks fuel : forall l,
  (length l <= fuel)%nat -> best_pair ranks (adjacent (naive_loop fuel ranks l)) = None.
Proof.
  induction fuel as [|fuel IH]; intros l Hl; simpl.
  - destruct l; [done|simpl in Hl; lia].
  - destruct (best_pair ranks (adjacent l)) as [[k r]|] eqn:Hb; [|done].
    apply IH. pose proof (best_pair_lt _ _ _ _ Hb) as Hk.
    rewrite length_adjacent in Hk.
    pose proof (length_merge_at k l ltac:(lia)). lia.
Qed.

Lemma naive_bpe_final ranks l : best_pair ranks (adjacent (naive_bpe ranks l)) = None.
Proof. by apply naive_loop_final. Qed.

(** [bpe] always returns: it appends symbols that spell the token, and they
    are the reference algorithm's for a non-empty token and a table with
    ranks below the sentinel. *)
Lemma bpe_spec st token result :
  exists syms,
    eval (bpe token result) st = Ret (result ++ syms) /\
    concat syms = token /\
    (token <> [] -> ranks_below_sentinel (m_bpeRanks st) ->
     syms = naive_bpe (m_bpeRanks st) (symbols_of token)).
Proof.
  assert (Hview : view (getPairs token) ∅ = getPairs token) by apply slots_empty.
  destruct (merge_loop_sim st token (S (length (getPairs token))) (getPairs token) ∅)
    as (pairs' & merged' & Hrun & Hinv' & Hnaive).
  - apply getPairs_inv.
  - rewrite Hview. lia.
  - exists (abs_syms token pairs' merged'). split; [|split].
    + unfold bpe. rewrite eval_bind by auto with ro. rewrite Hrun. simpl rbind.
      destruct Hinv' as (Hrange' & _).
      assert (Hm1 : (-1) ∉ merged') by (intros Hin; apply Hrange' in Hin; lia).
      pose proof (size_merged_view pairs' merged' Hrange') as Hsz.
      destruct (Nat.eqb_spec (size merged') (length pairs')) as [Heq|Hneq].
      * apply Hsz in Heq. unfold abs_syms. by rewrite Heq.
      * rewrite eval_ret, emit_loop_view by done.
        rewrite abs_syms_live; [done|]. intros Hnil. apply Hneq. by apply Hsz.
    + by apply merge_inv_concat.
    + intros Hne Hranks. destruct (getPairs_spec token Hne) as (Habs & Hlen).
      rewrite (Hnaive Hranks), Habs. unfold naive_bpe.
      by replace (length (symbols_of token)) with (S (length (getPairs token)))
        by (unfold symbols_of; rewrite length_map; lia).
Qed.

Lemma bpe_abs st token result :
  token <> [] -> ranks_below_sentinel (m_bpeRanks st) ->
  eval (bpe token result) st = Ret (result ++ naive_bpe (m_bpeRanks st) (symbols_of token)).
Proof.
  intros Hne Hranks. destruct (bpe_spec st token result) as (syms & Hrun & _ & Hnaive).
  by rewrite Hrun, (Hnaive Hne Hranks).
Qed.

Lemma ranks_below_sentinel_check (ranks : gmap (list Z * list Z) Z) :
  forallb (fun e => snd e <? SSIZE_MAX) (map_to_list ranks) = true ->
  ranks_below_sentinel ranks.
Proof.
  intros Hall p r Hp.
  apply elem_of_map_to_list, list_elem_of_In in Hp.
  pose proof (proj1 (forallb_forall _ _) Hall _ Hp) as Hlt. simpl in Hlt. lia.
Qed.

Lemma demo_ranks_below : ranks_below_sentinel (m_bpeRanks demo).
Proof. apply ranks_below_sentinel_check. vm_compute. reflexivity. Qed.

(** C5, as the code has it: for every non-empty token and every merge-rule
    table whose ranks are below the sentinel [SSIZE_MAX] of the selection
    loop, [bpe] appends to [result] exactly the symbol sequence that the
    reference algorithm (pick the leftmost pair of least rank among the
    adjacent pairs of the current sequence, merge it, rebuild the pair list,
    repeat until no pair has a rule) reaches from one symbol per codepoint;
    and that sequence has no adjacent pair with a rule left. *)
Theorem bpe_refines_naive (st : BPE) (token : list Z) (result : list (list Z)) :
  token <> [] ->
  ranks_below_sentinel (m_bpeRanks st) ->
  bpe token result st =
    (Ret (result ++ naive_bpe (m_bpeRanks st) (symbols_of token)), st) /\
  best_pair (m_bpeRanks st) (adjacent (naive_bpe (m_bpeRanks st) (symbols_of token))) = None.
Proof.
  intros Hne Hranks. split; [|apply naive_bpe_final].
  rewrite (readonly_run _ st (readonly_bpe token result)).
  by rewrite bpe_abs.
Qed.

Lemma bpe_refines_naive_witness :
  bpe (str "Hello") [] demo =
    (Ret ([] ++ naive_bpe (m_bpeRanks demo) (symbols_of (str "Hello"))), demo) /\
  best_pair (m_bpeRanks demo)
    (adjacent (naive_bpe (m_bpeRanks demo) (symbols_of (str "Hello")))) = None.
Proof.
  apply (bpe_refines_naive demo (str "Hello") []).
  - discriminate.
  - exact demo_ranks_below.
Defined.

(** C5, as it is worded, fails on the empty token: its initial symbol
    sequence is empty and the reference algorithm leaves it empty, whereas
    [bpe] finds as many merged slots as slots (none) and emits the token
    itself, one empty symbol. *)
Lemma bpe_empty_token_differs :
  eval (bpe [] []) demo = Ret [[]] /\
  naive_bpe (m_bpeRanks demo) (symbols_of []) = [] /\
  eval (bpe [] []) demo <> Ret ([] ++ naive_bpe (m_bpeRanks demo) (symbols_of [])).
Proof. vm_compute. repeat split; congruence. Qed.

(** C6, as the code has it: ranks are unique per rule, but the same pair can
    fill several live slots, so several slots can share the least rank.  The
    selection loop compares with a strict [<] while it walks the slots in
    ascending order, and therefore returns the live slot of least index among
    those of least score; it returns [-1] exactly when no live slot scores
    below the sentinel. *)
Theorem selection_takes_leftmost_minimum (st : BPE) (pairs : list (list Z * list Z))
    (merged : gset Z) (minScore toMerge : Z) :
  eval (select_loop pairs 0 merged SSIZE_MAX (-1)) st = Ret (minScore, toMerge) ->
  (toMerge = -1 /\ minScore = SSIZE_MAX /\
   forall (j : nat) q, pairs !! j = Some q -> Z.of_nat j ∉ merged ->
                       SSIZE_MAX <= score (m_bpeRanks st) q) \/
  (exists (k : nat) p,
     toMerge = Z.of_nat k /\ pairs !! k = Some p /\ (Z.of_nat k ∉ merged) /\
     score (m_bpeRanks st) p = minScore /\ minScore < SSIZE_MAX /\
     forall (j : nat) q, pairs !! j = Some q -> Z.of_nat j ∉ merged ->
       minScore <= score (m_bpeRanks st) q /\
       (score (m_bpeRanks st) q = minScore -> (k <= j)%nat)).
Proof.
  intros Hrun.
  destruct (select_loop_leftmost _ _ _ _ _ _ _ _ Hrun)
    as [(-> & -> & Hall)|(Hlt & k & p & -> & Hk & Ht & Hs & Hall)].
  - left. repeat split; try done; intros j q Hq Hlive; by apply (Hall j q).
  - right. exists k, p. rewrite Z.add_0_l in *.
    repeat split; try done; by apply (Hall j q).
Qed.

Lemma selection_takes_leftmost_minimum_witness :
  (0 = -1 /\ 5 = SSIZE_MAX /\
   forall (j : nat) q, getPairs (str "abab") !! j = Some q -> Z.of_nat j ∉ (∅ : gset Z) ->
                       SSIZE_MAX <= score (m_bpeRanks demo) q) \/
  (exists (k : nat) p,
     0 = Z.of_nat k /\ getPairs (str "abab") !! k = Some p /\ (Z.of_nat k ∉ (∅ : gset Z)) /\
     score (m_bpeRanks demo) p = 5 /\ 5 < SSIZE_MAX /\
     forall (j : nat) q, getPairs (str "abab") !! j = Some q -> Z.of_nat j ∉ (∅ : gset Z) ->
       5 <= score (m_bpeRanks demo) q /\
       (score (m_bpeRanks demo) q = 5 -> (k <= j)%nat)).
Proof.
  apply (selection_takes_leftmost_minimum demo (getPairs (str "abab")) ∅ 5 0).
  vm_compute. reflexivity.
Defined.

(** C6, as it is worded, fails: in the first pass over the token [abab], with
    the single rule [a b] (so ranks are trivially unique), the live slots 0
    and 2 both hold the pair of least rank. *)
Lemma ties_occur :
  let st := match BPE_new (Some (file_of_lines ["#version: 0.2"; "a b"]%string)) None with
            | Ret st => st
            | _ => mkBPE ∅ ∅ ∅ ∅ ∅
            end in
  map_to_list (m_bpeRanks st) = [((str "a", str "b"), 1)] /\
  getPairs (str "abab") = [(str "a", str "b"); (str "b", str "a"); (str "a", str "b")] /\
  eval (select_loop (getPairs (str "abab")) 0 ∅ SSIZE_MAX (-1)) st = Ret (1, 0) /\
  ~ no_ties (m_bpeRanks st) (getPairs (str "abab")) ∅.
Proof.
  cbv zeta. split; [by vm_compute|]. split; [by vm_compute|]. split; [by vm_compute|].
  intros Hno.
  assert (H02 : 0%nat = 2%nat); [|discriminate H02].
  apply (Hno 0%nat 2%nat (str "a", str "b") (str "a", str "b") 1).
  - by vm_compute.
  - by vm_compute.
  - apply not_elem_of_empty.
  - apply not_elem_of_empty.
  - by vm_compute.
  - by vm_compute.
  - intros k x Hx _.
    destruct k as [|[|[|k]]]; vm_compute in Hx; try discriminate Hx;
      injection Hx as <-; by vm_compute.
Qed.

(** ** Strings *)

Lemma starts_with_app pat : forall text,
  starts_with pat text = true <-> exists rest, text = pat ++ rest.
Proof.
  induction pat as [|p pat IH]; intros text; simpl.
  - split; eauto.
  - destruct text as [|c text].
    + split; [done|]. by intros [rest Hr].
    + rewrite andb_true_iff, Z.eqb_eq, IH. split.
      * intros [-> [rest ->]]. eauto.
      * intros [rest [= -> ->]]. eauto.
Qed.

Lemma find_from_spec pat text : forall i j,
  find_from pat text i = Some j ->
  exists k, j = (i + k)%nat /\ (k + length pat <= length text)%nat /\
            take (length pat) (drop k text) = pat /\
            (forall k', (k' < k)%nat -> starts_with pat (drop k' text) = false).
Proof.
  induction text as [|c text IH]; intros i j; simpl.
  - destruct (starts_with pat []) eqn:Hs; [|done]. intros [= <-].
    apply starts_with_app in Hs as [rest Hr].
    symmetry in Hr. apply app_eq_nil in Hr as [-> ->].
    exists O. repeat split; try done; try lia.
  - destruct (starts_with pat (c :: text)) eqn:Hs.
    + intros [= <-]. apply starts_with_app in Hs as [rest Hr].
      exists O. split; [lia|]. split; [|split].
      * pose proof (f_equal length Hr) as HL. rewrite length_app in HL. simpl in *. lia.
      * change (drop 0 (c :: text)) with (c :: text). rewrite Hr. by rewrite take_app_length.
      * intros; lia.
    + intros Hf. destruct (IH _ _ Hf) as (k & -> & Hlen & Htake & Hmin).
      exists (S k). simpl. repeat split; try done; try lia.
      intros [|k'] Hk'; simpl; [done|]. apply Hmin. lia.
Qed.

Lemma string_find_spec text pat pos i :
  string_find text pat pos = Some i ->
  (pos <= i)%nat /\ (i + length pat <= length text)%nat /\
  take (length pat) (drop i text) = pat.
Proof.
  unfold string_find. destruct (Nat.leb_spec pos (length text)) as [Hpos|]; [|done].
  intros Hf. destruct (find_from_spec _ _ _ _ Hf) as (k & -> & Hlen & Htake & _).
  rewrite length_drop in Hlen. rewrite drop_drop in Htake.
  repeat split; try done; lia.
Qed.

Lemma string_find_empty text pos :
  (pos <= length text)%nat -> string_find text [] pos = Some pos.
Proof.
  intros Hpos. unfold string_find. rewrite (proj2 (Nat.leb_le _ _)) by done.
  by destruct (drop pos text).
Qed.

(** ** The pretokenizer *)

Lemma take_drop_while cls w : take_while cls w ++ drop_while cls w = w.
Proof. induction w as [|c w IH]; simpl; [done|]. destruct (cls c); simpl; by rewrite ?IH. Qed.

Lemma re_literal_splits lit : lit <> [] -> splits_front (re_literal lit).
Proof.
  intros Hlit w m suffix. unfold re_literal.
  destruct (starts_with lit w) eqn:Hs; [|done]. intros [= <- <-].
  apply starts_with_app in Hs as [rest ->]. split; [done|].
  by rewrite drop_app_length.
Qed.

Lemma re_plus_splits cls : splits_front (re_plus cls).
Proof.
  intros w m suffix. unfold re_plus.
  destruct (take_while cls w) as [|c t] eqn:Ht; [done|]. intros [= <- <-].
  split; [done|]. rewrite <- Ht. by rewrite take_drop_while.
Qed.

Lemma re_opt_space_plus_splits cls : splits_front (re_opt_space_plus cls).
Proof.
  intros w m suffix. unfold re_opt_space_plus.
  destruct w as [|c w]; [done|].
  destruct (Z.eqb_spec c 32) as [->|Hc]; [|apply re_plus_splits].
  destruct (re_plus cls w) as [[m' s']|] eqn:Hp; [|apply re_plus_splits].
  intros [= <- <-]. destruct (re_plus_splits cls _ _ _ Hp) as [_ ->]. done.
Qed.

Lemma re_alt_splits alts : Forall splits_front alts -> splits_front (re_alt alts).
Proof.
  induction 1 as [|a alts Ha _ IH]; intros w m suffix; simpl; [done|].
  destruct (a w) as [[m' s']|] eqn:Haw; [|apply IH].
  intros [= <- <-]. by apply Ha.
Qed.

Lemma regex_match_here_splits : splits_front regex_match_here.
Proof.
  apply re_alt_splits.
  repeat (apply Forall_cons_2;
          [first [apply re_literal_splits; discriminate
                 |apply re_opt_space_plus_splits|apply re_plus_splits]|]).
  apply Forall_nil_2.
Qed.

Lemma regex_search_eq w :
  regex_search w =
  match regex_match_here w with
  | Some r => Some r
  | None => match w with [] => None | _ :: w' => regex_search w' end
  end.
Proof. by destruct w. Qed.

Lemma regex_search_splits w : forall m suffix,
  regex_search w = Some (m, suffix) ->
  m <> [] /\ exists skipped, w = skipped ++ m ++ suffix.
Proof.
  induction w as [|c w IH]; intros m suffix; rewrite regex_search_eq.
  - destruct (regex_match_here []) as [[m' s']|] eqn:Hm; [|done].
    intros [= <- <-]. destruct (regex_match_here_splits _ _ _ Hm) as [Hne Heq].
    split; [done|]. by exists [].
  - destruct (regex_match_here (c :: w)) as [[m' s']|] eqn:Hm.
    + intros [= <- <-]. destruct (regex_match_here_splits _ _ _ Hm) as [Hne Heq].
      split; [done|]. by exists [].
    + intros Hs. destruct (IH _ _ Hs) as [Hne [skipped ->]].
      split; [done|]. by exists (c :: skipped).
Qed.

Lemma regex_search_shorter w m suffix :
  regex_search w = Some (m, suffix) -> (length suffix < length w)%nat.
Proof.
  intros Hs. destruct (regex_search_splits _ _ _ Hs) as [Hne [skipped ->]].
  rewrite !length_app. destruct m; [done|]. simpl. lia.
Qed.

Lemma rbind_assoc {A B C} (r : res A) (f : A -> res B) (g : B -> res C) :
  rbind (rbind r f) g = rbind r (fun a => rbind (f a) g).
Proof. by destruct r. Qed.

Lemma rbind_ret {A} (r : res A) : rbind r Ret = r.
Proof. by destruct r. Qed.

Lemma rbind_ext {A B} (r : res A) (f g : A -> res B) :
  (forall a, f a = g a) -> rbind r f = rbind r g.
Proof. intros Hfg. destruct r; simpl; auto. Qed.

Lemma byteEncodeToken_not_fuel st token : eval (byteEncodeToken token) st <> Fuel.
Proof.
  induction token as [|c token IH]; simpl; [done|].
  rewrite eval_bind, eval_umap_at by auto with ro.
  destruct (m_b2u st !! to_uint8 c); simpl; [|done].
  rewrite eval_bind by auto with ro.
  destruct (eval (byteEncodeToken token) st); simpl; done.
Qed.

Lemma piece_not_fuel st wtoken : piece st wtoken <> Fuel.
Proof.
  unfold piece. rewrite eval_bind by auto with ro.
  pose proof (byteEncodeToken_not_fuel st (wstringToUTF8 wtoken)) as He.
  destruct (eval (byteEncodeToken (wstringToUTF8 wtoken)) st) as [e| |]; simpl; [|done..].
  rewrite eval_bind by auto with ro.
  destruct (bpe_spec st e []) as (syms & -> & _). done.
Qed.

Lemma pieces_not_fuel st wtokens : pieces st wtokens <> Fuel.
Proof.
  induction wtokens as [|t ts IH]; simpl; [done|].
  pose proof (piece_not_fuel st t).
  destruct (piece st t); simpl; [|done..].
  destruct (pieces st ts); simpl; done.
Qed.

Lemma tokenize_loop_pieces st fuel : forall w result,
  (length w <= fuel)%nat ->
  eval (tokenize_loop fuel w result) st =
  rbind (pieces st (pretokens_fuel fuel w)) (fun new => Ret (result ++ new)).
Proof.
  induction fuel as [|fuel IH]; intros w result Hlen.
  - destruct w; [|simpl in Hlen; lia]. simpl. by rewrite app_nil_r.
  - simpl. destruct (regex_search w) as [[wtoken suffix]|] eqn:Hs.
    + pose proof (regex_search_shorter _ _ _ Hs) as Hshort.
      cbn [pieces]. unfold piece. rewrite !eval_bind by auto with ro.
      rewrite !rbind_assoc. apply rbind_ext. intros e.
      rewrite !eval_bind by auto with ro.
      rewrite !rbind_assoc. apply rbind_ext. intros syms.
      rewrite IH by lia. rewrite eval_ret. simpl.
      rewrite rbind_assoc. apply rbind_ext. intros new. simpl.
      by rewrite app_assoc.
    + simpl. by rewrite app_nil_r.
Qed.

Lemma tokenize_pieces st text result :
  eval (tokenize text result) st =
  rbind (utf8ToWString text) (fun w =>
  rbind (pieces st (pretokens w)) (fun new => Ret (result ++ new))).
Proof.
  unfold tokenize. rewrite eval_bind, eval_lift by auto with ro.
  apply rbind_ext. intros w. by apply tokenize_loop_pieces.
Qed.

Lemma tokenize_acc st text result :
  eval (tokenize text result) st =
  rbind (eval (tokenize text []) st) (fun new => Ret (result ++ new)).
Proof.
  rewrite !tokenize_pieces, rbind_assoc. apply rbind_ext. intros w.
  rewrite rbind_assoc. apply rbind_ext. intros new. done.
Qed.

Lemma utf8ToWString_not_fuel_aux n : forall s,
  (length s <= n)%nat -> utf8ToWString s <> Fuel.
Proof.
  induction n as [|n IH]; intros [|ch s] Hs; try done; simpl in Hs; [lia|].
  assert (Hrec : forall s', (length s' <= length s)%nat ->
            forall f : list Z -> res (list Z), (forall w, f w <> Fuel) ->
            rbind (utf8ToWString s') f <> Fuel).
  { intros s' Hs' f Hf. pose proof (IH s' ltac:(lia)).
    destruct (utf8ToWString s'); simpl; auto. }
  simpl. repeat case_match; try done; subst; apply Hrec; simpl; try lia; done.
Qed.

Lemma utf8ToWString_not_fuel s : utf8ToWString s <> Fuel.
Proof. by apply (utf8ToWString_not_fuel_aux (length s)). Qed.

Lemma tokenize_not_fuel st text result : eval (tokenize text result) st <> Fuel.
Proof.
  rewrite tokenize_pieces. pose proof (utf8ToWString_not_fuel text).
  destruct (utf8ToWString text) as [w| |]; simpl; [|done..].
  pose proof (pieces_not_fuel st (pretokens w)).
  destruct (pieces st (pretokens w)); simpl; done.
Qed.

(** ** [encode]: splitting on the marker *)

Lemma find_from_shift pat text : forall i,
  find_from pat text i = (fun k => (i + k)%nat) <$> find_from pat text 0.
Proof.
  induction text as [|c text IH]; intros i; simpl.
  - destruct (starts_with pat []); simpl; [f_equal; lia|done].
  - destruct (starts_with pat (c :: text)); simpl; [f_equal; lia|].
    rewrite (IH (S i)), (IH 1%nat). destruct (find_from pat text 0); simpl; [f_equal; lia|done].
Qed.

Lemma string_find_drop text pat pos :
  (pos <= length text)%nat ->
  string_find text pat pos = (fun k => (pos + k)%nat) <$> find_from pat (drop pos text) 0.
Proof.
  intros Hpos. unfold string_find. rewrite (proj2 (Nat.leb_le _ _)) by done.
  apply find_from_shift.
Qed.

Lemma find_from_nil pat : pat <> [] -> find_from pat [] 0 = None.
Proof. by destruct pat. Qed.

Lemma split_fuel_enough eot : eot <> [] -> forall f1 f2 text,
  (length text <= f1)%nat -> (length text <= f2)%nat ->
  split_fuel f1 eot text = split_fuel f2 eot text.
Proof.
  intros Hne. induction f1 as [|f1 IH]; intros f2 text H1 H2.
  - destruct text; [|simpl in H1; lia]. destruct f2; cbn [split_fuel]; [done|].
    by rewrite find_from_nil.
  - destruct f2 as [|f2].
    + destruct text; [|simpl in H2; lia]. cbn [split_fuel]. by rewrite find_from_nil.
    + cbn [split_fuel]. destruct (find_from eot text 0) as [i|] eqn:Hf; [|done].
      destruct (find_from_spec _ _ _ _ Hf) as (k & -> & Hlen & _).
      f_equal. assert (length eot <> 0%nat) by (by destruct eot).
      apply IH; rewrite length_drop; lia.
Qed.

Lemma split_on_found eot text i :
  eot <> [] -> find_from eot text 0 = Some i ->
  split_on eot text = take i text :: split_on eot (drop (i + length eot) text).
Proof.
  intros Hne Hf. unfold split_on.
  destruct (find_from_spec _ _ _ _ Hf) as (k & -> & Hlen & _).
  assert (length eot <> 0%nat) by (by destruct eot).
  destruct (length text) as [|n] eqn:Hn; [lia|].
  cbn [split_fuel]. rewrite Hf. f_equal.
  apply split_fuel_enough; [done|..]; rewrite length_drop; lia.
Qed.

Lemma split_on_not_found eot text :
  find_from eot text 0 = None -> split_on eot text = [text].
Proof.
  intros Hf. unfold split_on. destruct (length text); cbn [split_fuel]; [done|]. by rewrite Hf.
Qed.

Lemma split_on_nonempty eot text : split_on eot text <> [].
Proof.
  unfold split_on. destruct (length text); cbn [split_fuel]; [done|].
  by destruct (find_from eot text 0).
Qed.

Lemma segment_tokens_cons st eot segment segments :
  segments <> [] ->
  segment_tokens st eot (segment :: segments) =
  rbind (eval (tokenize segment []) st) (fun a =>
  rbind (segment_tokens st eot segments) (fun b => Ret (a ++ eot :: b))).
Proof. intros Hne. cbn [segment_tokens]. by destruct segments. Qed.

Lemma encode_loop_tokens st text eot :
  eot <> [] -> forall fuel s tokens,
  (s <= length text)%nat -> (length text - s < fuel)%nat ->
  eval (let* split := encode_loop fuel text eot s (string_find text eot s) tokens in
        let* rest := lift (substr text (snd split) None) in
        tokenize rest (fst split)) st =
  rbind (segment_tokens st eot (split_on eot (drop s text)))
        (fun new => Ret (tokens ++ new)).
Proof.
  intros Hne. assert (Heot : length eot <> 0%nat) by (by destruct eot).
  induction fuel as [|fuel IH]; intros s tokens Hs Hfuel; [lia|].
  rewrite string_find_drop by done.
  destruct (find_from eot (drop s text) 0) as [k|] eqn:Hf; simpl fmap.
  - destruct (find_from_spec _ _ _ _ Hf) as (k' & Hk' & Hlen & _).
    simpl in Hk'. subst k'. rewrite length_drop in Hlen.
    rewrite (split_on_found _ _ _ Hne Hf).
    rewrite segment_tokens_cons by apply split_on_nonempty.
    cbn [encode_loop]. rewrite eval_bind by ro.
    rewrite eval_bind by ro. rewrite eval_lift. unfold substr at 1.
    rewrite (proj2 (Nat.ltb_ge _ _)) by lia. cbn [rbind].
    replace (s + k - s)%nat with k by lia.
    rewrite eval_bind by ro.
    rewrite tokenize_acc.
    rewrite !rbind_assoc. apply rbind_ext. intros a. cbn [rbind].
    pose proof (IH (s + k + length eot)%nat ((tokens ++ a) ++ [eot]) ltac:(lia) ltac:(lia)) as IH'.
    rewrite eval_bind in IH' by ro.
    rewrite IH'. rewrite drop_drop.
    replace (s + (k + length eot))%nat with (s + k + length eot)%nat by lia.
    rewrite rbind_assoc. apply rbind_ext. intros b. cbn [rbind].
    by rewrite <- !app_assoc.
  - rewrite (split_on_not_found _ _ Hf).
    cbn [encode_loop]. rewrite eval_bind by ro. rewrite eval_ret. cbn [rbind].
    rewrite eval_bind by ro. rewrite eval_lift. unfold substr. cbn [fst snd].
    rewrite (proj2 (Nat.ltb_ge _ _)) by lia. cbn [rbind].
    rewrite tokenize_acc. cbn [segment_tokens]. by rewrite rbind_ret.
Qed.

(** With a non-empty marker and a budget above the length of the text,
    [encode] is: split, tokenize each segment, marker between, look up. *)
Lemma encode_eq_spec st fuel text eot :
  eot <> [] -> (length text < fuel)%nat ->
  eval (encode fuel text eot) st = encode_spec st text eot.
Proof.
  intros Hne Hfuel. unfold encode, encode_spec.
  pose proof (encode_loop_tokens st text eot Hne fuel 0 [] ltac:(lia) ltac:(lia)) as Hloop.
  rewrite eval_bind in Hloop by ro.
  rewrite eval_bind by ro.
  assert (Hassoc : forall (r : res (list (list Z) * nat)),
    rbind r (fun split => eval (let* rest := lift (substr text (snd split) None) in
                                let* tokens := tokenize rest (fst split) in
                                lookup_ids tokens) st) =
    rbind (rbind r (fun split => eval (let* rest := lift (substr text (snd split) None) in
                                       tokenize rest (fst split)) st))
          (fun tokens => eval (lookup_ids tokens) st)).
  { intros r. rewrite rbind_assoc. apply rbind_ext. intros split.
    rewrite !eval_bind by ro. rewrite rbind_assoc. apply rbind_ext. intros rest.
    by rewrite eval_bind by ro. }
  rewrite Hassoc, Hloop. simpl drop. rewrite rbind_assoc. apply rbind_ext. intros new. done.
Qed.

Lemma join_split_fuel eot fuel : forall text,
  join eot (split_fuel fuel eot text) = text.
Proof.
  induction fuel as [|fuel IH]; intros text; cbn [split_fuel]; [done|].
  destruct (find_from eot text 0) as [i|] eqn:Hf; [|done].
  destruct (find_from_spec _ _ _ _ Hf) as (k & Hk & Hlen & Htake & _).
  simpl in Hk. subst k. cbn [join]. rewrite IH.
  destruct (split_fuel fuel eot (drop (i + length eot) text)) eqn:Hsp.
  { destruct fuel; cbn [split_fuel] in Hsp; [done|].
    by destruct (find_from eot (drop (i + length eot) text) 0). }
  rewrite <- Htake at 1. rewrite <- (take_drop i text) at 4.
  f_equal. rewrite <- (take_drop (length eot) (drop i text)) at 2.
  by rewrite drop_drop.
Qed.

Lemma lookup_ids_not_fuel st tokens : eval (lookup_ids tokens) st <> Fuel.
Proof.
  induction tokens as [|t ts IH]; simpl; [done|].
  rewrite eval_bind, eval_umap_at by auto with ro.
  destruct (m_t2i st !! t); simpl; [|done].
  rewrite eval_bind by auto with ro.
  destruct (eval (lookup_ids ts) st); simpl; done.
Qed.

Lemma lookup_ids_app st a : forall b,
  eval (lookup_ids (a ++ b)) st =
  rbind (eval (lookup_ids a) st) (fun x =>
  rbind (eval (lookup_ids b) st) (fun y => Ret (x ++ y))).
Proof.
  induction a as [|t a IH]; intros b; simpl.
  - by rewrite rbind_ret.
  - rewrite !eval_bind by auto with ro. rewrite rbind_assoc. apply rbind_ext. intros id.
    rewrite !eval_bind by auto with ro. rewrite IH, !rbind_assoc. apply rbind_ext. intros x.
    simpl. rewrite rbind_assoc. apply rbind_ext. intros y. done.
Qed.

Lemma segment_tokens_not_fuel st eot segments : segment_tokens st eot segments <> Fuel.
Proof.
  induction segments as [|sg sgs IH]; cbn [segment_tokens]; [done|].
  pose proof (tokenize_not_fuel st sg []).
  destruct (eval (tokenize sg []) st); cbn [rbind]; [|done..].
  destruct sgs; [done|]. destruct (segment_tokens st eot (l :: sgs)); done.
Qed.

Lemma encode_spec_not_fuel st text eot : encode_spec st text eot <> Fuel.
Proof.
  unfold encode_spec. pose proof (segment_tokens_not_fuel st eot (split_on eot text)).
  destruct (segment_tokens st eot (split_on eot text)); cbn [rbind]; [|done..].
  apply lookup_ids_not_fuel.
Qed.

Lemma tokenize_nil st tokens : eval (tokenize [] tokens) st = Ret tokens.
Proof. rewrite tokenize_pieces. simpl. by rewrite app_nil_r. Qed.

Lemma encode_loop_empty_marker st text fuel : forall s tokens,
  (s <= length text)%nat ->
  eval (encode_loop fuel text [] s (Some s) tokens) st = Fuel.
Proof.
  induction fuel as [|fuel IH]; intros s tokens Hs; cbn [encode_loop]; [done|].
  rewrite eval_bind by ro. rewrite eval_lift. unfold substr.
  rewrite (proj2 (Nat.ltb_ge _ _)) by lia. cbn [rbind].
  replace (s - s)%nat with 0%nat by lia. rewrite take_0.
  rewrite eval_bind by ro. rewrite tokenize_nil. cbn [rbind].
  cbn [length]. rewrite Nat.add_0_r. rewrite string_find_empty by done.
  by apply IH.
Qed.

(** C10: under a non-empty marker every pass of the marker loop moves the
    search position forward, and [encode] comes to an end (with a result or
    an exception) within any budget above the length of the text; under the
    empty marker the position stays where it is and no budget is enough. *)
Theorem encode_terminates_iff_marker_nonempty (st : BPE) (text eot : list Z) :
  (eot <> [] ->
     (forall s i, string_find text eot s = Some i ->
                  (s < i + length eot <= length text)%nat) /\
     (forall fuel, (length text < fuel)%nat -> eval (encode fuel text eot) st <> Fuel)) /\
  ((forall s, (s <= length text)%nat ->
              string_find text [] s = Some s /\ (s + length (@nil Z))%nat = s) /\
   (forall fuel, eval (encode fuel text []) st = Fuel)).
Proof.
  split; [intros Hne; split|split].
  - intros s i Hf. destruct (string_find_spec _ _ _ _ Hf) as (H1 & H2 & _).
    assert (length eot <> 0%nat) by (by destruct eot). lia.
  - intros fuel Hfuel. rewrite encode_eq_spec by done. apply encode_spec_not_fuel.
  - intros s Hs. split; [by apply string_find_empty|simpl; lia].
  - intros fuel. unfold encode. rewrite eval_bind by ro.
    rewrite string_find_empty by lia.
    by rewrite encode_loop_empty_marker by lia.
Qed.

Lemma encode_terminates_iff_marker_nonempty_witness :
  eval (encode 24 (str "Hello<|endoftext|>World") (str "<|endoftext|>")) demo <> Fuel.
Proof.
  apply (proj1 (encode_terminates_iff_marker_nonempty demo
                  (str "Hello<|endoftext|>World") (str "<|endoftext|>"))).
  - discriminate.
  - vm_compute. lia.
Defined.

Lemma encode_no_marker st fuel text eot ids :
  eot <> [] -> (length text < fuel)%nat ->
  split_on eot text = [text] ->
  eval (encode fuel text eot) st = Ret ids ->
  exists tokens, eval (tokenize text []) st = Ret tokens /\
                 eval (lookup_ids tokens) st = Ret ids.
Proof.
  intros Hne Hfuel Hsplit. rewrite encode_eq_spec by done. unfold encode_spec.
  rewrite Hsplit. cbn [segment_tokens]. rewrite rbind_ret.
  destruct (eval (tokenize text []) st) as [tokens| |]; cbn [rbind]; [|done..].
  eauto.
Qed.

(** C8: for a non-empty marker (and a budget above the length of the text)
    [encode] cuts the text at the successive occurrences of the marker,
    tokenizes every segment on its own, puts the marker string itself (never
    byte-mapped, never merged) as one token between the segments' tokens,
    and looks every token up in [m_t2i]; the segments and the markers make up
    the text.  In particular the ids of [Hello<|endoftext|>World] are the
    ids of [Hello], the id of the marker, and the ids of [World]. *)
Theorem encode_splits_on_marker (st : BPE) (fuel : nat) (text eot : list Z) :
  eot <> [] -> (length text < fuel)%nat ->
  eval (encode fuel text eot) st = encode_spec st text eot /\
  join eot (split_on eot text) = text /\
  (forall ids1 ids2 e,
     eval (encode fuel (str "Hello") (str "<|endoftext|>")) st = Ret ids1 ->
     eval (encode fuel (str "World") (str "<|endoftext|>")) st = Ret ids2 ->
     m_t2i st !! str "<|endoftext|>" = Some e ->
     (23 < fuel)%nat ->
     eval (encode fuel (str "Hello<|endoftext|>World") (str "<|endoftext|>")) st
       = Ret (ids1 ++ [e] ++ ids2)).
Proof.
  intros Hne Hfuel. split; [by apply encode_eq_spec|]. split; [apply join_split_fuel|].
  intros ids1 ids2 e H1 H2 He Hf.
  assert (Hm : str "<|endoftext|>" <> []) by discriminate.
  apply encode_no_marker in H1 as (t1 & Ht1 & Hl1);
    [|done|simpl; lia|by vm_compute].
  apply encode_no_marker in H2 as (t2 & Ht2 & Hl2);
    [|done|simpl; lia|by vm_compute].
  rewrite encode_eq_spec by (done || (simpl; lia)). unfold encode_spec.
  replace (split_on (str "<|endoftext|>") (str "Hello<|endoftext|>World"))
    with [str "Hello"; str "World"] by (by vm_compute).
  cbn [segment_tokens]. rewrite Ht1, Ht2. cbn [rbind].
  rewrite lookup_ids_app, Hl1. cbn [rbind].
  cbn [lookup_ids]. rewrite eval_bind, eval_umap_at, He by auto with ro. cbn [rbind].
  rewrite eval_bind, Hl2 by auto with ro. cbn [rbind]. done.
Qed.

Lemma encode_splits_on_marker_witness :
  eval (encode 24 (str "Hello<|endoftext|>World") (str "<|endoftext|>")) demo
    = encode_spec demo (str "Hello<|endoftext|>World") (str "<|endoftext|>") /\
  join (str "<|endoftext|>") (split_on (str "<|endoftext|>") (str "Hello<|endoftext|>World"))
    = str "Hello<|endoftext|>World" /\
  eval (encode 24 (str "Hello<|endoftext|>World") (str "<|endoftext|>")) demo
    = Ret ([1; 2] ++ [3] ++ [4; 5; 6; 7]).
Proof.
  destruct (encode_splits_on_marker demo 24 (str "Hello<|endoftext|>World")
              (str "<|endoftext|>")) as (Ha & Hb & Hc).
  - discriminate.
  - vm_compute. lia.
  - split; [exact Ha|]. split; [exact Hb|].
    apply Hc; [by vm_compute|by vm_compute|by vm_compute|lia].
Defined.

(** ** The codec on small codepoints *)

Lemma utf8_small_checked : forallb check_utf8_small (seqZ 0 2048) = true.
Proof. vm_compute. reflexivity. Qed.

Lemma utf8_small_char c rest :
  0 <= c < 2048 ->
  utf8ToWString (utf8_of_wchar c ++ rest) = rbind (utf8ToWString rest) (fun w => Ret (c :: w)).
Proof.
  intros Hc.
  assert (Hin : In c (seqZ 0 2048)) by (apply list_elem_of_In, elem_of_seqZ; lia).
  pose proof (proj1 (forallb_forall _ _) utf8_small_checked c Hin) as Hk.
  unfold check_utf8_small in Hk. unfold utf8_of_wchar.
  destruct (Z.leb_spec c 0x7f) as [Hle|Hgt].
  - apply Z.eqb_eq in Hk. rewrite Hk. cbn [app utf8ToWString].
    by rewrite (proj2 (Z.leb_le c 0x7f)) by done.
  - rewrite (proj2 (Z.leb_le c 0x7ff)) by lia.
    cbv zeta in Hk. apply andb_true_iff in Hk as [Hk Hk3].
    apply andb_true_iff in Hk as [Hk1 Hk2]. apply negb_true_iff in Hk1.
    apply Z.eqb_eq in Hk3.
    cbn [app utf8ToWString]. rewrite Hk1, Hk2. by rewrite Hk3.
Qed.

Lemma utf8_small_string W :
  Forall (fun c => 0 <= c < 2048) W -> utf8ToWString (wstringToUTF8 W) = Ret W.
Proof.
  induction 1 as [|c W Hc _ IH]; [done|].
  cbn [wstringToUTF8]. rewrite utf8_small_char by done. by rewrite IH.
Qed.

Lemma wstringToUTF8_app a b : wstringToUTF8 (a ++ b) = wstringToUTF8 a ++ wstringToUTF8 b.
Proof. induction a as [|c a IH]; simpl; [done|]. by rewrite IH, app_assoc. Qed.

Lemma wstringToUTF8_concat l : wstringToUTF8 (concat l) = concat (map wstringToUTF8 l).
Proof. induction l as [|a l IH]; simpl; [done|]. by rewrite wstringToUTF8_app, IH. Qed.

Lemma to_char_range x : 0 <= to_char x < 256.
Proof. unfold to_char. apply Z.mod_pos_bound. lia. Qed.

Lemma wstringToUTF8_bytes W : Forall (fun b => 0 <= b < 256) (wstringToUTF8 W).
Proof.
  induction W as [|c W IH]; simpl; [done|].
  apply Forall_app. split; [|done]. unfold utf8_of_wchar.
  repeat case_match; repeat constructor; apply to_char_range.
Qed.

Lemma wstringToUTF8_ascii W :
  Forall (fun c => 0 <= c <= 127) W -> wstringToUTF8 W = W.
Proof.
  induction 1 as [|c W Hc _ IH]; [done|]. simpl. rewrite IH. unfold utf8_of_wchar.
  rewrite (proj2 (Z.leb_le c 127)) by lia. unfold to_char. rewrite Z.mod_small by lia. done.
Qed.

(** ** The round trip *)

Lemma byte_table_small_checked :
  forallb (fun e : Z * Z => (0 <=? snd e) && (snd e <? 2048)) (map_to_list byte_table) = true.
Proof. vm_compute. reflexivity. Qed.

Lemma byte_table_small b c : byte_table !! b = Some c -> 0 <= c < 2048.
Proof.
  intros Hb.
  assert (Hin : In (b, c) (map_to_list byte_table)).
  { apply list_elem_of_In. by apply elem_of_map_to_list. }
  pose proof (proj1 (forallb_forall _ _) byte_table_small_checked _ Hin) as Hk.
  simpl in Hk. lia.
Qed.

Lemma decodes_nil : decodes [] [].
Proof. exists []. repeat split; constructor. Qed.

Lemma decodes_app t1 b1 t2 b2 :
  decodes t1 b1 -> decodes t2 b2 -> decodes (t1 ++ t2) (b1 ++ b2).
Proof.
  intros (W1 & H1 & S1 & F1) (W2 & H2 & S2 & F2). exists (W1 ++ W2).
  rewrite concat_app, H1, H2, wstringToUTF8_app.
  split; [done|]. split; [by apply Forall_app|by apply Forall2_app].
Qed.

Lemma decodes_marker eot : marker_printable eot -> decodes [eot] eot.
Proof.
  intros Hp. exists eot. split; [|split].
  - simpl. rewrite app_nil_r. symmetry. apply wstringToUTF8_ascii.
    eapply Forall_impl; [exact Hp|]. simpl. intros; lia.
  - eapply Forall_impl; [exact Hp|]. simpl. intros; lia.
  - induction Hp as [|c eot Hc _ IH]; constructor; [|done].
    destruct (byte_table_lookup c ltac:(lia)) as (c' & _ & Hu & Hexp).
    unfold expected_codepoint, printable in Hexp.
    rewrite (proj2 (Z.leb_le 33 c)), (proj2 (Z.leb_le c 126)) in Hexp by lia.
    simpl in Hexp. subst c'. split; [done|lia].
Qed.

Lemma byteEncodeToken_spec st token encoded :
  m_b2u st = byte_table ->
  Forall (fun b => 0 <= b < 256) token ->
  eval (byteEncodeToken token) st = Ret encoded ->
  Forall (fun c => 0 <= c < 2048) encoded /\
  Forall2 (fun c b => codepoint_table !! c = Some b /\ 0 <= b < 256) encoded token.
Proof.
  intros Hb2u Hbytes. revert encoded.
  induction Hbytes as [|b token Hb _ IH]; intros encoded; simpl.
  - intros [= <-]. split; constructor.
  - rewrite eval_bind, eval_umap_at, Hb2u by auto with ro.
    unfold to_uint8. rewrite Z.mod_small by lia.
    destruct (byte_table !! b) as [c|] eqn:Hc; [|done]. cbn [rbind].
    rewrite eval_bind by auto with ro.
    destruct (eval (byteEncodeToken token) st) as [e| |]; [|done..]. cbn [rbind].
    intros [= <-]. destruct (IH e eq_refl) as [IH1 IH2].
    destruct (byte_table_lookup b Hb) as (c' & Hc' & Hu & _).
    assert (c' = c) as -> by congruence.
    split; constructor; eauto using byte_table_small.
Qed.

Lemma piece_decodes st wtoken tokens :
  m_b2u st = byte_table ->
  piece st wtoken = Ret tokens -> decodes tokens (wstringToUTF8 wtoken).
Proof.
  intros Hb2u. unfold piece. rewrite eval_bind by auto with ro.
  destruct (eval (byteEncodeToken (wstringToUTF8 wtoken)) st) as [e| |] eqn:He; [|done..].
  cbn [rbind]. rewrite eval_bind by auto with ro.
  destruct (bpe_spec st e []) as (syms & -> & Hcat & _). cbn [rbind app].
  intros [= <-].
  destruct (byteEncodeToken_spec st _ _ Hb2u (wstringToUTF8_bytes wtoken) He) as [Hs Hf].
  exists e. by rewrite <- wstringToUTF8_concat, Hcat.
Qed.

Lemma pieces_decodes st wtokens : forall tokens,
  m_b2u st = byte_table ->
  pieces st wtokens = Ret tokens -> decodes tokens (wstringToUTF8 (concat wtokens)).
Proof.
  induction wtokens as [|t ts IH]; intros tokens Hb2u; cbn [pieces].
  - intros [= <-]. apply decodes_nil.
  - destruct (piece st t) as [a| |] eqn:Ha; [|done..]. cbn [rbind].
    destruct (pieces st ts) as [b| |] eqn:Hb; [|done..]. cbn [rbind].
    intros [= <-]. simpl. rewrite wstringToUTF8_app.
    apply decodes_app; [by eapply piece_decodes|by apply IH].
Qed.

Lemma tokenize_decodes st segment tokens :
  m_b2u st = byte_table -> segment_covered segment ->
  eval (tokenize segment []) st = Ret tokens -> decodes tokens segment.
Proof.
  intros Hb2u (w & Hw & Hcov). rewrite tokenize_pieces, Hw. cbn [rbind].
  destruct (pieces st (pretokens w)) as [new| |] eqn:Hp; [|done..]. cbn [rbind app].
  intros [= <-]. rewrite <- Hcov. by eapply pieces_decodes.
Qed.

Lemma segment_tokens_decodes st eot segments : forall tokens,
  m_b2u st = byte_table -> marker_printable eot ->
  Forall segment_covered segments ->
  segment_tokens st eot segments = Ret tokens -> decodes tokens (join eot segments).
Proof.
  induction segments as [|sg sgs IH]; intros tokens Hb2u Hp Hcov; cbn [segment_tokens join].
  - intros [= <-]. apply decodes_nil.
  - apply Forall_cons in Hcov as [Hsg Hsgs].
    destruct (eval (tokenize sg []) st) as [a| |] eqn:Ha; [|done..]. cbn [rbind].
    destruct sgs as [|sg' sgs].
    + intros [= <-]. by eapply tokenize_decodes.
    + destruct (segment_tokens st eot (sg' :: sgs)) as [b| |] eqn:Hb; [|done..]. cbn [rbind].
      intros [= <-].
      apply decodes_app; [by eapply tokenize_decodes|].
      change (eot :: b) with ([eot] ++ b).
      apply decodes_app; [by apply decodes_marker|by apply IH].
Qed.

Lemma decode_concat_tokens st : forall tokens ids acc,
  vocab_consistent st ->
  eval (lookup_ids tokens) st = Ret ids ->
  eval (decode_concat ids acc) st = Ret (acc ++ concat tokens).
Proof.
  induction tokens as [|t ts IH]; intros ids acc Hv; simpl.
  - intros [= <-]. simpl. by rewrite app_nil_r.
  - rewrite eval_bind, eval_umap_at by auto with ro.
    destruct (m_t2i st !! t) as [id|] eqn:Ht; [|done]. cbn [rbind].
    rewrite eval_bind by auto with ro.
    destruct (eval (lookup_ids ts) st) as [ids'| |] eqn:Hl; [|done..]. cbn [rbind].
    intros [= <-]. simpl.
    rewrite eval_bind, eval_umap_at, (Hv _ _ Ht) by auto with ro. cbn [rbind].
    rewrite (IH ids' (acc ++ t) Hv eq_refl). by rewrite app_assoc.
Qed.

Lemma decode_bytes_spec st W : forall text acc,
  m_u2b st = codepoint_table ->
  Forall2 (fun c b => codepoint_table !! c = Some b /\ 0 <= b < 256) W text ->
  eval (decode_bytes W acc) st = Ret (acc ++ text).
Proof.
  induction W as [|c W IH]; intros text acc Hu2b HF.
  - apply Forall2_nil_inv_l in HF as ->. simpl. by rewrite app_nil_r.
  - apply Forall2_cons_inv_l in HF as (b & text' & [Hc Hb] & HF & ->).
    simpl. rewrite eval_bind, eval_umap_at, Hu2b, Hc by auto with ro. cbn [rbind].
    rewrite (IH text' _ Hu2b HF). unfold to_char. rewrite Z.mod_small by lia.
    by rewrite <- app_assoc.
Qed.

Lemma decode_decodes st tokens ids text :
  m_u2b st = codepoint_table -> vocab_consistent st ->
  eval (lookup_ids tokens) st = Ret ids ->
  decodes tokens text ->
  eval (decode ids) st = Ret text.
Proof.
  intros Hu2b Hv Hids (W & Hcat & Hsmall & HF). unfold decode.
  rewrite eval_bind by auto with ro.
  rewrite (decode_concat_tokens st tokens ids [] Hv Hids). cbn [rbind app].
  rewrite eval_bind, eval_lift by auto with ro.
  rewrite Hcat, utf8_small_string by done. cbn [rbind].
  by rewrite (decode_bytes_spec st W text [] Hu2b HF).
Qed.

(** *** Segments the pretokenizer covers *)

Lemma re_plus_head cls c w : cls c = true -> is_Some (re_plus cls (c :: w)).
Proof. intros Hc. unfold re_plus. simpl. rewrite Hc. eauto. Qed.

Lemma re_opt_space_plus_head cls c w :
  cls c = true -> is_Some (re_opt_space_plus cls (c :: w)).
Proof.
  intros Hc. unfold re_opt_space_plus.
  destruct (c =? 32); [|by apply re_plus_head].
  destruct (re_plus cls w) as [[m suffix]|]; [eauto|by apply re_plus_head].
Qed.

Lemma re_alt_some alts w :
  Exists (fun a => is_Some (a w)) alts -> is_Some (re_alt alts w).
Proof.
  induction 1 as [a alts Ha|a alts _ IH]; simpl.
  - destruct Ha as [r ->]. eauto.
  - destruct (a w); eauto.
Qed.

Lemma regex_match_here_head c w : c <> 95 -> is_Some (regex_match_here (c :: w)).
Proof.
  intros Hc. apply re_alt_some. do 7 apply Exists_cons_tl.
  destruct (re_letter c) eqn:Hl.
  { apply Exists_cons_hd. by apply re_opt_space_plus_head. }
  apply Exists_cons_tl.
  destruct (re_digit c) eqn:Hd.
  { apply Exists_cons_hd. by apply re_opt_space_plus_head. }
  apply Exists_cons_tl.
  destruct (re_space c) eqn:Hs.
  { apply Exists_cons_tl, Exists_cons_hd. by apply re_plus_head. }
  apply Exists_cons_hd. apply re_opt_space_plus_head.
  unfold re_other, re_word. rewrite Hs, Hl, Hd. simpl.
  by rewrite (proj2 (Z.eqb_neq c 95)).
Qed.

Lemma pretokens_cover fuel : forall w,
  (length w <= fuel)%nat -> Forall (fun c => c <> 95) w ->
  concat (pretokens_fuel fuel w) = w.
Proof.
  induction fuel as [|fuel IH]; intros [|c w] Hlen Hall; try done.
  - simpl in Hlen. lia.
  - apply Forall_cons in Hall as Hall'. destruct Hall' as [Hc _].
    cbn [pretokens_fuel]. rewrite regex_search_eq.
    destruct (regex_match_here_head c w Hc) as [[m suffix] Hm]. rewrite Hm.
    destruct (regex_match_here_splits _ _ _ Hm) as [Hne Heq].
    simpl. rewrite IH.
    + by rewrite Heq.
    + apply (f_equal length) in Heq. rewrite length_app in Heq.
      destruct m; [done|]. simpl in *. lia.
    + rewrite Heq in Hall. by apply Forall_app in Hall as [_ ?].
Qed.

Lemma utf8ToWString_ascii s : Forall (fun c => 0 <= c <= 127) s -> utf8ToWString s = Ret s.
Proof.
  induction 1 as [|c s Hc _ IH]; [done|]. simpl.
  rewrite (proj2 (Z.leb_le c 127)) by lia. by rewrite IH.
Qed.

Lemma plain_ascii_covered segment : plain_ascii segment -> segment_covered segment.
Proof.
  intros Hp. exists segment.
  assert (Hascii : Forall (fun c => 0 <= c <= 127) segment).
  { eapply Forall_impl; [exact Hp|]. simpl. tauto. }
  split; [by apply utf8ToWString_ascii|].
  unfold pretokens. rewrite pretokens_cover; [by apply wstringToUTF8_ascii|done|].
  eapply Forall_impl; [exact Hp|]. simpl. tauto.
Qed.

Lemma plain_ascii_split eot fuel : forall text,
  plain_ascii text -> Forall segment_covered (split_fuel fuel eot text).
Proof.
  induction fuel as [|fuel IH]; intros text Hp; cbn [split_fuel].
  - apply Forall_cons_2; [by apply plain_ascii_covered|apply Forall_nil_2].
  - destruct (find_from eot text 0) as [i|].
    + apply Forall_cons_2.
      * apply plain_ascii_covered. by apply Forall_take.
      * apply IH. by apply Forall_drop.
    + apply Forall_cons_2; [by apply plain_ascii_covered|apply Forall_nil_2].
Qed.

Lemma check_vocab_consistent st : check_vocab st = true -> vocab_consistent st.
Proof.
  intros Hall token id Ht.
  apply elem_of_map_to_list, list_elem_of_In in Ht.
  pose proof (proj1 (forallb_forall _ _) Hall _ Ht) as Hk. simpl in Hk.
  destruct (m_i2t st !! id) as [t|]; [|done].
  apply bool_decide_eq_true in Hk. by subst.
Qed.

Lemma marker_printable_check eot :
  forallb (fun c => (33 <=? c) && (c <=? 126)) eot = true -> marker_printable eot.
Proof.
  intros Hall. apply Forall_forall. intros c Hc. apply list_elem_of_In in Hc.
  pose proof (proj1 (forallb_forall _ _) Hall c Hc) as Hk. simpl in Hk. lia.
Qed.

Lemma alphabet_built_tables st :
  alphabet_built st -> m_b2u st = byte_table /\ m_u2b st = codepoint_table.
Proof.
  intros [H1 H2]. split.
  - etransitivity; [exact H1|]. apply bytesToUnicode_b2u.
  - etransitivity; [exact H2|]. apply bytesToUnicode_u2b.
Qed.

(** ** The pretokenizer and the underscore *)

Lemma take_while_Forall cls w : Forall (fun c => cls c = true) (take_while cls w).
Proof.
  induction w as [|c w IH]; simpl; [done|].
  destruct (cls c) eqn:Hc; [by constructor|done].
Qed.

Lemma re_literal_avoids lit :
  Forall (fun c => c <> 95) lit -> avoids_underscore (re_literal lit).
Proof.
  intros Hlit w m suffix. unfold re_literal.
  destruct (starts_with lit w); [|done]. by intros [= <- <-].
Qed.

Lemma re_plus_avoids cls : cls 95 = false -> avoids_underscore (re_plus cls).
Proof.
  intros H95 w m suffix. unfold re_plus.
  pose proof (take_while_Forall cls w) as Htw.
  destruct (take_while cls w) as [|c t]; [done|]. intros [= <- <-].
  eapply Forall_impl; [exact Htw|]. simpl. intros x Hx ->. congruence.
Qed.

Lemma re_opt_space_plus_avoids cls :
  cls 95 = false -> avoids_underscore (re_opt_space_plus cls).
Proof.
  intros H95 w m suffix. unfold re_opt_space_plus.
  destruct w as [|c w]; [done|].
  destruct (Z.eqb_spec c 32) as [->|Hc]; [|by apply re_plus_avoids].
  destruct (re_plus cls w) as [[m' s']|] eqn:Hp; [|by apply re_plus_avoids].
  intros [= <- <-]. constructor; [done|]. by eapply re_plus_avoids.
Qed.

Lemma re_alt_avoids alts : Forall avoids_underscore alts -> avoids_underscore (re_alt alts).
Proof.
  induction 1 as [|a alts Ha _ IH]; intros w m suffix; simpl; [done|].
  destruct (a w) as [[m' s']|] eqn:Haw; [|apply IH].
  intros [= <- <-]. by eapply Ha.
Qed.

Lemma regex_match_here_avoids : avoids_underscore regex_match_here.
Proof.
  apply re_alt_avoids.
  repeat (apply Forall_cons_2;
          [first [apply re_literal_avoids; repeat (apply Forall_cons_2; [discriminate|]);
                  apply Forall_nil_2
                 |apply re_opt_space_plus_avoids; reflexivity
                 |apply re_plus_avoids; reflexivity]|]).
  apply Forall_nil_2.
Qed.

Lemma regex_search_avoids : avoids_underscore regex_search.
Proof.
  intros w. induction w as [|c w IH]; intros m suffix; rewrite regex_search_eq.
  - destruct (regex_match_here []) as [[m' s']|] eqn:Hm; [|done].
    intros [= <- <-]. by eapply regex_match_here_avoids.
  - destruct (regex_match_here (c :: w)) as [[m' s']|] eqn:Hm; [|apply IH].
    intros [= <- <-]. by eapply regex_match_here_avoids.
Qed.

Lemma pretokens_fuel_avoid fuel : forall w,
  Forall (fun c => c <> 95) (concat (pretokens_fuel fuel w)).
Proof.
  induction fuel as [|fuel IH]; intros w; simpl.
  - by destruct (regex_search w) as [[m suffix]|].
  - destruct (regex_search w) as [[m suffix]|] eqn:Hs; [|done]. simpl.
    apply Forall_app. split; [by eapply regex_search_avoids|apply IH].
Qed.

(** The pretokens make up the whole text exactly when it has no underscore. *)
Lemma pretokens_cover_iff w :
  concat (pretokens w) = w <-> Forall (fun c => c <> 95) w.
Proof.
  split.
  - intros <-. apply pretokens_fuel_avoid.
  - by apply pretokens_cover.
Qed.

(** C2, on the code: no alternative of the pattern can start at an
    underscore (it belongs to [\w], so [[^\s\w]] refuses it, and it is neither
    a letter, a digit nor white space), [regex_search] therefore steps over
    it, and the pretokens of [a_b] are [a] and [b]: their concatenation is
    not the segment, and the tokens of the segment lack the underscore. *)
Theorem pretokenizer_skips_underscore :
  regex_match_here (str "_b") = None /\
  regex_search (str "_b") = Some (str "b", []) /\
  pretokens (str "a_b") = [str "a"; str "b"] /\
  concat (pretokens (str "a_b")) <> str "a_b" /\
  eval (tokenize (str "a_b") []) demo = Ret [str "a"; str "b"] /\
  m_t2i demo !! str "_" = Some 10.
Proof. vm_compute. repeat split; congruence. Qed.

(** ** Constructed tokenizers meet the conditions used above *)

Lemma loadVocab_result file st st' :
  loadVocab file st = (Ret tt, st') ->
  exists es, vocab_entries file = Ret es /\
    st' = mkBPE (m_bpeRanks st) (m_b2u st) (m_u2b st)
            (foldl (fun m e => umap_insert (fst e) (snd e) m) ∅ es)
            (foldl (fun m e => umap_insert (fst e) (snd e) m) ∅ (map swap es)).
Proof.
  unfold loadVocab, vocab_entries. unfold bind at 1, modify; simpl.
  unfold bind at 1; simpl. intros Hload.
  destruct (loadVocab_loop_spec (getlines file) [] 0
              (set_i2t (fun _ => ∅) (set_t2i (fun _ => ∅) st))) as [H1 H2].
  simpl in H1, H2. rewrite Hload in H1, H2. simpl in H1, H2.
  destruct (entries_from (getlines file) None) as [es|e|]; try done.
  exists es. split; [done|]. by rewrite (H2 es eq_refl).
Qed.

Lemma loadMergeRules_loop_ranks lines : forall n st st',
  loadMergeRules_loop lines n st = (Ret tt, st') ->
  (forall p r, m_bpeRanks st !! p = Some r -> r < n + Z.of_nat (length lines)) ->
  forall p r, m_bpeRanks st' !! p = Some r -> r < n + Z.of_nat (length lines).
Proof.
  induction lines as [|line lines IH]; intros n st st'; cbn [loadMergeRules_loop].
  - intros [= <-]. done.
  - destruct (0 <? n).
    + unfold bind at 1, lift.
      destruct (utf8ToWString (split_rule line).1) as [l| |]; [|done..].
      unfold bind at 1.
      destruct (utf8ToWString (split_rule line).2) as [r| |]; [|done..].
      unfold bind at 1, modify. intros Hrun Hst p k Hp.
      pose proof (IH _ _ _ Hrun) as IH'. cbn [length] in *.
      replace (n + Z.of_nat (S (length lines))) with (n + 1 + Z.of_nat (length lines)) by lia.
      apply (IH' ltac:(
        intros p' k'; simpl; rewrite umap_insert_lookup;
        destruct (m_bpeRanks st !! p') as [x|] eqn:Hx;
        [intros [= <-]; specialize (Hst _ _ Hx); lia
        |case_decide; [intros [= <-]; lia|done]]) p k Hp).
    + intros Hrun Hst p k Hp.
      pose proof (IH _ _ _ Hrun) as IH'. cbn [length] in *.
      replace (n + Z.of_nat (S (length lines))) with (n + 1 + Z.of_nat (length lines)) by lia.
      apply (IH' ltac:(intros p' k' Hx; specialize (Hst _ _ Hx); lia) p k Hp).
Qed.

Lemma BPE_new_steps mergesFile vocabsFile st :
  BPE_new mergesFile vocabsFile = Ret st ->
  exists st1 st2,
    loadMergeRules mergesFile (mkBPE ∅ ∅ ∅ ∅ ∅) = (Ret tt, st1) /\
    loadVocab vocabsFile st1 = (Ret tt, st2) /\
    st = bytesToUnicode st2.
Proof.
  unfold BPE_new, BPE_ctor. unfold bind at 1, modify at 1. unfold bind at 1.
  destruct (loadMergeRules mergesFile (mkBPE ∅ ∅ ∅ ∅ ∅)) as [[[]| |] st1] eqn:Hm; [|done..].
  unfold bind at 1.
  destruct (loadVocab vocabsFile st1) as [[[]| |] st2] eqn:Hv; [|done..].
  unfold modify. intros [= <-]. by exists st1, st2.
Qed.

(** A tokenizer that the constructor delivers has the built alphabet; its
    vocabulary maps agree when no id occurs twice in the vocabulary file; and
    its ranks are below the sentinel (they are line numbers of the file). *)
Lemma constructed_tokenizer mergesFile vocabsFile st :
  BPE_new mergesFile vocabsFile = Ret st ->
  alphabet_built st /\
  (forall es, vocab_entries vocabsFile = Ret es -> NoDup (map snd es) -> vocab_consistent st) /\
  (Z.of_nat (length (getlines mergesFile)) < SSIZE_MAX ->
   ranks_below_sentinel (m_bpeRanks st)).
Proof.
  intros Hnew. destruct (BPE_new_steps _ _ _ Hnew) as (st1 & st2 & Hm & Hv & ->).
  destruct (loadVocab_result _ _ _ Hv) as (es & Hes & ->).
  split; [|split].
  - split.
    + etransitivity; [apply bytesToUnicode_b2u|]. symmetry. apply bytesToUnicode_b2u.
    + etransitivity; [apply bytesToUnicode_u2b|]. symmetry. apply bytesToUnicode_u2b.
  - intros es' Hes' Hnd token id. rewrite Hes in Hes'. injection Hes' as <-.
    simpl. rewrite !umap_insert_fold_lookup, !lookup_empty. intros Ht.
    assert (Hin : (token, id) ∈ es).
    { clear -Ht. induction es as [|[t i] es IH]; simpl in Ht; [done|].
      case_decide; [injection Ht as <-; subst; by left|right; by apply IH]. }
    apply first_with_elem.
    + rewrite map_map. by rewrite (map_ext _ snd) by done.
    + apply list_elem_of_fmap. by exists (token, id).
  - intros Hlen p r Hp. simpl in Hp.
    unfold loadMergeRules in Hm. unfold bind at 1, modify in Hm.
    pose proof (loadMergeRules_loop_ranks _ _ _ _ Hm) as Hr. simpl in Hr.
    specialize (Hr ltac:(intros p' r' Hx; by rewrite lookup_empty in Hx) p r Hp). lia.
Qed.

(** * Further properties: codec, tables, tokenizer, and [main] *)

(** ** The codec on all code points *)

Lemma lor_mul_pow2 a b k :
  0 <= a -> 0 <= k -> 0 <= b < 2 ^ k -> Z.lor (a * 2 ^ k) b = a * 2 ^ k + b.
Proof.
  intros Ha Hk Hb.
  assert (Hland : Z.land (a * 2 ^ k) b = 0).
  { rewrite <- Z.shiftl_mul_pow2 by done. apply Z.bits_inj'. intros n Hn.
    rewrite Z.land_spec, Z.bits_0.
    destruct (Z.lt_ge_cases n k) as [Hlt|Hge].
    - by rewrite Z.shiftl_spec_low.
    - destruct (Z.eq_dec b 0) as [->|Hb0]; [by rewrite Z.bits_0, andb_false_r|].
      rewrite (Z.bits_above_log2 b n), andb_false_r; [done|lia|].
      assert (Z.log2 b < k) by (apply Z.log2_lt_pow2; lia). lia. }
  by rewrite <- Z.lxor_lor, <- Z.add_nocarry_lxor.
Qed.

Lemma land_low x k : 0 <= k -> Z.land x (2 ^ k - 1) = x mod 2 ^ k.
Proof.
  intros Hk. rewrite <- Z.land_ones by done. f_equal.
  rewrite Z.ones_equiv. lia.
Qed.

Lemma utf8_three_bytes c rest :
  0x800 <= c <= 0xffff ->
  utf8ToWString (utf8_of_wchar c ++ rest) = rbind (utf8ToWString rest) (fun w => Ret (c :: w)).
Proof.
  intros Hc. unfold utf8_of_wchar.
  rewrite (proj2 (Z.leb_gt c 0x7f)), (proj2 (Z.leb_gt c 0x7ff)), (proj2 (Z.leb_le c 0xffff)) by lia.
  rewrite !Z.shiftr_div_pow2 by lia.
  change 0x0f with (2 ^ 4 - 1). change 0x3f with (2 ^ 6 - 1).
  rewrite !land_low by lia.
  set (h := (c / 2 ^ 12) mod 2 ^ 4). set (m := (c / 2 ^ 6) mod 2 ^ 6). set (l := c mod 2 ^ 6).
  assert (Hh : 0 <= h < 16) by (unfold h; Z.div_mod_to_equations; lia).
  assert (Hm : 0 <= m < 64) by (unfold m; Z.div_mod_to_equations; lia).
  assert (Hl : 0 <= l < 64) by (unfold l; Z.div_mod_to_equations; lia).
  assert (Hcomb : c = h * 4096 + m * 64 + l) by (unfold h, m, l; Z.div_mod_to_equations; lia).
  change 0xe0 with (14 * 2 ^ 4). change 0x80 with (2 * 2 ^ 6).
  rewrite !lor_mul_pow2 by lia.
  unfold to_char. rewrite !Z.mod_small by lia.
  cbn [app utf8ToWString].
  rewrite (proj2 (Z.leb_gt _ 0x7f)), (proj2 (Z.leb_gt _ 0xdf)), (proj2 (Z.leb_le _ 0xef)) by lia.
  apply rbind_ext. intros w. f_equal. f_equal.
  rewrite !Z.shiftl_mul_pow2 by lia.
  change 0x0f with (2 ^ 4 - 1). change 0x3f with (2 ^ 6 - 1).
  rewrite !land_low by lia.
  replace ((14 * 2 ^ 4 + h) mod 2 ^ 4) with h by (Z.div_mod_to_equations; lia).
  replace ((2 * 2 ^ 6 + m) mod 2 ^ 6) with m by (Z.div_mod_to_equations; lia).
  replace ((2 * 2 ^ 6 + l) mod 2 ^ 6) with l by (Z.div_mod_to_equations; lia).
  replace (m * 2 ^ 6) with (m * 64) by lia.
  rewrite (lor_mul_pow2 h (m * 64) 12) by lia.
  replace (h * 2 ^ 12 + m * 64) with ((h * 64 + m) * 2 ^ 6) by lia.
  rewrite lor_mul_pow2 by lia. lia.
Qed.

Lemma utf8_four_bytes c rest :
  0x10000 <= c <= 0x10ffff ->
  utf8ToWString (utf8_of_wchar c ++ rest) = rbind (utf8ToWString rest) (fun w => Ret (c :: w)).
Proof.
  intros Hc. unfold utf8_of_wchar.
  rewrite (proj2 (Z.leb_gt c 0x7f)), (proj2 (Z.leb_gt c 0x7ff)), (proj2 (Z.leb_gt c 0xffff)),
    (proj2 (Z.leb_le c 0x10ffff)) by lia.
  rewrite !Z.shiftr_div_pow2 by lia.
  change 0x07 with (2 ^ 3 - 1). change 0x3f with (2 ^ 6 - 1).
  rewrite !land_low by lia.
  set (h := (c / 2 ^ 18) mod 2 ^ 3). set (m1 := (c / 2 ^ 12) mod 2 ^ 6).
  set (m2 := (c / 2 ^ 6) mod 2 ^ 6). set (l := c mod 2 ^ 6).
  assert (Hh : 0 <= h < 8) by (unfold h; Z.div_mod_to_equations; lia).
  assert (Hm1 : 0 <= m1 < 64) by (unfold m1; Z.div_mod_to_equations; lia).
  assert (Hm2 : 0 <= m2 < 64) by (unfold m2; Z.div_mod_to_equations; lia).
  assert (Hl : 0 <= l < 64) by (unfold l; Z.div_mod_to_equations; lia).
  assert (Hcomb : c = h * 262144 + m1 * 4096 + m2 * 64 + l)
    by (unfold h, m1, m2, l; Z.div_mod_to_equations; lia).
  change 0xf0 with (30 * 2 ^ 3). change 0x80 with (2 * 2 ^ 6).
  rewrite !lor_mul_pow2 by lia.
  unfold to_char. rewrite !Z.mod_small by lia.
  cbn [app utf8ToWString].
  rewrite (proj2 (Z.leb_gt _ 0x7f)), (proj2 (Z.leb_gt _ 0xdf)), (proj2 (Z.leb_gt _ 0xef)),
    (proj2 (Z.leb_le _ 0xf7)) by lia.
  apply rbind_ext. intros w. f_equal. f_equal.
  rewrite !Z.shiftl_mul_pow2 by lia.
  change 0x07 with (2 ^ 3 - 1). change 0x3f with (2 ^ 6 - 1).
  rewrite !land_low by lia.
  replace ((30 * 2 ^ 3 + h) mod 2 ^ 3) with h by (Z.div_mod_to_equations; lia).
  replace ((2 * 2 ^ 6 + m1) mod 2 ^ 6) with m1 by (Z.div_mod_to_equations; lia).
  replace ((2 * 2 ^ 6 + m2) mod 2 ^ 6) with m2 by (Z.div_mod_to_equations; lia).
  replace ((2 * 2 ^ 6 + l) mod 2 ^ 6) with l by (Z.div_mod_to_equations; lia).
  replace (m1 * 2 ^ 12) with (m1 * 4096) by lia.
  rewrite (lor_mul_pow2 h (m1 * 4096) 18) by lia.
  replace (h * 2 ^ 18 + m1 * 4096) with ((h * 64 + m1) * 2 ^ 12) by lia.
  replace (m2 * 2 ^ 6) with (m2 * 64) by lia.
  rewrite (lor_mul_pow2 (h * 64 + m1) (m2 * 64) 12) by lia.
  replace ((h * 64 + m1) * 2 ^ 12 + m2 * 64) with (((h * 64 + m1) * 64 + m2) * 2 ^ 6) by lia.
  rewrite lor_mul_pow2 by lia. lia.
Qed.

Lemma utf8_char c rest :
  0 <= c <= 0x10ffff ->
  utf8ToWString (utf8_of_wchar c ++ rest) = rbind (utf8ToWString rest) (fun w => Ret (c :: w)).
Proof.
  intros Hc. destruct (Z.lt_ge_cases c 0x800); [apply utf8_small_char; lia|].
  destruct (Z.le_gt_cases c 0xffff); [apply utf8_three_bytes|apply utf8_four_bytes]; lia.
Qed.

Lemma utf8_chars_prefix W rest :
  Forall (fun c => 0 <= c <= 0x10ffff) W ->
  utf8ToWString (wstringToUTF8 W ++ rest) = rbind (utf8ToWString rest) (fun w => Ret (W ++ w)).
Proof.
  induction 1 as [|c W Hc _ IH]; cbn [wstringToUTF8 app].
  - by rewrite rbind_ret.
  - rewrite <- app_assoc, utf8_char, IH, rbind_assoc by done. done.
Qed.

(** X1: a wide string of Unicode code points ([0 .. 0x10FFFF]) written by
    [wstringToUTF8] is read back unchanged by [utf8ToWString]. *)
Theorem utf8_round_trip (W : list Z) :
  Forall (fun c => 0 <= c <= 0x10ffff) W ->
  utf8ToWString (wstringToUTF8 W) = Ret W.
Proof.
  intros HW. rewrite <- (app_nil_r (wstringToUTF8 W)), utf8_chars_prefix by done.
  simpl. by rewrite app_nil_r.
Qed.

Lemma utf8_round_trip_witness :
  wstringToUTF8 [0x41; 0xe9; 0x20ac; 0x1f600] =
    [0x41; 0xc3; 0xa9; 0xe2; 0x82; 0xac; 0xf0; 0x9f; 0x98; 0x80] /\
  utf8ToWString (wstringToUTF8 [0x41; 0xe9; 0x20ac; 0x1f600]) = Ret [0x41; 0xe9; 0x20ac; 0x1f600].
Proof.
  split; [vm_compute; reflexivity|].
  apply (utf8_round_trip [0x41; 0xe9; 0x20ac; 0x1f600]).
  repeat (apply Forall_cons_2; [lia|]). apply Forall_nil_2.
Defined.

Lemma utf8_length_bound_aux n : forall s w,
  (length s <= n)%nat -> utf8ToWString s = Ret w -> (length w <= length s)%nat.
Proof.
  induction n as [|n IH]; intros [|ch s] w Hs; simpl in Hs; try lia.
  - intros [= <-]. done.
  - intros [= <-]. done.
  - assert (Hrec : forall s' x w', (length s' <= length s)%nat ->
              rbind (utf8ToWString s') (fun w => Ret (x :: w)) = Ret w' ->
              (length w' <= S (length s'))%nat).
    { intros s' x w' Hs'. destruct (utf8ToWString s') as [w0| |] eqn:Hw0; [|done..].
      intros [= <-]. pose proof (IH s' w0 ltac:(lia) Hw0). simpl. lia. }
    simpl. intros Hw.
    repeat case_match; try done; subst;
      first [ injection Hw as <-; simpl; lia
            | apply Hrec in Hw; simpl in *; lia ].
Qed.

(** X2: [utf8ToWString] never produces more wide characters than its input
    has bytes, so the capacity reserved at its start ([str.size()]) is
    enough. *)
Theorem utf8ToWString_length (s w : list Z) :
  utf8ToWString s = Ret w -> (length w <= length s)%nat.
Proof. by apply (utf8_length_bound_aux (length s)). Qed.

Lemma utf8ToWString_length_witness :
  utf8ToWString [0x41; 0xc3; 0xa9; 0xe2; 0x82; 0xac] = Ret [0x41; 0xe9; 0x20ac] /\
  (length [0x41; 0xe9; 0x20ac] <= length [0x41; 0xc3; 0xa9; 0xe2; 0x82; 0xac])%nat.
Proof.
  split; [vm_compute; reflexivity|].
  apply (utf8ToWString_length [0x41; 0xc3; 0xa9; 0xe2; 0x82; 0xac] [0x41; 0xe9; 0x20ac]).
  vm_compute. reflexivity.
Defined.

(** X3: [wstringToUTF8] writes at most four bytes per wide character, the
    capacity it reserves ([wstr.size() * 4]), and every value it writes is a
    byte. *)
Theorem wstringToUTF8_length (W : list Z) :
  (length (wstringToUTF8 W) <= 4 * length W)%nat /\
  Forall (fun b => 0 <= b < 256) (wstringToUTF8 W).
Proof.
  split; [|apply wstringToUTF8_bytes].
  induction W as [|c W IH]; simpl; [lia|]. rewrite length_app.
  assert (length (utf8_of_wchar c) <= 4)%nat; [|lia].
  unfold utf8_of_wchar. repeat case_match; simpl; lia.
Qed.

Lemma lor_four h m1 m2 l :
  0 <= h -> 0 <= m1 < 64 -> 0 <= m2 < 64 -> 0 <= l < 64 ->
  Z.lor (Z.lor (Z.lor (Z.shiftl h 18) (Z.shiftl m1 12)) (Z.shiftl m2 6)) l =
  h * 262144 + m1 * 4096 + m2 * 64 + l.
Proof.
  intros Hh Hm1 Hm2 Hl. rewrite !Z.shiftl_mul_pow2 by lia.
  replace (m1 * 2 ^ 12) with (m1 * 4096) by lia.
  rewrite (lor_mul_pow2 h (m1 * 4096) 18) by lia.
  replace (h * 2 ^ 18 + m1 * 4096) with ((h * 64 + m1) * 2 ^ 12) by lia.
  replace (m2 * 2 ^ 6) with (m2 * 64) by lia.
  rewrite (lor_mul_pow2 (h * 64 + m1) (m2 * 64) 12) by lia.
  replace ((h * 64 + m1) * 2 ^ 12 + m2 * 64) with (((h * 64 + m1) * 64 + m2) * 2 ^ 6) by lia.
  rewrite lor_mul_pow2 by lia. lia.
Qed.

(** X4: the reader accepts the lead bytes [F5 .. F7] and builds from them a
    code point above [0x10FFFF]; the writer has no branch for such a code
    point and writes nothing for it, so it is lost on the way back. *)
Theorem utf8_beyond_unicode_is_dropped (ch b1 b2 b3 : Z) :
  0xf5 <= ch <= 0xf7 ->
  exists wc, utf8ToWString [ch; b1; b2; b3] = Ret [wc] /\
             0x10ffff < wc /\
             forall W1 W2, wstringToUTF8 (W1 ++ wc :: W2) = wstringToUTF8 (W1 ++ W2).
Proof.
  intros Hch. eexists. split; [|split].
  - cbn [utf8ToWString].
    rewrite (proj2 (Z.leb_gt ch 0x7f)), (proj2 (Z.leb_gt ch 0xdf)), (proj2 (Z.leb_gt ch 0xef)),
      (proj2 (Z.leb_le ch 0xf7)) by lia.
    cbn [rbind]. reflexivity.
  - change 0x07 with (2 ^ 3 - 1). change 0x3f with (2 ^ 6 - 1).
    rewrite !land_low by lia.
    rewrite lor_four by (Z.div_mod_to_equations; lia).
    Z.div_mod_to_equations; lia.
  - intros W1 W2. rewrite !wstringToUTF8_app. f_equal. cbn [wstringToUTF8].
    set (wc := Z.lor _ _).
    assert (Hwc : 0x10ffff < wc).
    { unfold wc. change 0x07 with (2 ^ 3 - 1). change 0x3f with (2 ^ 6 - 1).
      rewrite !land_low by lia.
      rewrite lor_four by (Z.div_mod_to_equations; lia).
      Z.div_mod_to_equations; lia. }
    unfold utf8_of_wchar.
    by rewrite (proj2 (Z.leb_gt wc 0x7f)), (proj2 (Z.leb_gt wc 0x7ff)),
      (proj2 (Z.leb_gt wc 0xffff)), (proj2 (Z.leb_gt wc 0x10ffff)) by lia.
Qed.

Lemma utf8_beyond_unicode_is_dropped_witness :
  exists wc, utf8ToWString [0xf5; 0x80; 0x80; 0x80] = Ret [wc] /\
             0x10ffff < wc /\
             forall W1 W2, wstringToUTF8 (W1 ++ wc :: W2) = wstringToUTF8 (W1 ++ W2).
Proof. apply (utf8_beyond_unicode_is_dropped 0xf5 0x80 0x80 0x80). lia. Defined.

(** X5: a byte [F8 .. FF] where a character starts makes [utf8ToWString]
    throw [std::runtime_error], however many well-formed characters precede
    it and whatever follows. *)
Theorem utf8_invalid_lead_byte (W : list Z) (ch : Z) (rest : list Z) :
  Forall (fun c => 0 <= c <= 0x10ffff) W ->
  0xf8 <= ch ->
  utf8ToWString (wstringToUTF8 W ++ ch :: rest) = Exc RuntimeError.
Proof.
  intros HW Hch. rewrite utf8_chars_prefix by done. cbn [utf8ToWString].
  by rewrite (proj2 (Z.leb_gt ch 0x7f)), (proj2 (Z.leb_gt ch 0xdf)), (proj2 (Z.leb_gt ch 0xef)),
    (proj2 (Z.leb_gt ch 0xf7)) by lia.
Qed.

Lemma utf8_invalid_lead_byte_witness :
  utf8ToWString (wstringToUTF8 [0x41; 0x20ac] ++ 0xff :: [0x42]) = Exc RuntimeError.
Proof.
  apply (utf8_invalid_lead_byte [0x41; 0x20ac] 0xff [0x42]); [|lia].
  repeat (apply Forall_cons_2; [lia|]). apply Forall_nil_2.
Defined.

(** X6: the continuation bytes are read without a length test.  When the
    string ends in a lone lead byte [80 .. DF] the terminating NUL is taken
    as its continuation byte; when it ends in a lone lead byte [E0 .. F7]
    the second continuation byte is read behind the terminating NUL, outside
    the string. *)
Theorem utf8_truncated_sequence (W : list Z) (ch : Z) :
  Forall (fun c => 0 <= c <= 0x10ffff) W ->
  (0x80 <= ch <= 0xdf ->
     utf8ToWString (wstringToUTF8 W ++ [ch]) = Ret (W ++ [Z.shiftl (Z.land ch 0x1f) 6])) /\
  (0xe0 <= ch <= 0xf7 ->
     utf8ToWString (wstringToUTF8 W ++ [ch]) = Exc UndefinedRead).
Proof.
  intros HW. split; intros Hch; rewrite utf8_chars_prefix by done; cbn [utf8ToWString].
  - rewrite (proj2 (Z.leb_gt ch 0x7f)), (proj2 (Z.leb_le ch 0xdf)) by lia.
    cbn [rbind]. by rewrite Z.land_0_l, Z.lor_0_r.
  - rewrite (proj2 (Z.leb_gt ch 0x7f)), (proj2 (Z.leb_gt ch 0xdf)) by lia.
    destruct (ch <=? 0xef); [done|].
    by rewrite (proj2 (Z.leb_le ch 0xf7)) by lia.
Qed.

Lemma utf8_truncated_sequence_witness :
  utf8ToWString (wstringToUTF8 [0x41] ++ [0xc3]) = Ret ([0x41] ++ [Z.shiftl (Z.land 0xc3 0x1f) 6]) /\
  utf8ToWString (wstringToUTF8 [0x41] ++ [0xe2]) = Exc UndefinedRead.
Proof.
  assert (HW : Forall (fun c => 0 <= c <= 0x10ffff) [0x41]).
  { apply Forall_cons_2; [lia|]. apply Forall_nil_2. }
  split.
  - apply (proj1 (utf8_truncated_sequence [0x41] 0xc3 HW)). lia.
  - apply (proj2 (utf8_truncated_sequence [0x41] 0xe2 HW)). lia.
Defined.

(** ** [byteEncodeToken] and the byte loop of [decode] *)

Lemma byteEncodeToken_total st token :
  m_b2u st = byte_table ->
  exists encoded,
    eval (byteEncodeToken token) st = Ret encoded /\
    Forall (fun c => 0 <= c < 2048) encoded /\
    Forall2 (fun c b => codepoint_table !! c = Some b /\ 0 <= b < 256)
            encoded (map to_uint8 token).
Proof.
  intros Hb2u. induction token as [|b token (encoded & IH & Hsmall & HF)].
  - exists []. simpl. split; [done|]. split; constructor.
  - assert (Hb : 0 <= to_uint8 b < 256) by (unfold to_uint8; apply Z.mod_pos_bound; lia).
    destruct (byte_table_lookup _ Hb) as (c & Hc & Hu & _).
    exists (c :: encoded). split; [|split].
    + cbn [byteEncodeToken]. rewrite eval_bind, eval_umap_at, Hb2u, Hc by auto with ro.
      cbn [rbind]. rewrite eval_bind, IH by auto with ro. done.
    + constructor; [by eapply byte_table_small|done].
    + simpl. by constructor.
Qed.

(** X7: with the alphabet of [bytesToUnicode], [byteEncodeToken] never
    throws, gives one wide character per byte, and the byte loop of [decode]
    maps its result back to the bytes of the token. *)
Theorem byte_alphabet_round_trip (st : BPE) (token : list Z) :
  alphabet_built st ->
  exists encoded,
    eval (byteEncodeToken token) st = Ret encoded /\
    length encoded = length token /\
    eval (decode_bytes encoded []) st = Ret (map to_uint8 token).
Proof.
  intros Halpha. destruct (alphabet_built_tables st Halpha) as [Hb2u Hu2b].
  destruct (byteEncodeToken_total st token Hb2u) as (encoded & Hrun & _ & HF).
  exists encoded. split; [done|]. split.
  - apply Forall2_length in HF. by rewrite length_map in HF.
  - by rewrite (decode_bytes_spec st encoded (map to_uint8 token) [] Hu2b HF).
Qed.

Lemma demo_alphabet_built : alphabet_built demo.
Proof. split; vm_compute; reflexivity. Qed.

Lemma byte_alphabet_round_trip_witness :
  exists encoded,
    eval (byteEncodeToken [72; 32; 233]) demo = Ret encoded /\
    length encoded = length [72; 32; 233] /\
    eval (decode_bytes encoded []) demo = Ret (map to_uint8 [72; 32; 233]).
Proof.
  apply (byte_alphabet_round_trip demo [72; 32; 233]). exact demo_alphabet_built.
Defined.

(** ** [tokenize] *)

Lemma piece_total st wtoken :
  m_b2u st = byte_table -> exists tokens, piece st wtoken = Ret tokens.
Proof.
  intros Hb2u. unfold piece.
  destruct (byteEncodeToken_total st (wstringToUTF8 wtoken) Hb2u) as (encoded & Hrun & _).
  rewrite eval_bind, Hrun by auto with ro. cbn [rbind].
  destruct (bpe_spec st encoded []) as (syms & Hbpe & _).
  rewrite eval_bind, Hbpe by auto with ro. cbn [rbind]. rewrite eval_ret. eauto.
Qed.

Lemma pieces_total st wtokens :
  m_b2u st = byte_table -> exists tokens, pieces st wtokens = Ret tokens.
Proof.
  intros Hb2u. induction wtokens as [|t ts [b IH]]; cbn [pieces]; [eauto|].
  destruct (piece_total st t Hb2u) as [a ->]. rewrite IH. cbn [rbind]. eauto.
Qed.

(** X8: with the alphabet of [bytesToUnicode], the only way [tokenize] can
    fail is the decoding of its argument: when [utf8ToWString] accepts the
    text, [tokenize] returns and only appends to [result]; when it throws,
    [tokenize] throws the same exception. *)
Theorem tokenize_fails_only_in_codec (st : BPE) (text : list Z) (result : list (list Z)) :
  alphabet_built st ->
  (forall w, utf8ToWString text = Ret w ->
     exists new, eval (tokenize text result) st = Ret (result ++ new)) /\
  (forall e, utf8ToWString text = Exc e -> eval (tokenize text result) st = Exc e).
Proof.
  intros Halpha. destruct (alphabet_built_tables st Halpha) as [Hb2u _].
  rewrite tokenize_pieces. split.
  - intros w ->. cbn [rbind]. destruct (pieces_total st (pretokens w) Hb2u) as [new ->].
    cbn [rbind]. eauto.
  - by intros e ->.
Qed.

Lemma tokenize_fails_only_in_codec_witness :
  (exists new, eval (tokenize (str "Hello") [str "x"]) demo = Ret ([str "x"] ++ new)) /\
  eval (tokenize [0xff] [str "x"]) demo = Exc RuntimeError.
Proof.
  pose proof demo_alphabet_built as Ha.
  split.
  - apply (proj1 (tokenize_fails_only_in_codec demo (str "Hello") [str "x"] Ha) (str "Hello")).
    vm_compute. reflexivity.
  - apply (proj2 (tokenize_fails_only_in_codec demo [0xff] [str "x"] Ha) RuntimeError).
    vm_compute. reflexivity.
Defined.

Lemma codepoint_table_visible_checked :
  forallb (fun e : Z * Z =>
             forallb (fun b => (33 <=? b) && (b <=? 126) || (128 <=? b) && (b <=? 197))
                     (utf8_of_wchar (fst e)))
          (map_to_list codepoint_table) = true.
Proof. vm_compute. reflexivity. Qed.

Lemma codepoint_table_visible c b :
  codepoint_table !! c = Some b ->
  Forall (fun b => 33 <= b <= 126 \/ 128 <= b <= 197) (utf8_of_wchar c).
Proof.
  intros Hc.
  assert (Hin : In (c, b) (map_to_list codepoint_table)).
  { apply list_elem_of_In. by apply elem_of_map_to_list. }
  pose proof (proj1 (forallb_forall _ _) codepoint_table_visible_checked _ Hin) as Hk.
  cbn [fst] in Hk. apply Forall_forall. intros x Hx. apply list_elem_of_In in Hx.
  pose proof (proj1 (forallb_forall _ _) Hk x Hx) as Hx'. simpl in Hx'. lia.
Qed.

Lemma decodes_visible tokens text :
  decodes tokens text ->
  Forall (Forall (fun b => 33 <= b <= 126 \/ 128 <= b <= 197)) tokens.
Proof.
  intros (W & Hcat & _ & HF). apply Forall_concat. rewrite Hcat. clear Hcat.
  induction HF as [|c b W text [Hc _] _ IH]; cbn [wstringToUTF8]; [constructor|].
  apply Forall_app. split; [by eapply codepoint_table_visible|done].
Qed.

(** X9: with the alphabet of [bytesToUnicode], no token string that
    [tokenize] produces holds a blank, a line break, another control
    character or DEL: every byte of every token lies in [33 .. 126] or
    [128 .. 197].  (So every such token can stand on a line of the
    vocabulary file, and between the blanks of a line of the merges file.) *)
Theorem tokens_have_no_blank (st : BPE) (text : list Z) (tokens : list (list Z)) :
  alphabet_built st ->
  eval (tokenize text []) st = Ret tokens ->
  Forall (Forall (fun b => 33 <= b <= 126 \/ 128 <= b <= 197)) tokens.
Proof.
  intros Halpha. destruct (alphabet_built_tables st Halpha) as [Hb2u _].
  rewrite tokenize_pieces.
  destruct (utf8ToWString text) as [w| |]; [|done..]. cbn [rbind].
  destruct (pieces st (pretokens w)) as [new| |] eqn:Hp; [|done..]. cbn [rbind app].
  intros [= <-]. eapply decodes_visible. by eapply pieces_decodes.
Qed.

Lemma tokens_have_no_blank_witness :
  Forall (Forall (fun b => 33 <= b <= 126 \/ 128 <= b <= 197))
    [[72; 101]; [108; 108; 111]; [196; 160]; [87]; [111; 114]; [108]; [100]].
Proof.
  apply (tokens_have_no_blank demo (str "Hello World")).
  - exact demo_alphabet_built.
  - vm_compute. reflexivity.
Defined.

(** ** What the pretokenizer keeps *)

Lemma regex_search_skips w : forall m suffix,
  regex_search w = Some (m, suffix) ->
  exists skipped, w = skipped ++ m ++ suffix /\ Forall (fun c => c = 95) skipped.
Proof.
  induction w as [|c w IH]; intros m suffix; rewrite regex_search_eq.
  - destruct (regex_match_here []) as [[m' s']|] eqn:Hm; [|done].
    intros [= <- <-]. destruct (regex_match_here_splits _ _ _ Hm) as [_ Heq].
    exists []. split; [done|constructor].
  - destruct (regex_match_here (c :: w)) as [[m' s']|] eqn:Hm.
    + intros [= <- <-]. destruct (regex_match_here_splits _ _ _ Hm) as [_ Heq].
      exists []. split; [done|constructor].
    + intros Hs. destruct (IH _ _ Hs) as (skipped & -> & Hsk).
      exists (c :: skipped). split; [done|]. constructor; [|done].
      destruct (decide (c = 95)) as [|Hc]; [done|].
      destruct (regex_match_here_head c (skipped ++ m ++ suffix) Hc) as [r Hr]. congruence.
Qed.

Lemma regex_search_none w : regex_search w = None -> Forall (fun c => c = 95) w.
Proof.
  induction w as [|c w IH]; [constructor|]. rewrite regex_search_eq.
  destruct (regex_match_here (c :: w)) as [r|] eqn:Hm; [done|].
  intros Hs. constructor; [|by apply IH].
  destruct (decide (c = 95)) as [|Hc]; [done|].
  destruct (regex_match_here_head c w Hc) as [r Hr]. congruence.
Qed.

Lemma filter_underscores (l : list Z) :
  Forall (fun c => c = 95) l -> filter (fun c => c <> 95) l = [].
Proof.
  induction 1 as [|c l Hc _ IH]; [done|]. rewrite filter_cons_False by (intros Hn; apply Hn, Hc). done.
Qed.

Lemma filter_no_underscore (l : list Z) :
  Forall (fun c => c <> 95) l -> filter (fun c => c <> 95) l = l.
Proof.
  induction 1 as [|c l Hc _ IH]; [done|]. rewrite filter_cons_True by done. by rewrite IH.
Qed.

Lemma pretokens_fuel_filter fuel : forall w,
  (length w <= fuel)%nat ->
  concat (pretokens_fuel fuel w) = filter (fun c => c <> 95) w /\
  Forall (fun t => t <> []) (pretokens_fuel fuel w).
Proof.
  induction fuel as [|fuel IH]; intros w Hlen.
  - destruct w; [|simpl in Hlen; lia]. cbn [pretokens_fuel].
    destruct (regex_search []) as [[m suffix]|] eqn:Hs.
    + apply regex_search_shorter in Hs. simpl in Hs. lia.
    + split; [done|constructor].
  - cbn [pretokens_fuel].
    destruct (regex_search w) as [[m suffix]|] eqn:Hs.
    + destruct (regex_search_skips _ _ _ Hs) as (skipped & Hw & Hsk).
      destruct (regex_search_splits _ _ _ Hs) as [Hne _].
      pose proof (regex_search_shorter _ _ _ Hs) as Hshort.
      destruct (IH suffix ltac:(lia)) as [IH1 IH2].
      split; [|by constructor].
      cbn [concat]. rewrite IH1, Hw, !filter_app, (filter_underscores skipped) by done.
      rewrite (filter_no_underscore m); [done|]. by eapply regex_search_avoids.
    + split; [|constructor]. cbn [concat].
      by rewrite (filter_underscores w) by (by apply regex_search_none).
Qed.

(** X10: the pretokenizer cuts the text into non-empty pieces that, put
    together, are the text without its underscores: the underscore is the
    only character it leaves out, and it keeps the order of the others. *)
Theorem pretokens_are_text_without_underscores (w : list Z) :
  concat (pretokens w) = filter (fun c => c <> 95) w /\
  Forall (fun t => t <> []) (pretokens w).
Proof. by apply pretokens_fuel_filter. Qed.

(** ** [decode]: unknown ids and concatenation *)

Lemma decode_concat_missing st ids : forall acc,
  Exists (fun id => m_i2t st !! id = None) ids ->
  eval (decode_concat ids acc) st = Exc OutOfRange.
Proof.
  induction ids as [|id ids IH]; intros acc Hex; [by apply Exists_nil in Hex|].
  cbn [decode_concat]. rewrite eval_bind, eval_umap_at by auto with ro.
  destruct (m_i2t st !! id) as [t|] eqn:Ht; [|done]. cbn [rbind].
  apply IH. apply Exists_cons in Hex as [Hex|Hex]; [congruence|done].
Qed.

(** X11: [decode] looks every id up with [m_i2t.at] before it does anything
    else, so a single id that the vocabulary does not know makes the whole
    call throw [std::out_of_range], wherever the id stands in the list. *)
Theorem decode_unknown_id (st : BPE) (tokenIds : list Z) :
  Exists (fun id => m_i2t st !! id = None) tokenIds ->
  eval (decode tokenIds) st = Exc OutOfRange.
Proof.
  intros Hex. unfold decode. rewrite eval_bind by auto with ro.
  by rewrite decode_concat_missing.
Qed.

Lemma decode_unknown_id_witness :
  eval (decode [1; 2; 50256; 4]) demo = Exc OutOfRange.
Proof.
  apply (decode_unknown_id demo [1; 2; 50256; 4]).
  do 2 apply Exists_cons_tl. apply Exists_cons_hd. vm_compute. reflexivity.
Defined.

Lemma decode_concat_inv st ids : forall acc s,
  eval (decode_concat ids acc) st = Ret s ->
  exists tokens, Forall2 (fun id t => m_i2t st !! id = Some t) ids tokens /\
                 s = acc ++ concat tokens.
Proof.
  induction ids as [|id ids IH]; intros acc s; cbn [decode_concat].
  - intros [= <-]. exists []. split; [constructor|]. by rewrite app_nil_r.
  - rewrite eval_bind, eval_umap_at by auto with ro.
    destruct (m_i2t st !! id) as [t|] eqn:Ht; [|done]. cbn [rbind].
    intros Hrun. destruct (IH _ _ Hrun) as (tokens & HF & ->).
    exists (t :: tokens). split; [by constructor|]. simpl. by rewrite app_assoc.
Qed.

Lemma decode_concat_spec st ids tokens : forall acc,
  Forall2 (fun id t => m_i2t st !! id = Some t) ids tokens ->
  eval (decode_concat ids acc) st = Ret (acc ++ concat tokens).
Proof.
  intros acc HF. revert acc.
  induction HF as [|id t ids tokens Ht _ IH]; intros acc; cbn [decode_concat].
  - by rewrite app_nil_r.
  - rewrite eval_bind, eval_umap_at, Ht by auto with ro. cbn [rbind].
    rewrite IH. simpl. by rewrite app_assoc.
Qed.

Lemma decode_bytes_acc st W : forall acc,
  eval (decode_bytes W acc) st =
  rbind (eval (decode_bytes W []) st) (fun t => Ret (acc ++ t)).
Proof.
  induction W as [|c W IH]; intros acc; cbn [decode_bytes].
  - rewrite !eval_ret. simpl. by rewrite app_nil_r.
  - rewrite !eval_bind, eval_umap_at by auto with ro.
    destruct (m_u2b st !! c) as [b|]; [|done]. cbn [rbind].
    rewrite (IH (acc ++ [to_char b])), (IH ([] ++ [to_char b])), rbind_assoc.
    apply rbind_ext. intros t. simpl. by rewrite <- app_assoc.
Qed.

Lemma decode_bytes_app st W1 W2 : forall acc,
  eval (decode_bytes (W1 ++ W2) acc) st =
  rbind (eval (decode_bytes W1 acc) st) (fun t => eval (decode_bytes W2 t) st).
Proof.
  induction W1 as [|c W1 IH]; intros acc; cbn [decode_bytes app].
  - by rewrite eval_ret.
  - rewrite !eval_bind, eval_umap_at by auto with ro.
    destruct (m_u2b st !! c) as [b|]; [|done]. cbn [rbind]. apply IH.
Qed.

(** A token string that is the UTF-8 form of whole characters. *)
Lemma whole_characters_concat st ids tokens :
  Forall (fun id => forall t, m_i2t st !! id = Some t ->
            exists W, Forall (fun c => 0 <= c <= 0x10ffff) W /\ t = wstringToUTF8 W) ids ->
  Forall2 (fun id t => m_i2t st !! id = Some t) ids tokens ->
  exists W, Forall (fun c => 0 <= c <= 0x10ffff) W /\ concat tokens = wstringToUTF8 W.
Proof.
  intros Hwf HF. induction HF as [|id t ids tokens Ht _ IH].
  - exists []. split; [constructor|done].
  - apply Forall_cons in Hwf as [Hid Hwf].
    destruct (Hid t Ht) as (W1 & HW1 & ->). destruct (IH Hwf) as (W2 & HW2 & Hcat).
    exists (W1 ++ W2). split; [by apply Forall_app|].
    simpl. by rewrite Hcat, wstringToUTF8_app.
Qed.

Lemma decode_app st a b ta tb :
  Forall (fun id => forall t, m_i2t st !! id = Some t ->
            exists W, Forall (fun c => 0 <= c <= 0x10ffff) W /\ t = wstringToUTF8 W) a ->
  eval (decode a) st = Ret ta ->
  eval (decode b) st = Ret tb ->
  eval (decode (a ++ b)) st = Ret (ta ++ tb).
Proof.
  intros Hwf. unfold decode. rewrite !eval_bind by auto with ro.
  destruct (eval (decode_concat a []) st) as [sa| |] eqn:Ha; [|done..].
  destruct (eval (decode_concat b []) st) as [sb| |] eqn:Hb; [|done..].
  cbn [rbind]. rewrite !eval_bind, !eval_lift by auto with ro.
  destruct (decode_concat_inv _ _ _ _ Ha) as (tsa & HFa & ->).
  destruct (decode_concat_inv _ _ _ _ Hb) as (tsb & HFb & ->).
  destruct (whole_characters_concat st a tsa Hwf HFa) as (Wa & HWa & Hcat).
  rewrite (decode_concat_spec st (a ++ b) (tsa ++ tsb) []) by (by apply Forall2_app).
  cbn [rbind app]. rewrite concat_app, Hcat.
  rewrite utf8_chars_prefix by done.
  rewrite <- (app_nil_r (wstringToUTF8 Wa)), utf8_chars_prefix by done.
  cbn [utf8ToWString rbind]. rewrite app_nil_r.
  destruct (utf8ToWString (concat tsb)) as [Wb| |]; [|done..]. cbn [rbind].
  intros Hta Htb. rewrite eval_bind, eval_lift by auto with ro. cbn [rbind].
  rewrite decode_bytes_app, Hta. cbn [rbind].
  by rewrite decode_bytes_acc, Htb.
Qed.

(** X12: [decode] of a concatenation.  When every token string of the first
    list is the UTF-8 form of whole characters (as the token strings of a
    GPT-2 vocabulary are), decoding two id lists one after the other gives
    the same text as decoding them at once; this is what lets [main] print
    the generated tokens one by one. *)
Theorem decode_concatenation (st : BPE) (a b ta tb : list Z) :
  Forall (fun id => forall t, m_i2t st !! id = Some t ->
            exists W, Forall (fun c => 0 <= c <= 0x10ffff) W /\ t = wstringToUTF8 W) a ->
  eval (decode a) st = Ret ta ->
  eval (decode b) st = Ret tb ->
  eval (decode (a ++ b)) st = Ret (ta ++ tb).
Proof. apply decode_app. Qed.

Lemma demo_whole_characters ids :
  Forall (fun id => forall t, m_i2t demo !! id = Some t ->
            exists W, Forall (fun c => 0 <= c <= 0x10ffff) W /\ t = wstringToUTF8 W) ids.
Proof.
  apply Forall_forall. intros id _ t Ht.
  assert (Hin : In (id, t) (map_to_list (m_i2t demo))).
  { apply list_elem_of_In. by apply elem_of_map_to_list. }
  assert (Hall : forallb (fun e : Z * list Z =>
                   forallb (fun c => (0 <=? c) && (c <=? 127)) (snd e))
                   (map_to_list (m_i2t demo)) = true) by (vm_compute; reflexivity).
  pose proof (proj1 (forallb_forall _ _) Hall _ Hin) as Hk. cbn [snd] in Hk.
  assert (Hascii : Forall (fun c => 0 <= c <= 127) t).
  { apply Forall_forall. intros c Hc. apply list_elem_of_In in Hc.
    pose proof (proj1 (forallb_forall _ _) Hk c Hc) as Hc'. simpl in Hc'. lia. }
  exists t. split; [|by rewrite wstringToUTF8_ascii].
  eapply Forall_impl; [exact Hascii|]. simpl. intros; lia.
Qed.

Lemma decode_concatenation_witness :
  eval (decode ([1; 2] ++ [4; 5])) demo = Ret (str "Hello" ++ str "Wor").
Proof.
  apply (decode_concatenation demo [1; 2] [4; 5] (str "Hello") (str "Wor")).
  - apply demo_whole_characters.
  - vm_compute. reflexivity.
  - vm_compute. reflexivity.
Defined.

(** ** [encode]: ids, blank prompts, and texts around a marker *)

Lemma lookup_ids_inv st tokens : forall ids,
  eval (lookup_ids tokens) st = Ret ids ->
  Forall2 (fun t id => m_t2i st !! t = Some id) tokens ids.
Proof.
  induction tokens as [|t tokens IH]; intros ids; cbn [lookup_ids].
  - intros [= <-]. constructor.
  - rewrite eval_bind, eval_umap_at by auto with ro.
    destruct (m_t2i st !! t) as [id|] eqn:Ht; [|done]. cbn [rbind].
    rewrite eval_bind by auto with ro.
    destruct (eval (lookup_ids tokens) st) as [ids'| |]; [|done..]. cbn [rbind].
    intros [= <-]. constructor; [done|by apply IH].
Qed.

(** X13: every id that [encode] returns is the id the vocabulary gives to
    some token string: [encode] never invents an id, and with an empty
    vocabulary it can only return the empty list. *)
Theorem encode_ids_from_vocabulary (st : BPE) (fuel : nat) (text eot ids : list Z) :
  eval (encode fuel text eot) st = Ret ids ->
  Forall (fun id => exists token, m_t2i st !! token = Some id) ids /\
  (m_t2i st = ∅ -> ids = []).
Proof.
  unfold encode. rewrite eval_bind by ro.
  destruct (eval (encode_loop fuel text eot 0 (string_find text eot 0) []) st)
    as [split| |]; [|done..].
  cbn [rbind]. rewrite eval_bind, eval_lift by ro.
  destruct (substr text (snd split) None) as [rest| |]; [|done..].
  cbn [rbind]. rewrite eval_bind by ro.
  destruct (eval (tokenize rest (fst split)) st) as [tokens| |]; [|done..].
  cbn [rbind]. intros Hids. apply lookup_ids_inv in Hids.
  split.
  - induction Hids as [|t id tokens' ids' Ht _ IH]; constructor; eauto.
  - intros Hempty. destruct Hids as [|t id tokens' ids' Ht _]; [done|].
    by rewrite Hempty, lookup_empty in Ht.
Qed.

Lemma encode_ids_from_vocabulary_witness :
  Forall (fun id => exists token, m_t2i demo !! token = Some id) [1; 2] /\
  (m_t2i demo = ∅ -> [1; 2] = []).
Proof.
  apply (encode_ids_from_vocabulary demo 6 (str "Hello") (str "<|endoftext|>") [1; 2]).
  vm_compute. reflexivity.
Defined.

Lemma find_from_none_of_mismatch eot text :
  Exists (fun c => c <> 95) eot -> Forall (fun c => c = 95) text ->
  find_from eot text 0 = None.
Proof.
  intros Hex Hall. destruct (find_from eot text 0) as [j|] eqn:Hf; [|done].
  destruct (find_from_spec _ _ _ _ Hf) as (k & _ & _ & Htake & _).
  exfalso. apply Exists_exists in Hex as (c & Hc & Hne). apply Hne.
  rewrite <- Htake in Hc. apply elem_of_take in Hc as (i & Hc & _).
  rewrite lookup_drop in Hc.
  by apply (proj1 (Forall_lookup _ _) Hall _ _ Hc).
Qed.

Lemma pretokens_underscores w : Forall (fun c => c = 95) w -> pretokens w = [].
Proof.
  intros Hall. destruct (pretokens_fuel_filter (length w) w ltac:(lia)) as [Hcat Hne].
  fold (pretokens w) in Hcat, Hne. rewrite (filter_underscores w Hall) in Hcat.
  destruct (pretokens w) as [|t ts]; [done|].
  apply Forall_cons in Hne as [Ht _]. simpl in Hcat.
  apply app_eq_nil in Hcat as [? _]. done.
Qed.

(** X14: a text made of underscores only (the empty text included) encodes
    to no id at all, whatever the tables: the pretokenizer finds no match in
    it.  Such a prompt is not empty for [main], which then runs the model on
    an empty id sequence. *)
Theorem encode_of_underscores_is_empty (st : BPE) (fuel : nat) (text eot : list Z) :
  Exists (fun c => c <> 95) eot ->
  Forall (fun c => c = 95) text ->
  (length text < fuel)%nat ->
  eval (encode fuel text eot) st = Ret [].
Proof.
  intros Hex Hall Hfuel.
  assert (Hne : eot <> []) by (intros ->; by apply Exists_nil in Hex).
  rewrite encode_eq_spec by done. unfold encode_spec.
  rewrite split_on_not_found by (by apply find_from_none_of_mismatch).
  cbn [segment_tokens]. rewrite tokenize_pieces.
  rewrite utf8ToWString_ascii by (eapply Forall_impl; [exact Hall|]; simpl; intros; lia).
  cbn [rbind]. by rewrite pretokens_underscores.
Qed.

Lemma encode_of_underscores_is_empty_witness :
  eval (encode 4 (str "___") (str "<|endoftext|>")) demo = Ret [].
Proof.
  apply (encode_of_underscores_is_empty demo 4 (str "___") (str "<|endoftext|>")).
  - apply Exists_cons_hd. discriminate.
  - repeat (apply Forall_cons_2; [reflexivity|]). apply Forall_nil_2.
  - simpl. lia.
Defined.

Lemma find_from_prefix_none eot a rest :
  eot <> [] -> find_from eot (a ++ rest) 0 = Some (length a) -> find_from eot a 0 = None.
Proof.
  intros Hne Hf. destruct (find_from eot a 0) as [j|] eqn:Ha; [|done]. exfalso.
  destruct (find_from_spec _ _ _ _ Hf) as (k & Hk & _ & _ & Hmin).
  destruct (find_from_spec _ _ _ _ Ha) as (k' & _ & Hlen & Htake & _).
  assert (length eot <> 0%nat) by (by destruct eot).
  assert (Hs : starts_with eot (drop k' (a ++ rest)) = true).
  { apply starts_with_app. rewrite drop_app_le by lia.
    exists (drop (length eot) (drop k' a) ++ rest).
    rewrite app_assoc. f_equal. rewrite <- Htake at 1. by rewrite take_drop. }
  rewrite Hmin in Hs by lia. done.
Qed.

Lemma encode_spec_inv st text eot ids :
  encode_spec st text eot = Ret ids ->
  exists tokens, segment_tokens st eot (split_on eot text) = Ret tokens /\
                 eval (lookup_ids tokens) st = Ret ids.
Proof.
  unfold encode_spec.
  destruct (segment_tokens st eot (split_on eot text)) as [tokens| |]; [|done..].
  cbn [rbind]. eauto.
Qed.

(** X15: [encode] of a text around a marker.  When the first occurrence of
    the marker in [a ++ eot ++ b] is the one behind [a], the ids of the whole
    text are the ids of [a], the id of the marker string, and the ids of
    [b]. *)
Theorem encode_around_marker (st : BPE) (fuel : nat) (a b eot ia ib : list Z) (e : Z) :
  eot <> [] ->
  string_find (a ++ eot ++ b) eot 0 = Some (length a) ->
  (length (a ++ eot ++ b) < fuel)%nat ->
  eval (encode fuel a eot) st = Ret ia ->
  eval (encode fuel b eot) st = Ret ib ->
  m_t2i st !! eot = Some e ->
  eval (encode fuel (a ++ eot ++ b) eot) st = Ret (ia ++ [e] ++ ib).
Proof.
  intros Hne Hfind Hfuel Ha Hb He.
  rewrite !length_app in Hfuel.
  unfold string_find in Hfind. cbn [drop] in Hfind.
  destruct (0 <=? length (a ++ eot ++ b))%nat; [|done].
  rewrite encode_eq_spec in Ha, Hb by (done || lia).
  rewrite encode_eq_spec by (done || (rewrite !length_app; lia)).
  apply encode_spec_inv in Ha as (ta & Hta & Hla).
  apply encode_spec_inv in Hb as (tb & Htb & Hlb).
  rewrite split_on_not_found in Hta by (by eapply find_from_prefix_none).
  cbn [segment_tokens] in Hta.
  destruct (eval (tokenize a []) st) as [ta'| |] eqn:Htok; [|done..].
  cbn [rbind] in Hta. injection Hta as ->.
  unfold encode_spec. rewrite (split_on_found eot _ (length a)) by done.
  rewrite take_app_length, <- drop_drop, drop_app_length, drop_app_length.
  rewrite segment_tokens_cons by apply split_on_nonempty.
  rewrite Htok, Htb. cbn [rbind].
  rewrite lookup_ids_app, Hla. cbn [rbind lookup_ids].
  rewrite eval_bind, eval_umap_at, He by auto with ro. cbn [rbind].
  rewrite eval_bind, Hlb by auto with ro. done.
Qed.

Lemma encode_around_marker_witness :
  eval (encode 24 (str "ab" ++ str "<|endoftext|>" ++ str "World") (str "<|endoftext|>")) demo
    = Ret ([11] ++ [3] ++ [4; 5; 6; 7]).
Proof.
  apply (encode_around_marker demo 24 (str "ab") (str "World") (str "<|endoftext|>")
           [11] [4; 5; 6; 7] 3).
  - discriminate.
  - vm_compute. reflexivity.
  - vm_compute. lia.
  - vm_compute. reflexivity.
  - vm_compute. reflexivity.
  - vm_compute. reflexivity.
Defined.

(** ** [bpe] on every table *)

(** X16: [bpe] returns for every token and every table: it never throws and
    its loop ends within one pass per slot; it only appends to [result]; the
    symbols it appends spell the token; and a token of fewer than two
    characters (the empty one included) is appended as it is. *)
Theorem bpe_always_returns (st : BPE) (token : list Z) (result : list (list Z)) :
  exists syms,
    eval (bpe token result) st = Ret (result ++ syms) /\
    concat syms = token /\
    ((length token < 2)%nat -> syms = [token]).
Proof.
  destruct (bpe_spec st token result) as (syms & Hrun & Hcat & _).
  exists syms. split; [done|]. split; [done|]. intros Hshort.
  assert (Hpairs : getPairs token = []).
  { unfold getPairs. by rewrite (proj2 (Nat.ltb_lt _ _)) by done. }
  unfold bpe in Hrun. rewrite Hpairs in Hrun. cbn in Hrun.
  injection Hrun as Hrun. by apply app_inv_head in Hrun.
Qed.

Lemma bpe_always_returns_witness :
  exists syms,
    eval (bpe (str "a") [str "x"]) demo = Ret ([str "x"] ++ syms) /\
    concat syms = str "a" /\
    ((length (str "a") < 2)%nat -> syms = [str "a"]).
Proof. apply (bpe_always_returns demo (str "a") [str "x"]). Defined.

Lemma select_list_no_rule ranks v : forall t0,
  Forall (fun e => ranks !! snd e = None) v ->
  select_list ranks v SSIZE_MAX t0 = (SSIZE_MAX, t0).
Proof.
  induction v as [|[i p] v IH]; intros t0 Hall; [done|].
  apply Forall_cons in Hall as [Hp Hall]. cbn [select_list snd] in *.
  unfold score. rewrite Hp, Z.ltb_irrefl. by apply IH.
Qed.

Lemma slots_Forall (P : list Z * list Z -> Prop) ps : forall i merged,
  Forall P ps -> Forall (fun e => P (snd e)) (slots ps i merged).
Proof.
  induction ps as [|p ps IH]; intros i merged Hall; cbn [slots]; [constructor|].
  apply Forall_cons in Hall as [Hp Hall].
  case_decide; [by apply IH|]. constructor; [done|by apply IH].
Qed.

(** X17: when no pair of neighbouring characters of the token has a merge
    rule (in particular when the merge table is empty, as after a merges
    file that holds only its version line or could not be opened), [bpe]
    appends the token cut into its single characters. *)
Theorem bpe_without_applicable_rule (st : BPE) (token : list Z) (result : list (list Z)) :
  token <> [] ->
  Forall (fun p => m_bpeRanks st !! p = None) (getPairs token) ->
  eval (bpe token result) st = Ret (result ++ symbols_of token).
Proof.
  intros Hne Hall. destruct (getPairs_spec token Hne) as [Habs Hlen].
  unfold bpe. rewrite eval_bind by auto with ro.
  cbn [merge_loop]. rewrite eval_bind, select_loop_slots by auto with ro.
  rewrite select_list_no_rule
    by (by apply (slots_Forall (fun p => m_bpeRanks st !! p = None))).
  cbn [rbind snd]. rewrite Z.eqb_refl, eval_ret. cbn [rbind fst snd].
  rewrite size_empty.
  destruct (getPairs token) as [|p ps] eqn:Hp.
  - destruct token as [|c [|c' token]]; [done| |simpl in Hlen; lia].
    done.
  - cbn [Nat.eqb length]. rewrite eval_ret, emit_loop_view by set_solver.
    f_equal. f_equal. rewrite <- Habs. unfold abs_syms.
    assert (Hview : view (p :: ps) ∅ = p :: ps) by apply slots_empty.
    by rewrite Hview.
Qed.

Lemma bpe_without_applicable_rule_witness :
  eval (bpe (str "Wd") [str "x"]) demo = Ret ([str "x"] ++ symbols_of (str "Wd")).
Proof.
  apply (bpe_without_applicable_rule demo (str "Wd") [str "x"]).
  - discriminate.
  - apply Forall_cons_2; [vm_compute; reflexivity|apply Forall_nil_2].
Defined.

(** X18: for a tokenizer that the constructor has built from a merges file of
    fewer than [SSIZE_MAX] lines, [bpe] on a non-empty token is the reference
    algorithm: merge the leftmost pair of least rank until no neighbouring
    pair has a rule. *)
Theorem constructed_bpe_is_reference (mergesFile vocabsFile : option (list Z)) (st : BPE)
    (token : list Z) (result : list (list Z)) :
  BPE_new mergesFile vocabsFile = Ret st ->
  Z.of_nat (length (getlines mergesFile)) < SSIZE_MAX ->
  token <> [] ->
  eval (bpe token result) st = Ret (result ++ naive_bpe (m_bpeRanks st) (symbols_of token)) /\
  best_pair (m_bpeRanks st) (adjacent (naive_bpe (m_bpeRanks st) (symbols_of token))) = None.
Proof.
  intros Hnew Hlen Hne. destruct (constructed_tokenizer _ _ _ Hnew) as (_ & _ & Hranks).
  split; [by apply bpe_abs; [|apply Hranks]|apply naive_bpe_final].
Qed.

Lemma demo_constructed : BPE_new (Some demo_merges) (Some demo_vocab) = Ret demo.
Proof. vm_compute. reflexivity. Qed.

Lemma constructed_bpe_is_reference_witness :
  eval (bpe (str "Hello") []) demo =
    Ret ([] ++ naive_bpe (m_bpeRanks demo) (symbols_of (str "Hello"))) /\
  best_pair (m_bpeRanks demo) (adjacent (naive_bpe (m_bpeRanks demo) (symbols_of (str "Hello"))))
    = None.
Proof.
  apply (constructed_bpe_is_reference (Some demo_merges) (Some demo_vocab) demo (str "Hello") []).
  - exact demo_constructed.
  - vm_compute. reflexivity.
  - discriminate.
Defined.

(** ** The lambdas [left] and [right], and [getPairs] *)

(** X19: for a slot index [i] and a set of merged indices that are slot
    indices, [left] returns the nearest index below [i] that is not merged,
    or [-1] when there is none, and [right] returns the nearest index above
    [i] and below [cap] that is not merged, or [cap] when there is none. *)
Theorem left_right_nearest_unmerged (merged : gset Z) (i cap : Z) :
  0 <= i < cap ->
  (-1) ∉ merged ->
  (-1 <= left i merged < i /\ (left i merged ∉ merged) /\
   forall x, left i merged < x < i -> x ∈ merged) /\
  (i < right i cap merged <= cap /\
   (right i cap merged < cap -> right i cap merged ∉ merged) /\
   forall x, i < x < right i cap merged -> x ∈ merged).
Proof.
  intros Hi Hm. split; [apply left_spec|apply right_spec]; (done || lia).
Qed.

Lemma left_right_nearest_unmerged_witness :
  (-1 <= left 3 {[1; 2; 4]} < 3 /\ (left 3 {[1; 2; 4]} ∉ ({[1; 2; 4]} : gset Z)) /\
   forall x, left 3 {[1; 2; 4]} < x < 3 -> x ∈ ({[1; 2; 4]} : gset Z)) /\
  (3 < right 3 6 {[1; 2; 4]} <= 6 /\
   (right 3 6 {[1; 2; 4]} < 6 -> right 3 6 {[1; 2; 4]} ∉ ({[1; 2; 4]} : gset Z)) /\
   forall x, 3 < x < right 3 6 {[1; 2; 4]} -> x ∈ ({[1; 2; 4]} : gset Z)).
Proof.
  apply (left_right_nearest_unmerged {[1; 2; 4]} 3 6); [lia|].
  apply (bool_decide_unpack _). vm_compute. exact I.
Defined.

Lemma getPairs_loop_lookup word : forall previous (i : nat) a b,
  (previous :: word) !! i = Some a -> word !! i = Some b ->
  getPairs_loop previous word !! i = Some ([a], [b]).
Proof.
  induction word as [|c word IH]; intros previous i a b Ha Hb; [done|].
  destruct i as [|i]; simpl in *.
  - by injection Ha as <-; injection Hb as <-.
  - by apply IH.
Qed.

(** X20: [getPairs] gives one pair less than the word has characters (none
    for a word of fewer than two), and its pair number [i] is made of the
    characters number [i] and [i + 1] of the word, each as a string of
    length one. *)
Theorem getPairs_neighbours (word : list Z) :
  length (getPairs word) = (length word - 1)%nat /\
  forall (i : nat) a b, word !! i = Some a -> word !! S i = Some b ->
                        getPairs word !! i = Some ([a], [b]).
Proof.
  unfold getPairs. destruct word as [|c [|c' word]]; [done|done|].
  cbn [length Nat.ltb Nat.leb]. split.
  - destruct (getPairs_loop_syms (c' :: word) c) as (_ & _ & Hlen & _).
    rewrite Hlen. simpl. lia.
  - intros i a b Ha Hb. by apply getPairs_loop_lookup.
Qed.

Lemma getPairs_neighbours_witness :
  length (getPairs (str "abc")) = (length (str "abc") - 1)%nat /\
  getPairs (str "abc") !! 1%nat = Some ([98], [99]).
Proof.
  destruct (getPairs_neighbours (str "abc")) as [Hlen Hpair].
  split; [exact Hlen|]. apply (Hpair 1%nat 98 99); reflexivity.
Defined.

(** ** The merges file *)

Lemma ranked_cons p ps n : ranked (p :: ps) n = (p, n) :: ranked ps (n + 1).
Proof.
  unfold ranked. cbn [length]. rewrite seqZ_cons by lia. cbn [zip zip_with].
  do 3 f_equal; lia.
Qed.

Lemma set_bpeRanks_id st : set_bpeRanks (fun m => m) st = st.
Proof. by destruct st. Qed.

Lemma loadMergeRules_loop_spec lines : forall n st,
  0 < n ->
  fst (loadMergeRules_loop lines n st) = rbind (parse_rules lines) (fun _ => Ret tt) /\
  forall ps, parse_rules lines = Ret ps ->
    snd (loadMergeRules_loop lines n st) =
      set_bpeRanks (fun m => foldl (fun m e => umap_insert (fst e) (snd e) m) m (ranked ps n)) st.
Proof.
  induction lines as [|line lines IH]; intros n st Hn; cbn [loadMergeRules_loop parse_rules].
  - split; [done|]. intros ps [= <-]. by destruct st.
  - rewrite (proj2 (Z.ltb_lt 0 n)) by done. unfold parse_rule.
    unfold bind, lift, modify.
    destruct (utf8ToWString (fst (split_rule line))) as [l|e|]; cbn [rbind fst snd]; [|done..].
    destruct (utf8ToWString (snd (split_rule line))) as [r|e|]; cbn [rbind fst snd]; [|done..].
    destruct (IH (n + 1) (set_bpeRanks (umap_insert (l, r) (n + 1 - 1)) st) ltac:(lia))
      as [IH1 IH2].
    destruct (loadMergeRules_loop lines (n + 1)
                (set_bpeRanks (umap_insert (l, r) (n + 1 - 1)) st)) as [[[]|e|] st'];
      cbn [fst snd] in *;
      destruct (parse_rules lines) as [ps|e'|]; cbn [rbind] in *; split; try done.
    intros ps' [= <-]. rewrite (IH2 ps eq_refl), ranked_cons. cbn [foldl fst snd].
    replace (n + 1 - 1) with n by lia. by destruct st.
Qed.

Lemma loadMergeRules_spec file st :
  fst (loadMergeRules file st) = rbind (parse_rules (tail (getlines file))) (fun _ => Ret tt) /\
  forall ps, parse_rules (tail (getlines file)) = Ret ps ->
    m_bpeRanks (snd (loadMergeRules file st)) =
      foldl (fun m e => umap_insert (fst e) (snd e) m) ∅ (ranked ps 1) /\
    m_b2u (snd (loadMergeRules file st)) = m_b2u st /\
    m_u2b (snd (loadMergeRules file st)) = m_u2b st /\
    m_t2i (snd (loadMergeRules file st)) = m_t2i st /\
    m_i2t (snd (loadMergeRules file st)) = m_i2t st.
Proof.
  unfold loadMergeRules. unfold bind, modify. cbv beta iota.
  destruct (getlines file) as [|header lines]; cbn [loadMergeRules_loop tail].
  - split; [done|]. intros ps [= <-]. done.
  - change (0 <? 0) with false. cbv iota.
    destruct (loadMergeRules_loop_spec lines (0 + 1) (set_bpeRanks (fun _ => ∅) st) ltac:(lia))
      as [H1 H2].
    split; [exact H1|]. intros ps Hps. rewrite (H2 ps Hps). done.
Qed.

Lemma first_with_ranked_bounds p ps : forall n r,
  first_with p (ranked ps n) = Some r -> n <= r < n + Z.of_nat (length ps).
Proof.
  induction ps as [|q ps IH]; intros n r; [done|].
  rewrite ranked_cons. cbn [first_with length]. case_decide.
  - intros [= <-]. lia.
  - intros Hr. apply IH in Hr. lia.
Qed.

(** X21: [loadMergeRules] skips the first line of the file and takes every
    further line as a rule; it throws what [utf8ToWString] throws on the
    first line it cannot read, and otherwise leaves a table in which the
    rule of the [k]-th rule line has rank [k] (counted from 1), a rule that
    is repeated keeps the rank of its first line, and every rank lies
    between 1 and the number of rule lines. *)
Theorem loadMergeRules_ranks (file : option (list Z)) (st : BPE) :
  fst (loadMergeRules file st) = rbind (parse_rules (tail (getlines file))) (fun _ => Ret tt) /\
  forall ps, parse_rules (tail (getlines file)) = Ret ps ->
    (forall p, m_bpeRanks (snd (loadMergeRules file st)) !! p = first_with p (ranked ps 1)) /\
    (forall p r, m_bpeRanks (snd (loadMergeRules file st)) !! p = Some r ->
                 1 <= r <= Z.of_nat (length ps)).
Proof.
  destruct (loadMergeRules_spec file st) as [H1 H2]. split; [exact H1|].
  intros ps Hps. destruct (H2 ps Hps) as (Hranks & _).
  assert (Hlook : forall p, m_bpeRanks (snd (loadMergeRules file st)) !! p
                            = first_with p (ranked ps 1)).
  { intros p. by rewrite Hranks, umap_insert_fold_lookup, lookup_empty. }
  split; [exact Hlook|]. intros p r. rewrite Hlook. intros Hr.
  apply first_with_ranked_bounds in Hr. lia.
Qed.

Lemma loadMergeRules_ranks_witness :
  let file := Some (file_of_lines ["#version"; "a b"; "c"; "a b"]%string) in
  parse_rules (tail (getlines file)) = Ret [(str "a", str "b"); (str "c", str "c"); (str "a", str "b")] /\
  m_bpeRanks (snd (loadMergeRules file (mkBPE ∅ ∅ ∅ ∅ ∅))) !! (str "a", str "b") = Some 1 /\
  m_bpeRanks (snd (loadMergeRules file (mkBPE ∅ ∅ ∅ ∅ ∅))) !! (str "c", str "c") = Some 2.
Proof.
  intros file.
  assert (Hps : parse_rules (tail (getlines file))
                = Ret [(str "a", str "b"); (str "c", str "c"); (str "a", str "b")])
    by (vm_compute; reflexivity).
  split; [exact Hps|].
  destruct (proj2 (loadMergeRules_ranks file (mkBPE ∅ ∅ ∅ ∅ ∅)) _ Hps) as [Hlook _].
  split; rewrite Hlook; vm_compute; reflexivity.
Defined.

(** ** The vocabulary file and the constructor *)

Lemma loadVocab_spec file st :
  fst (loadVocab file st) = rbind (vocab_entries file) (fun _ => Ret tt) /\
  forall es, vocab_entries file = Ret es ->
    snd (loadVocab file st) =
      mkBPE (m_bpeRanks st) (m_b2u st) (m_u2b st)
        (foldl (fun m e => umap_insert (fst e) (snd e) m) ∅ es)
        (foldl (fun m e => umap_insert (fst e) (snd e) m) ∅ (map swap es)).
Proof.
  unfold loadVocab, vocab_entries. unfold bind, modify. cbv beta iota.
  destruct (loadVocab_loop_spec (getlines file) [] 0
              (set_i2t (fun _ => ∅) (set_t2i (fun _ => ∅) st))) as [H1 H2].
  change (0 mod 2 =? 0) with true in H1, H2. cbv iota in H1, H2.
  split; [exact H1|]. intros es Hes. by rewrite (H2 es Hes).
Qed.

Lemma first_with_swap_elem (es : list (list Z * Z)) token id :
  NoDup (map snd es) -> first_with id (map swap es) = Some token <-> (token, id) ∈ es.
Proof.
  intros Hnd. rewrite first_with_elem.
  - rewrite list_elem_of_fmap. split.
    + intros ([t i] & [= -> ->] & Hin). done.
    + intros Hin. by exists (token, id).
  - rewrite map_map. by rewrite (map_ext _ snd) by done.
Qed.

(** X22: when the vocabulary file names no token twice and no id twice,
    [loadVocab] leaves two maps that are inverse to each other: a token is
    mapped to an id exactly when that id is mapped to the token, and these
    are exactly the entries of the file. *)
Theorem loadVocab_inverse_maps (file : option (list Z)) (st : BPE) (es : list (list Z * Z)) :
  vocab_entries file = Ret es ->
  NoDup (map fst es) -> NoDup (map snd es) ->
  fst (loadVocab file st) = Ret tt /\
  forall token id,
    (m_t2i (snd (loadVocab file st)) !! token = Some id <-> (token, id) ∈ es) /\
    (m_i2t (snd (loadVocab file st)) !! id = Some token <-> (token, id) ∈ es).
Proof.
  intros Hes Hnd1 Hnd2. destruct (loadVocab_spec file st) as [H1 H2].
  split; [by rewrite H1, Hes|]. intros token id. rewrite (H2 es Hes). cbn [m_t2i m_i2t].
  rewrite !umap_insert_fold_lookup, !lookup_empty. split.
  - by apply first_with_elem.
  - by apply first_with_swap_elem.
Qed.

Lemma loadVocab_inverse_maps_witness :
  let file := Some (file_of_lines ["a"; "1"; "b"; "2"]%string) in
  fst (loadVocab file (mkBPE ∅ ∅ ∅ ∅ ∅)) = Ret tt /\
  forall token id,
    (m_t2i (snd (loadVocab file (mkBPE ∅ ∅ ∅ ∅ ∅))) !! token = Some id
       <-> (token, id) ∈ [(str "a", 1); (str "b", 2)]) /\
    (m_i2t (snd (loadVocab file (mkBPE ∅ ∅ ∅ ∅ ∅))) !! id = Some token
       <-> (token, id) ∈ [(str "a", 1); (str "b", 2)]).
Proof.
  intros file.
  apply (loadVocab_inverse_maps file (mkBPE ∅ ∅ ∅ ∅ ∅) [(str "a", 1); (str "b", 2)]).
  - vm_compute. reflexivity.
  - apply (bool_decide_unpack _). vm_compute. exact I.
  - apply (bool_decide_unpack _). vm_compute. exact I.
Defined.

Lemma parse_rules_not_fuel lines : parse_rules lines <> Fuel.
Proof.
  induction lines as [|line lines IH]; cbn [parse_rules]; [done|]. unfold parse_rule.
  pose proof (utf8ToWString_not_fuel (fst (split_rule line))).
  pose proof (utf8ToWString_not_fuel (snd (split_rule line))).
  destruct (utf8ToWString (fst (split_rule line))); cbn [rbind]; [|done..].
  destruct (utf8ToWString (snd (split_rule line))); cbn [rbind]; [|done..].
  by destruct (parse_rules lines).
Qed.

Lemma stoi_not_fuel line : stoi line <> Fuel.
Proof. unfold stoi. repeat case_match; done. Qed.

Lemma entries_from_not_fuel lines : forall pending, entries_from lines pending <> Fuel.
Proof.
  induction lines as [|line lines IH]; intros pending; cbn [entries_from]; [done|].
  destruct pending as [token|]; [|apply IH].
  pose proof (stoi_not_fuel line). destruct (stoi line); cbn [rbind]; [|done..].
  pose proof (IH None). by destruct (entries_from lines None).
Qed.

Lemma BPE_new_outcome mergesFile vocabsFile :
  BPE_new mergesFile vocabsFile =
  rbind (parse_rules (tail (getlines mergesFile))) (fun _ =>
  rbind (vocab_entries vocabsFile) (fun _ =>
    Ret (bytesToUnicode (snd (loadVocab vocabsFile
                                (snd (loadMergeRules mergesFile (mkBPE ∅ ∅ ∅ ∅ ∅)))))))).
Proof.
  unfold BPE_new, BPE_ctor. unfold bind at 1, modify at 1. unfold bind at 1.
  destruct (loadMergeRules_spec mergesFile (mkBPE ∅ ∅ ∅ ∅ ∅)) as [Hm _].
  destruct (loadMergeRules mergesFile (mkBPE ∅ ∅ ∅ ∅ ∅)) as [rm st1]. cbn [fst snd] in *.
  subst rm.
  destruct (parse_rules (tail (getlines mergesFile))) as [ps|e|]; cbn [rbind]; [|done..].
  unfold bind at 1.
  destruct (loadVocab_spec vocabsFile st1) as [Hv _].
  destruct (loadVocab vocabsFile st1) as [rv st2]. cbn [fst snd] in *. subst rv.
  destruct (vocab_entries vocabsFile) as [es|e|]; cbn [rbind]; done.
Qed.

(** X23: what the constructor does with its two files.  It throws exactly
    when a rule line of the merges file cannot be read by [utf8ToWString] or
    an id line of the vocabulary file is refused by [std::stoi]; the merges
    file is read first, so its exception wins; in every other case the
    construction succeeds, and it never fails to end. *)
Theorem construction_outcome (mergesFile vocabsFile : option (list Z)) :
  (forall e, parse_rules (tail (getlines mergesFile)) = Exc e ->
             BPE_new mergesFile vocabsFile = Exc e) /\
  (forall ps e, parse_rules (tail (getlines mergesFile)) = Ret ps ->
                vocab_entries vocabsFile = Exc e ->
                BPE_new mergesFile vocabsFile = Exc e) /\
  (forall ps es, parse_rules (tail (getlines mergesFile)) = Ret ps ->
                 vocab_entries vocabsFile = Ret es ->
                 exists st, BPE_new mergesFile vocabsFile = Ret st) /\
  BPE_new mergesFile vocabsFile <> Fuel.
Proof.
  rewrite BPE_new_outcome. repeat split.
  - by intros e ->.
  - by intros ps e -> ->.
  - intros ps es -> ->. cbn [rbind]. eauto.
  - pose proof (parse_rules_not_fuel (tail (getlines mergesFile))).
    pose proof (entries_from_not_fuel (getlines vocabsFile) None).
    unfold vocab_entries.
    destruct (parse_rules (tail (getlines mergesFile))); cbn [rbind]; [|done..].
    by destruct (entries_from (getlines vocabsFile) None).
Qed.

Lemma construction_outcome_witness :
  BPE_new (Some (file_of_lines ["#version"; "a b"]%string ++ [0xff; 32; 98; 10]))
          (Some (file_of_lines ["a"; "x"]%string)) = Exc RuntimeError /\
  BPE_new (Some (file_of_lines ["#version"; "a b"]%string))
          (Some (file_of_lines ["a"; "x"]%string)) = Exc InvalidArgument /\
  (exists st, BPE_new (Some (file_of_lines ["#version"; "a b"]%string))
                      (Some (file_of_lines ["a"; "1"]%string)) = Ret st).
Proof.
  split; [|split].
  - apply (proj1 (construction_outcome _ _)). vm_compute. reflexivity.
  - apply (proj1 (proj2 (construction_outcome _ _)) [(str "a", str "b")]);
      vm_compute; reflexivity.
  - apply (proj1 (proj2 (proj2 (construction_outcome _ _))) [(str "a", str "b")] [(str "a", 1)]);
      vm_compute; reflexivity.
Defined.

(** X24: the path of [main].  For a tokenizer that the constructor has built
    from a vocabulary file in which no id occurs twice, and a prompt of
    ASCII characters without underscore: whenever [encode] (with its default
    marker) returns ids, [decode] of these ids is the prompt. *)
Theorem constructed_round_trip (mergesFile vocabsFile : option (list Z)) (st : BPE)
    (es : list (list Z * Z)) (fuel : nat) (text ids : list Z) :
  BPE_new mergesFile vocabsFile = Ret st ->
  vocab_entries vocabsFile = Ret es -> NoDup (map snd es) ->
  plain_ascii text ->
  (length text < fuel)%nat ->
  eval (encode fuel text (str "<|endoftext|>")) st = Ret ids ->
  eval (decode ids) st = Ret text.
Proof.
  intros Hnew Hes Hnd Hplain Hfuel Henc.
  destruct (constructed_tokenizer _ _ _ Hnew) as (Halpha & Hvocab & _).
  specialize (Hvocab es Hes Hnd).
  destruct (alphabet_built_tables st Halpha) as [Hb2u Hu2b].
  assert (Hne : str "<|endoftext|>" <> []) by discriminate.
  rewrite encode_eq_spec in Henc by done. unfold encode_spec in Henc.
  destruct (segment_tokens st (str "<|endoftext|>") (split_on (str "<|endoftext|>") text))
    as [tokens| |] eqn:Htok; [|done..].
  cbn [rbind] in Henc.
  apply (decode_decodes st tokens ids text Hu2b Hvocab Henc).
  rewrite <- (join_split_fuel (str "<|endoftext|>") (length text) text).
  apply (segment_tokens_decodes st (str "<|endoftext|>")); [done| | |done].
  - apply marker_printable_check. vm_compute. reflexivity.
  - by apply plain_ascii_split.
Qed.

Lemma constructed_round_trip_witness :
  eval (decode [1; 2; 3; 4; 5; 6; 7]) demo = Ret (str "Hello<|endoftext|>World").
Proof.
  apply (constructed_round_trip (Some demo_merges) (Some demo_vocab) demo
           [(str "He", 1); (str "llo", 2); (str "<|endoftext|>", 3); (str "W", 4);
            (str "or", 5); (str "l", 6); (str "d", 7); (str "a", 8); (str "b", 9);
            (str "_", 10); (str "ab", 11)]
           24 (str "Hello<|endoftext|>World") [1; 2; 3; 4; 5; 6; 7]).
  - exact demo_constructed.
  - vm_compute. reflexivity.
  - apply (bool_decide_unpack _). vm_compute. exact I.
  - apply Forall_forall. intros c Hc. apply list_elem_of_In in Hc.
    assert (Hall : forallb (fun c => (0 <=? c) && (c <=? 127) && negb (c =? 95))
                     (str "Hello<|endoftext|>World") = true) by (vm_compute; reflexivity).
    pose proof (proj1 (forallb_forall _ _) Hall c Hc) as Hk. simpl in Hk. lia.
  - vm_compute. lia.
  - vm_compute. reflexivity.
Defined.

(** ** [pairWStringHasher] *)

(** X25: the hash of a pair does not depend on the order of its halves, a
    pair of two equal strings hashes like the string, and the hash of a pair
    is zero only when both halves hash to zero (the reason why equal hashes
    are not xor-ed). *)
Theorem pairWStringHasher_properties (hash : list Z -> Z) (a b : list Z) :
  pairWStringHasher hash (a, b) = pairWStringHasher hash (b, a) /\
  pairWStringHasher hash (a, a) = hash a /\
  (pairWStringHasher hash (a, b) = 0 -> hash a = 0 /\ hash b = 0).
Proof.
  unfold pairWStringHasher. cbn [fst snd]. split; [|split].
  - rewrite (Z.eqb_sym (hash b)). destruct (Z.eqb_spec (hash a) (hash b)) as [Heq|Hne]; simpl.
    + done.
    + apply Z.lxor_comm.
  - by rewrite Z.eqb_refl.
  - destruct (Z.eqb_spec (hash a) (hash b)) as [Heq|Hne]; simpl.
    + intros H0. by rewrite <- Heq.
    + intros H0. apply Z.lxor_eq in H0. done.
Qed.

Lemma pairWStringHasher_properties_witness :
  pairWStringHasher (fun w => Z.of_nat (length w)) (str "ab", str "c") = 3 /\
  pairWStringHasher (fun w => Z.of_nat (length w)) (str "ab", str "c") =
    pairWStringHasher (fun w => Z.of_nat (length w)) (str "c", str "ab").
Proof.
  split; [vm_compute; reflexivity|].
  apply (proj1 (pairWStringHasher_properties (fun w => Z.of_nat (length w)) (str "ab") (str "c"))).
Defined.

(** ** [main]: the command line *)

(** X26: [processCommandLineArguments] returns options exactly for a
    non-empty prompt and one of the four model names, and keeps the prompt
    as it is; for every options record it returns, [main]'s two table
    accesses by model type are within the tables, the context length is
    1024 and the vocabulary size 50257, and the embedding width is a
    multiple of the number of heads (so the constructor of
    [MultiHeadAttention] does not throw). *)
Theorem command_line_options (promptArg modelArg : list Z) :
  (is_Some (processCommandLineArguments promptArg modelArg) <->
     promptArg <> [] /\
     modelArg ∈ [str "124M"; str "355M"; str "774M"; str "1558M"]) /\
  forall o, processCommandLineArguments promptArg modelArg = Some o ->
    prompt o = promptArg /\
    exists h f, modelParams !! model_index (modelType o) = Some h /\
                modelWeightsFilenames !! model_index (modelType o) = Some f /\
                nVocab h = 50257 /\ nCtx h = 1024 /\ nEmbd h mod nHeads h = 0.
Proof.
  unfold processCommandLineArguments. split.
  - rewrite !elem_of_cons, elem_of_nil.
    repeat case_bool_decide; split;
      try (intros [? [=]]); try (intros [? ?]); try done; try tauto; eauto 10.
  - intros o. repeat case_bool_decide; intros [= <-]; (split; [done|]);
      do 2 eexists; cbn; repeat split; reflexivity.
Qed.

Lemma command_line_options_witness :
  exists h, processCommandLineArguments (str "Hi") (str "774M")
              = Some (mkCmdLineOptions (str "Hi") OPENAI_774M) /\
            modelParams !! model_index OPENAI_774M = Some h /\ nCtx h = 1024.
Proof.
  destruct (proj2 (command_line_options (str "Hi") (str "774M"))
              (mkCmdLineOptions (str "Hi") OPENAI_774M) eq_refl)
    as (_ & h & f & Hh & _ & _ & Hctx & _).
  exists h. split; [reflexivity|]. split; [exact Hh|exact Hctx].
Defined.

(** ** [main]: the generation loop *)

Lemma generate_loop_total st predict nCtx : forall n ids out,
  (forall l, ids `prefix_of` l -> (length l < nCtx)%nat ->
             exists id t, predict l = Ret id /\ eval (decode [id]) st = Ret t) ->
  (nCtx - length ids <= n)%nat ->
  exists new out',
    eval (generate_loop predict nCtx n ids out) st = Ret (ids ++ new, out') /\
    length new = (nCtx - length ids)%nat.
Proof.
  induction n as [|n IH]; intros ids out Hpred Hn; cbn [generate_loop].
  - exists [], out. rewrite app_nil_r. split; [done|]. simpl. lia.
  - destruct (Nat.leb_spec nCtx (length ids)) as [Hfull|Hroom].
    + exists [], out. rewrite app_nil_r. split; [done|]. simpl. lia.
    + destruct (Hpred ids) as (id & t & Hid & Ht); [done|done|].
      rewrite eval_bind, eval_lift, Hid by auto with ro. cbn [rbind].
      rewrite eval_bind, Ht by auto with ro. cbn [rbind].
      destruct (IH (ids ++ [id]) (out ++ t)) as (new & out' & Hrun & Hlen).
      { intros l Hl. apply Hpred. etransitivity; [|exact Hl]. by apply prefix_app_r. }
      { rewrite length_app. simpl. lia. }
      exists (id :: new), out'. rewrite Hrun, <- app_assoc. split; [done|].
      rewrite length_app in Hlen. simpl in *. lia.
Qed.

Lemma generate_loop_frame st predict predict' nCtx : forall n ids out,
  (forall l, ids `prefix_of` l -> (length l < nCtx)%nat -> predict' l = predict l) ->
  eval (generate_loop predict' nCtx n ids out) st =
  eval (generate_loop predict nCtx n ids out) st.
Proof.
  induction n as [|n IH]; intros ids out Hsame; cbn [generate_loop]; [done|].
  destruct (Nat.leb_spec nCtx (length ids)) as [Hfull|Hroom]; [done|].
  rewrite !eval_bind, !eval_lift by auto with ro.
  rewrite (Hsame ids) by done.
  apply rbind_ext. intros id. rewrite !eval_bind by auto with ro.
  apply rbind_ext. intros t. apply IH.
  intros l Hl. apply Hsame. etransitivity; [|exact Hl]. by apply prefix_app_r.
Qed.

(** X27: the generation loop of [main], with the model left open.  The model
    is run only on id lists that extend the prompt ids and are shorter than
    [nCtx]: two models that agree on these lists give the same run.  When
    the model delivers on these lists an id that [decode] accepts, the loop
    ends with the prompt ids followed by exactly as many new ids as the
    context length leaves room for.  When the prompt already has [nCtx] ids
    or more, the loop returns the prompt ids and prints nothing whatever the
    model is, be it one that throws whenever it is run: the model is not
    run. *)
Theorem generate_fills_context (st : BPE) (predict : list Z -> res Z) (nCtx : nat)
    (inputTokenIds : list Z) :
  (forall predict' : list Z -> res Z,
     (forall l, inputTokenIds `prefix_of` l -> (length l < nCtx)%nat ->
                predict' l = predict l) ->
     eval (generate predict' nCtx inputTokenIds) st =
     eval (generate predict nCtx inputTokenIds) st) /\
  ((forall l, inputTokenIds `prefix_of` l -> (length l < nCtx)%nat ->
              exists id t, predict l = Ret id /\ eval (decode [id]) st = Ret t) ->
   exists new printed,
     eval (generate predict nCtx inputTokenIds) st = Ret (inputTokenIds ++ new, printed) /\
     length new = (nCtx - length inputTokenIds)%nat) /\
  ((nCtx <= length inputTokenIds)%nat ->
   eval (generate predict nCtx inputTokenIds) st = Ret (inputTokenIds, [])).
Proof.
  split; [|split].
  - intros predict' Hsame. by apply generate_loop_frame.
  - intros Hpred. apply (generate_loop_total st predict nCtx); [done|lia].
  - intros Hfull. unfold generate. destruct nCtx as [|n]; [done|].
    cbn [generate_loop]. by rewrite (proj2 (Nat.leb_le _ _)) by done.
Qed.

Lemma generate_fills_context_witness :
  eval (generate (fun _ => Exc RuntimeError) 2 [1; 2]) demo = Ret ([1; 2], []) /\
  exists new printed,
    eval (generate (fun _ => Ret 6) 5 [1; 2]) demo = Ret ([1; 2] ++ new, printed) /\
    length new = (5 - length [1; 2])%nat.
Proof.
  split.
  - apply (proj2 (proj2 (generate_fills_context demo (fun _ => Exc RuntimeError) 2 [1; 2]))).
    simpl. lia.
  - apply (proj1 (proj2 (generate_fills_context demo (fun _ => Ret 6) 5 [1; 2]))).
    intros l _ _. exists 6, (str "l"). split; [reflexivity|vm_compute; reflexivity].
Defined.

Lemma generate_loop_prints st predict nCtx :
  (forall id t, m_i2t st !! id = Some t ->
     exists W, Forall (fun c => 0 <= c <= 0x10ffff) W /\ t = wstringToUTF8 W) ->
  forall n ids out ids' out',
  eval (generate_loop predict nCtx n ids out) st = Ret (ids', out') ->
  exists new t,
    ids' = ids ++ new /\ out' = out ++ t /\
    eval (decode new) st = Ret t /\
    forall (k : nat) id, new !! k = Some id -> predict (ids ++ take k new) = Ret id.
Proof.
  intros Hwf. induction n as [|n IH]; intros ids out ids' out'; cbn [generate_loop].
  - intros [= <- <-]. exists [], []. rewrite !app_nil_r. repeat split; done.
  - destruct (nCtx <=? length ids)%nat.
    + intros [= <- <-]. exists [], []. rewrite !app_nil_r. repeat split; done.
    + rewrite eval_bind, eval_lift by auto with ro.
      destruct (predict ids) as [id| |] eqn:Hid; [|done..]. cbn [rbind].
      rewrite eval_bind by auto with ro.
      destruct (eval (decode [id]) st) as [t1| |] eqn:Ht1; [|done..]. cbn [rbind].
      intros Hrun. destruct (IH _ _ _ _ Hrun) as (new & t & -> & -> & Hdec & Hnext).
      exists (id :: new), (t1 ++ t). rewrite <- !app_assoc. repeat split; try done.
      * apply (decode_app st [id] new t1 t); [|done..].
        apply Forall_cons_2; [apply Hwf|apply Forall_nil_2].
      * intros [|k] id'; cbn [take lookup list_lookup].
        -- intros [= <-]. by rewrite app_nil_r.
        -- intros Hk. rewrite <- (Hnext k id' Hk). by rewrite <- app_assoc.
Qed.

(** X28: what [main] prints.  When every token string of the vocabulary is
    the UTF-8 form of whole characters, a run of the generation loop that
    comes to its end has appended ids to the prompt ids, each of them the
    model's answer to the ids before it, and the texts printed one token at
    a time make up exactly [decode] of the appended ids. *)
Theorem generate_prints_decoding (st : BPE) (predict : list Z -> res Z) (nCtx : nat)
    (inputTokenIds ids' printed : list Z) :
  (forall id t, m_i2t st !! id = Some t ->
     exists W, Forall (fun c => 0 <= c <= 0x10ffff) W /\ t = wstringToUTF8 W) ->
  eval (generate predict nCtx inputTokenIds) st = Ret (ids', printed) ->
  exists new,
    ids' = inputTokenIds ++ new /\
    eval (decode new) st = Ret printed /\
    forall (k : nat) id, new !! k = Some id -> predict (inputTokenIds ++ take k new) = Ret id.
Proof.
  intros Hwf Hrun.
  destruct (generate_loop_prints st predict nCtx Hwf _ _ _ _ _ Hrun)
    as (new & t & -> & -> & Hdec & Hnext).
  by exists new.
Qed.

Lemma generate_prints_decoding_witness :
  exists new,
    [1; 2; 6; 7] = [1; 2] ++ new /\
    eval (decode new) demo = Ret (str "ld") /\
    forall (k : nat) id, new !! k = Some id ->
      (fun l => if (length l <=? 2)%nat then Ret 6 else Ret 7) ([1; 2] ++ take k new) = Ret id.
Proof.
  apply (generate_prints_decoding demo
           (fun l => if (length l <=? 2)%nat then Ret 6 else Ret 7) 4 [1; 2] [1; 2; 6; 7]
           (str "ld")).
  - intros id t Ht.
    exact (proj1 (Forall_forall _ _) (demo_whole_characters [id]) id
             ltac:(apply list_elem_of_In; left; reflexivity) t Ht).
  - vm_compute. reflexivity.
Defined.

(** ** Why [encode] can fail *)

Lemma tokenize_exc st text e :
  m_b2u st = byte_table ->
  eval (tokenize text []) st = Exc e -> utf8ToWString text = Exc e.
Proof.
  intros Hb2u. rewrite tokenize_pieces.
  destruct (utf8ToWString text) as [w|e'|]; cbn [rbind]; [|by intros [= ->]|done].
  destruct (pieces_total st (pretokens w) Hb2u) as [new ->]. done.
Qed.

Lemma segment_tokens_exc st eot segments e :
  m_b2u st = byte_table ->
  segment_tokens st eot segments = Exc e ->
  exists segment, segment ∈ segments /\ utf8ToWString segment = Exc e.
Proof.
  intros Hb2u. induction segments as [|sg sgs IH]; cbn [segment_tokens]; [done|].
  destruct (eval (tokenize sg []) st) as [a|e'|] eqn:Ha; cbn [rbind]; [| |done].
  - destruct sgs as [|sg' sgs]; [done|].
    destruct (segment_tokens st eot (sg' :: sgs)) as [b|e'|]; cbn [rbind]; [done| |done].
    intros [= ->]. destruct (IH eq_refl) as (seg & Hin & Hseg).
    exists seg. split; [by right|done].
  - intros [= ->]. exists sg. split; [by left|by apply (tokenize_exc st)].
Qed.

Lemma lookup_ids_exc st tokens e :
  eval (lookup_ids tokens) st = Exc e ->
  e = OutOfRange /\ Exists (fun t => m_t2i st !! t = None) tokens.
Proof.
  induction tokens as [|t tokens IH]; cbn [lookup_ids]; [done|].
  rewrite eval_bind, eval_umap_at by auto with ro.
  destruct (m_t2i st !! t) as [id|] eqn:Ht; cbn [rbind].
  - rewrite eval_bind by auto with ro.
    destruct (eval (lookup_ids tokens) st) as [ids|e'|]; cbn [rbind]; [done| |done].
    intros [= ->]. destruct (IH eq_refl) as [-> Hex]. split; [done|by right].
  - intros [= <-]. split; [done|by left].
Qed.

(** X29: the two ways [encode] can throw (alphabet of [bytesToUnicode],
    non-empty marker).  Either [utf8ToWString] refuses one of the segments
    between the markers, and [encode] throws what it throws; or every
    segment is tokenized and a token string is not in the vocabulary, and
    [encode] throws [std::out_of_range].  In particular the [substr] calls
    never leave the text. *)
Theorem encode_failure_causes (st : BPE) (fuel : nat) (text eot : list Z) (e : exn) :
  alphabet_built st -> eot <> [] -> (length text < fuel)%nat ->
  eval (encode fuel text eot) st = Exc e ->
  (exists segment, segment ∈ split_on eot text /\ utf8ToWString segment = Exc e) \/
  (e = OutOfRange /\
   exists tokens, segment_tokens st eot (split_on eot text) = Ret tokens /\
                  Exists (fun t => m_t2i st !! t = None) tokens).
Proof.
  intros Halpha Hne Hfuel. destruct (alphabet_built_tables st Halpha) as [Hb2u _].
  rewrite encode_eq_spec by done. unfold encode_spec.
  destruct (segment_tokens st eot (split_on eot text)) as [tokens|e'|] eqn:Htok;
    cbn [rbind]; [| |done].
  - intros Hl. apply lookup_ids_exc in Hl as [-> Hex]. right. eauto.
  - intros [= ->]. left. by apply (segment_tokens_exc st eot).
Qed.

Lemma encode_failure_causes_witness :
  (exists segment, segment ∈ split_on (str "<|endoftext|>") (str "Hello!") /\
                   utf8ToWString segment = Exc OutOfRange) \/
  (OutOfRange = OutOfRange /\
   exists tokens,
     segment_tokens demo (str "<|endoftext|>") (split_on (str "<|endoftext|>") (str "Hello!"))
       = Ret tokens /\
     Exists (fun t => m_t2i demo !! t = None) tokens).
Proof.
  apply (encode_failure_causes demo 7 (str "Hello!") (str "<|endoftext|>") OutOfRange).
  - exact demo_alphabet_built.
  - discriminate.
  - simpl. lia.
  - vm_compute. reflexivity.
Defined.

(** ** The round trip on UTF-8 text *)

Lemma utf8_text_covered W :
  Forall (fun c => 0 <= c <= 0x10ffff /\ c <> 95) W -> segment_covered (wstringToUTF8 W).
Proof.
  intros HW. exists W. split.
  - rewrite <- (app_nil_r (wstringToUTF8 W)), utf8_chars_prefix.
    + simpl. by rewrite app_nil_r.
    + eapply Forall_impl; [exact HW|]. simpl. tauto.
  - unfold pretokens. rewrite pretokens_cover; [done|done|].
    eapply Forall_impl; [exact HW|]. simpl. tauto.
Qed.

(** X30: the round trip beyond ASCII.  With the alphabet of
    [bytesToUnicode] and vocabulary maps that agree, for every text that is
    the UTF-8 form of Unicode code points other than the underscore and in
    which the (non-empty) marker does not occur: whenever [encode] returns
    ids, [decode] of these ids returns the text. *)
Theorem utf8_text_round_trip (st : BPE) (fuel : nat) (W eot ids : list Z) :
  alphabet_built st -> vocab_consistent st ->
  eot <> [] ->
  Forall (fun c => 0 <= c <= 0x10ffff /\ c <> 95) W ->
  string_find (wstringToUTF8 W) eot 0 = None ->
  (length (wstringToUTF8 W) < fuel)%nat ->
  eval (encode fuel (wstringToUTF8 W) eot) st = Ret ids ->
  eval (decode ids) st = Ret (wstringToUTF8 W).
Proof.
  intros Halpha Hvocab Hne HW Hfind Hfuel Henc.
  destruct (alphabet_built_tables st Halpha) as [Hb2u Hu2b].
  unfold string_find in Hfind. cbn [drop] in Hfind.
  destruct (0 <=? length (wstringToUTF8 W))%nat eqn:Hle; [|by apply Nat.leb_gt in Hle; lia].
  destruct (encode_no_marker st fuel _ eot ids Hne Hfuel (split_on_not_found _ _ Hfind) Henc)
    as (tokens & Htok & Hids).
  apply (decode_decodes st tokens ids _ Hu2b Hvocab Hids).
  by apply (tokenize_decodes st _ tokens Hb2u (utf8_text_covered W HW)).
Qed.

Lemma utf8_text_round_trip_witness :
  wstringToUTF8 [0xe9; 33] = [0xc3; 0xa9; 33] /\
  eval (encode 4 (wstringToUTF8 [0xe9]) (str "<|endoftext|>")) accent_tokenizer = Ret [1; 2] /\
  eval (decode [1; 2]) accent_tokenizer = Ret (wstringToUTF8 [0xe9]).
Proof.
  split; [vm_compute; reflexivity|]. split; [vm_compute; reflexivity|].
  apply (utf8_text_round_trip accent_tokenizer 4 [0xe9] (str "<|endoftext|>") [1; 2]).
  - split; vm_compute; reflexivity.
  - apply check_vocab_consistent. vm_compute. reflexivity.
  - discriminate.
  - apply Forall_cons_2; [lia|apply Forall_nil_2].
  - vm_compute. reflexivity.
  - vm_compute. lia.
  - vm_compute. reflexivity.
Defined.

(** ** The round trip and the underscore *)

Lemma filter_underscore_ascii (l : list Z) :
  Forall (fun c => 0 <= c <= 127) l ->
  Forall (fun c => 0 <= c <= 127) (filter (fun c => c <> 95) l).
Proof.
  intros Hall. apply Forall_forall. intros c Hc.
  apply list_elem_of_filter in Hc as [_ Hc].
  by apply (proj1 (Forall_forall _ _) Hall).
Qed.

Lemma tokenize_decodes_filter st segment tokens :
  m_b2u st = byte_table ->
  Forall (fun c => 0 <= c <= 127) segment ->
  eval (tokenize segment []) st = Ret tokens ->
  decodes tokens (filter (fun c => c <> 95) segment).
Proof.
  intros Hb2u Hascii. rewrite tokenize_pieces, utf8ToWString_ascii by done. cbn [rbind].
  destruct (pieces st (pretokens segment)) as [new| |] eqn:Hp; [|done..]. cbn [rbind app].
  intros [= <-].
  destruct (pretokens_fuel_filter (length segment) segment ltac:(lia)) as [Hcat _].
  fold (pretokens segment) in Hcat.
  rewrite <- (wstringToUTF8_ascii (filter (fun c => c <> 95) segment))
    by (by apply filter_underscore_ascii).
  rewrite <- Hcat. by eapply pieces_decodes.
Qed.

Lemma split_fuel_ascii eot fuel : forall text,
  Forall (fun c => 0 <= c <= 127) text ->
  Forall (Forall (fun c => 0 <= c <= 127)) (split_fuel fuel eot text).
Proof.
  induction fuel as [|fuel IH]; intros text Hp; cbn [split_fuel].
  - apply Forall_cons_2; [done|apply Forall_nil_2].
  - destruct (find_from eot text 0) as [i|].
    + apply Forall_cons_2; [by apply Forall_take|]. apply IH. by apply Forall_drop.
    + apply Forall_cons_2; [done|apply Forall_nil_2].
Qed.

Lemma segment_tokens_decodes_filter st eot segments : forall tokens,
  m_b2u st = byte_table -> marker_printable eot -> Forall (fun c => c <> 95) eot ->
  Forall (Forall (fun c => 0 <= c <= 127)) segments ->
  segment_tokens st eot segments = Ret tokens ->
  decodes tokens (filter (fun c => c <> 95) (join eot segments)).
Proof.
  induction segments as [|sg sgs IH]; intros tokens Hb2u Hp Hno Hascii;
    cbn [segment_tokens join].
  - intros [= <-]. apply decodes_nil.
  - apply Forall_cons in Hascii as [Hsg Hsgs].
    destruct (eval (tokenize sg []) st) as [a| |] eqn:Ha; [|done..]. cbn [rbind].
    destruct sgs as [|sg' sgs].
    + intros [= <-]. by eapply tokenize_decodes_filter.
    + destruct (segment_tokens st eot (sg' :: sgs)) as [b| |] eqn:Hb; [|done..]. cbn [rbind].
      intros [= <-]. rewrite !filter_app, (filter_no_underscore eot) by done.
      apply decodes_app; [by eapply tokenize_decodes_filter|].
      change (eot :: b) with ([eot] ++ b).
      apply decodes_app; [by apply decodes_marker|by apply IH].
Qed.

(** C1, on the code: for a tokenizer with the alphabet of [bytesToUnicode]
    and vocabulary maps that agree, a marker of printable ASCII characters
    other than the underscore, and any ASCII text, whenever [encode] returns
    ids (so every token string produced is in the vocabulary), [decode] of
    these ids returns the text without its underscores; so for every such
    text that holds an underscore the round trip fails, although the text is
    well-formed UTF-8 and the vocabulary may well hold a token for the
    underscore. *)
Theorem round_trip_drops_underscores (st : BPE) (fuel : nat) (text eot ids : list Z) :
  alphabet_built st -> vocab_consistent st ->
  eot <> [] -> marker_printable eot -> Forall (fun c => c <> 95) eot ->
  Forall (fun c => 0 <= c <= 127) text ->
  (length text < fuel)%nat ->
  eval (encode fuel text eot) st = Ret ids ->
  eval (decode ids) st = Ret (filter (fun c => c <> 95) text) /\
  (95 ∈ text -> eval (decode ids) st <> Ret text).
Proof.
  intros Halpha Hvocab Hne Hprint Hno Hascii Hfuel Henc.
  destruct (alphabet_built_tables st Halpha) as [Hb2u Hu2b].
  assert (Hdec : eval (decode ids) st = Ret (filter (fun c => c <> 95) text)).
  { rewrite encode_eq_spec in Henc by done. unfold encode_spec in Henc.
    destruct (segment_tokens st eot (split_on eot text)) as [tokens| |] eqn:Htok; [|done..].
    cbn [rbind] in Henc.
    apply (decode_decodes st tokens ids _ Hu2b Hvocab Henc).
    rewrite <- (join_split_fuel eot (length text) text) at 1.
    apply (segment_tokens_decodes_filter st eot); try done.
    by apply split_fuel_ascii. }
  split; [exact Hdec|]. rewrite Hdec. intros Hin [= Heq].
  rewrite <- Heq in Hin. apply list_elem_of_filter in Hin as [Hin _]. done.
Qed.

Lemma round_trip_drops_underscores_witness :
  m_t2i demo !! str "_" = Some 10 /\
  eval (encode 4 (str "a_b") (str "<|endoftext|>")) demo = Ret [8; 9] /\
  eval (decode [8; 9]) demo = Ret (str "ab") /\
  eval (decode [8; 9]) demo <> Ret (str "a_b").
Proof.
  assert (Henc : eval (encode 4 (str "a_b") (str "<|endoftext|>")) demo = Ret [8; 9])
    by (vm_compute; reflexivity).
  destruct (round_trip_drops_underscores demo 4 (str "a_b") (str "<|endoftext|>") [8; 9])
    as [Hdec Hneq].
  - exact demo_alphabet_built.
  - apply check_vocab_consistent. vm_compute. reflexivity.
  - discriminate.
  - apply marker_printable_check. vm_compute. reflexivity.
  - apply Forall_forall. intros c Hc Heq. subst c. revert Hc.
    apply (bool_decide_unpack _). vm_compute. exact I.
  - apply Forall_forall. intros c Hc. apply list_elem_of_In in Hc.
    assert (Hall : forallb (fun c => (0 <=? c) && (c <=? 127)) (str "a_b") = true)
      by (vm_compute; reflexivity).
    pose proof (proj1 (forallb_forall _ _) Hall c Hc) as Hk. simpl in Hk. lia.
  - simpl. lia.
  - exact Henc.
  - split; [vm_compute; reflexivity|]. split; [exact Henc|]. split.
    + exact Hdec.
    + apply Hneq. apply (bool_decide_unpack _). vm_compute. exact I.
Defined.
